(** * TreeView: the item store behind the tree widget

    A shallow embedding of [cpp/open3d/visualization/gui/TreeView.cpp]
    and the properties of its item store, its lookup table and its
    selection handling.

    The C++ objects are rendered as follows.

    - [TreeView::Impl::Item] owns its children by value
      ([std::list<Item> children]), so an item is a rose tree.  The code
      also keeps raw pointers into that tree ([Item *parent] and the
      values of [id2item_]); a [std::list] never moves its nodes, so
      every item has one address for its whole life.  The embedding
      carries that address in the item ([addr]) and a pointer is such an
      address; dereferencing searches the tree and fails on an address
      no item has.
    - [id2item_] is a finite map from identifiers to pointers.
    - [g_next_id] is a static member, shared by all the views of the
      process: the functions that read it take it as an argument and
      return its new value, and [Process] holds the one copy.
    - The calls into ImGui made by [Draw] are recorded as a trace of
      events; what ImGui answers ([TreeNodeEx], [IsItemClicked]) is an
      argument of [Draw]. *)

From Stdlib Require Import ZArith Lia.
From stdpp Require Import base option list gmap strings pretty.

Open Scope Z_scope.

(** ** Data model *)

(** Modelled from the spec: [TreeView::ItemId] is declared in
    [TreeView.h]; the spec describes it as an integer-like opaque
    handle whose negative value [-1] stands for "no selection".  The
    identifiers are integers here, and the counter is taken not to
    overflow. *)
Abbreviation ItemId := Z (only parsing).

(** Addresses of [Item] objects. *)
Abbreviation ptr := positive (only parsing).

(** [struct Item].  [addr] is the address of the object itself. *)
#[local] Unset Elimination Schemes.
Inductive Item : Type := mkItem {
  addr : ptr;
  id : ItemId;
  text : string;
  parent : option ptr;
  children : list Item
}.
#[local] Set Elimination Schemes.

(** The value a listener is registered under; [std::function] is
    opaque to the store, which only tests it for emptiness and calls
    it. *)
Abbreviation Listener := nat (only parsing).

(** [struct TreeView::Impl], without the static [g_next_id]. *)
Record Impl : Type := mkImpl {
  root_ : Item;
  id2item_ : gmap Z positive;
  selected_id_ : ItemId;
  on_value_changed_ : option Listener
}.

(** [&impl_->root_] *)
Definition root_ptr : ptr := 1%positive.

(** All the items of a subtree, the subtree's root first (pre-order). *)
Fixpoint flatten (it : Item) : list Item :=
  match it with
  | mkItem _ _ _ _ cs => it :: (cs ≫= flatten)
  end.

(** Reading through the pointer [p]: the item at that address, if
    there is one. *)
Definition deref (p : ptr) (root : Item) : option Item :=
  head (filter (λ it, addr it = p) (flatten root)).

(** The tree after a write to [p->children]: the list of children of
    the item at address [p] becomes [h] of itself.  Nothing below that
    item is visited. *)
Fixpoint modify_children (p : ptr) (h : list Item → list Item) (it : Item) : Item :=
  match it with
  | mkItem a i t par cs =>
      if decide (a = p) then mkItem a i t par (h cs)
      else mkItem a i t par (modify_children p h <$> cs)
  end.

(** The address the allocator hands out for a new list node: one that
    no item of the tree has. *)
Definition fresh_addr (root : Item) : ptr :=
  Pos.succ (foldr Pos.max 1%positive (addr <$> flatten root)).

(** ** Construction, insertion *)

(** [TreeView::TreeView()] *)
Definition TreeView_new (g_next_id : ItemId) : Impl * ItemId :=
  let root := mkItem root_ptr g_next_id "" None [] in
  (mkImpl root {[ g_next_id := root_ptr ]} (-1) None, g_next_id + 1).

(** [TreeView::GetRootItem] *)
Definition GetRootItem (impl : Impl) : ItemId := id (root_ impl).

(** [TreeView::AddItem].  The local [item] is built directly at the
    address [a] of the list node that [push_back] copies it into.  The
    result is the returned identifier, the view and the counter
    afterwards; [None] stands for a write through a pointer that
    addresses no item. *)
Definition AddItem (impl : Impl) (parent_id : ItemId) (txt : string)
    (g_next_id : ItemId) : option (ItemId * Impl * ItemId) :=
  let a := fresh_addr (root_ impl) in
  let item_id := g_next_id in
  let g_next_id := g_next_id + 1 in
  let item_text := txt +:+ "##" +:+ pretty item_id in
  let parent :=
    match id2item_ impl !! parent_id with
    | Some p => p
    | None => root_ptr
    end in
  let item := mkItem a item_id item_text (Some parent) [] in
  match deref parent (root_ impl) with
  | None => None
  | Some _ =>
      Some (item_id,
            mkImpl (modify_children parent (λ cs, cs ++ [item]) (root_ impl))
                   (<[ item_id := a ]> (id2item_ impl))
                   (selected_id_ impl) (on_value_changed_ impl),
            g_next_id)
  end.

(** ** Removal *)

(** The loop over the siblings in [RemoveItem]: erase the first one
    whose identifier is [item_id]. *)
Fixpoint erase_id (item_id : ItemId) (l : list Item) : list Item :=
  match l with
  | [] => []
  | sibling :: l' =>
      if decide (id sibling = item_id) then l'
      else sibling :: erase_id item_id l'
  end.

Definition set_root (impl : Impl) (r : Item) : Impl :=
  mkImpl r (id2item_ impl) (selected_id_ impl) (on_value_changed_ impl).

Definition set_id2item (impl : Impl) (m : gmap Z positive) : Impl :=
  mkImpl (root_ impl) m (selected_id_ impl) (on_value_changed_ impl).

(** [if (item->parent) { ... erase(sibling) ... }] *)
Definition unlink (impl : Impl) (item : ptr) (item_id : ItemId) : option Impl :=
  it ← deref item (root_ impl);
  match parent it with
  | None => Some impl
  | Some q =>
      _ ← deref q (root_ impl);
      Some (set_root impl
              (modify_children q (erase_id item_id) (root_ impl)))
  end.

(** [TreeView::RemoveItem] and its [while] loop.  The recursion goes
    through the lookup table, so both take the number of nested calls
    and loop rounds they may make; [None] stands for running out of
    them, or for reading through a pointer that addresses no item. *)
Fixpoint RemoveItem (fuel : nat) (impl : Impl) (item_id : ItemId)
    {struct fuel} : option Impl :=
  match fuel with
  | O => None
  | S fuel =>
      match id2item_ impl !! item_id with
      | None => Some impl
      | Some item =>
          let impl := set_id2item impl (delete item_id (id2item_ impl)) in
          impl ← RemoveChildren fuel impl item;
          unlink impl item item_id
      end
  end
with RemoveChildren (fuel : nat) (impl : Impl) (item : ptr)
    {struct fuel} : option Impl :=
  match fuel with
  | O => None
  | S fuel =>
      it ← deref item (root_ impl);
      match children it with
      | [] => Some impl
      | front :: _ =>
          impl ← RemoveItem fuel impl (id front);
          RemoveChildren fuel impl item
      end
  end.

(** ** Queries and selection *)

(** [TreeView::GetItemChildren] *)
Definition GetItemChildren (impl : Impl) (parent_id : ItemId)
    : option (list ItemId) :=
  match id2item_ impl !! parent_id with
  | None => Some []
  | Some item =>
      it ← deref item (root_ impl);
      match parent it with
      | None => Some []
      | Some q =>
          par ← deref q (root_ impl);
          Some (id <$> children par)
      end
  end.

(** [TreeView::GetSelectedItemId] *)
Definition GetSelectedItemId (impl : Impl) : ItemId :=
  if decide (selected_id_ impl < 0) then id (root_ impl)
  else selected_id_ impl.

(** [TreeView::SetSelectedItemId] *)
Definition SetSelectedItemId (impl : Impl) (item_id : ItemId) : Impl :=
  mkImpl (root_ impl) (id2item_ impl) item_id (on_value_changed_ impl).

(** [TreeView::SetOnValueChanged]; [None] is an empty [std::function]. *)
Definition SetOnValueChanged (impl : Impl) (f : option Listener) : Impl :=
  mkImpl (root_ impl) (id2item_ impl) (selected_id_ impl) f.


(** ** Drawing *)

(** What a pass asks of ImGui and what it tells the listener, in the
    order in which it happens.  The frame rectangles, colours and
    cursor moves of [Draw] carry no information about the store and are
    left out. *)
Inductive Event : Type :=
  | SelectionRect (item_id : ItemId)
  | TreeNodeEx (label : string) (leaf : bool)
  | TreePop
  | ValueChanged (f : Listener) (label : string) (item_id : ItemId).

(** What ImGui answers during one pass, for the node drawn for the item
    at a given address: whether [TreeNodeEx] returns true (the node is
    open) and whether [IsItemClicked] does. *)
Record Frame : Type := mkFrame {
  node_open : positive → bool;
  IsItemClicked : positive → bool
}.

(** What the [DrawItem] closure reads and writes: the view (it assigns
    [impl_->selected_id_]), the captured [new_selection], and the
    events so far. *)
Record Walk : Type := mkWalk {
  w_impl : Impl;
  w_new_selection : option positive;
  w_events : list Event
}.

Definition emit (e : Event) (w : Walk) : Walk :=
  mkWalk (w_impl w) (w_new_selection w) (w_events w ++ [e]).

(** [impl_->selected_id_ = item.id; new_selection = &item;] *)
Definition activate (a : ptr) (i : ItemId) (w : Walk) : Walk :=
  mkWalk (SetSelectedItemId (w_impl w) i) (Some a) (w_events w).

Definition is_leaf (cs : list Item) : bool :=
  match cs with [] => true | _ => false end.

(** The closure [DrawItem] of [TreeView::Draw]. *)
Fixpoint DrawItem (ui : Frame) (item : Item) (w : Walk) : Walk :=
  match item with
  | mkItem a i t _ cs =>
      let w := if decide (i = selected_id_ (w_impl w))
               then emit (SelectionRect i) w else w in
      let w := emit (TreeNodeEx t (is_leaf cs)) w in
      if node_open ui a then
        let w := if IsItemClicked ui a && is_leaf cs then activate a i w else w in
        let w := fold_left (λ w child, DrawItem ui child w) cs w in
        emit TreePop w
      else
        if IsItemClicked ui a && is_leaf cs then activate a i w else w
  end.

Inductive DrawResult : Type := NONE | REDRAW.

(** The loop over the top-level items. *)
Definition DrawTop (ui : Frame) (tops : list Item) (w : Walk) : Walk :=
  fold_left (λ w top, DrawItem ui top w) tops w.

(** The part of [TreeView::Draw] after the walk: the listener, if a new
    selection was recorded and a listener is registered. *)
Definition notify (w : Walk) : option (list Event) :=
  match w_new_selection w with
  | None => Some []
  | Some new_selection =>
      match on_value_changed_ (w_impl w) with
      | None => Some []
      | Some f =>
          it ← deref new_selection (root_ (w_impl w));
          Some [ValueChanged f (text it) (id it)]
      end
  end.

(** [TreeView::Draw]: the view afterwards, the result and the events of
    the pass; [None] stands for reading through a pointer that addresses
    no item.  The listener runs inside [Draw], as its last action but
    for the return: what it does to the view is what the calls it makes
    do, after the pass. *)
Definition Draw (ui : Frame) (impl : Impl)
    : option (Impl * DrawResult * list Event) :=
  let w := DrawTop ui (children (root_ impl)) (mkWalk impl None []) in
  calls ← notify w;
  Some (w_impl w,
        match w_new_selection w with Some _ => REDRAW | None => NONE end,
        w_events w ++ calls).

(** ** The process: the shared counter and the views *)

Record Process : Type := mkProcess {
  g_next_id : ItemId;
  views : list Impl
}.

(** [TreeView::Impl::g_next_id = 0], and no view yet. *)
Definition start : Process := mkProcess 0 [].

(** A call of the public interface; [k] numbers the views in the order
    of their construction. *)
Inductive Call : Type :=
  | CNew
  | CAddItem (k : nat) (parent_id : ItemId) (txt : string)
  | CRemoveItem (k : nat) (item_id : ItemId)
  | CSetSelectedItemId (k : nat) (item_id : ItemId)
  | CSetOnValueChanged (k : nat) (f : option Listener)
  | CDraw (k : nat) (ui : Frame).

(** One call: the process afterwards and the identifier the call
    issued, if it issues one.  [None] when there is no view [k], or when
    the call itself gives [None]; [fuel] is handed to [RemoveItem]. *)
Definition exec (fuel : nat) (w : Process) (c : Call)
    : option (Process * option ItemId) :=
  match c with
  | CNew =>
      let '(impl, g) := TreeView_new (g_next_id w) in
      Some (mkProcess g (views w ++ [impl]), Some (GetRootItem impl))
  | CAddItem k parent_id txt =>
      impl ← views w !! k;
      '(i, impl', g) ← AddItem impl parent_id txt (g_next_id w);
      Some (mkProcess g (<[k := impl']> (views w)), Some i)
  | CRemoveItem k item_id =>
      impl ← views w !! k;
      impl' ← RemoveItem fuel impl item_id;
      Some (mkProcess (g_next_id w) (<[k := impl']> (views w)), None)
  | CSetSelectedItemId k item_id =>
      impl ← views w !! k;
      Some (mkProcess (g_next_id w)
              (<[k := SetSelectedItemId impl item_id]> (views w)), None)
  | CSetOnValueChanged k f =>
      impl ← views w !! k;
      Some (mkProcess (g_next_id w)
              (<[k := SetOnValueChanged impl f]> (views w)), None)
  | CDraw k ui =>
      impl ← views w !! k;
      '(impl', _, _) ← Draw ui impl;
      Some (mkProcess (g_next_id w) (<[k := impl']> (views w)), None)
  end.

(** A sequence of calls: the process afterwards and the identifiers
    issued, in order. *)
Fixpoint run (fuel : nat) (w : Process) (cs : list Call)
    : option (Process * list ItemId) :=
  match cs with
  | [] => Some (w, [])
  | c :: cs =>
      '(w, o) ← exec fuel w c;
      '(w, ids) ← run fuel w cs;
      Some (w, option_list o ++ ids)
  end.

(** The call asks to remove the root of its view. *)
Definition removes_root (w : Process) (c : Call) : Prop :=
  match c with
  | CRemoveItem k item_id =>
      match views w !! k with
      | Some impl => item_id = GetRootItem impl
      | None => False
      end
  | _ => False
  end.

(** The processes a program can be in: those that calls lead to from
    the start.  With [guarded], no call asks to remove a root. *)
Inductive reachable (guarded : bool) : Process → Prop :=
  | reachable_start : reachable guarded start
  | reachable_exec w c fuel w' o :
      reachable guarded w →
      (guarded = true → ¬ removes_root w c) →
      exec fuel w c = Some (w', o) →
      reachable guarded w'.

(** ** Well-formed stores *)

(** The addresses, the identifiers and the lookup entries of the items
    of a subtree, in pre-order. *)
Definition addrs (it : Item) : list positive := addr <$> flatten it.
Definition ids (it : Item) : list Z := id <$> flatten it.
Definition entries (it : Item) : list (Z * positive) :=
  (λ x, (id x, addr x)) <$> flatten it.

(** Every [parent] pointer below [t] addresses the item that owns the
    child. *)
Definition parents_ok (t : Item) : Prop :=
  ∀ x c, x ∈ flatten t → c ∈ children x → parent c = Some (addr x).

(** The tree of a view: no address and no identifier occurs twice, the
    [parent] pointers are right, and the root has none. *)
Record shape (t : Item) : Prop := mkShape {
  shape_addrs : NoDup (addrs t);
  shape_ids : NoDup (ids t);
  shape_parents : parents_ok t;
  shape_top : parent t = None
}.

(** Every entry of the lookup table points to an item of the tree that
    has the identifier of the entry. *)
Definition sound (m : gmap Z positive) (t : Item) : Prop :=
  ∀ i a, m !! i = Some a → (i, a) ∈ entries t.

(** The items of [l] are in the lookup table. *)
Definition registered (m : gmap Z positive) (l : list Item) : Prop :=
  ∀ x, x ∈ l → m !! id x = Some (addr x).

(** A view of a process whose counter is [g]: the lookup table resolves
    every item but, possibly, the root, and every identifier in use was
    issued by the counter. *)
Record wf (g : Z) (impl : Impl) : Prop := mkWf {
  wf_shape : shape (root_ impl);
  wf_root : addr (root_ impl) = root_ptr;
  wf_sound : sound (id2item_ impl) (root_ impl);
  wf_registered :
    ∀ x, x ∈ flatten (root_ impl) → addr x ≠ root_ptr →
         id2item_ impl !! id x = Some (addr x);
  wf_below : ∀ i, i ∈ ids (root_ impl) → 0 ≤ i < g
}.

(** The item [it] with the children [cs]. *)
Definition set_children (it : Item) (cs : list Item) : Item :=
  mkItem (addr it) (id it) (text it) (parent it) cs.

(** The lookup table without the keys of [l]. *)
Definition remove_keys (l : list Z) (m : gmap Z positive) : gmap Z positive :=
  foldr delete m l.

(** ** Insertion and removal, as functions of the tree *)

(** The item [AddItem] attaches the new one to. *)
Definition target (impl : Impl) (parent_id : ItemId) : ptr :=
  match id2item_ impl !! parent_id with
  | Some p => p
  | None => root_ptr
  end.

(** The view [AddItem] leaves. *)
Definition added (impl : Impl) (parent_id : ItemId) (txt : string) (g : ItemId)
    : Impl :=
  let a := fresh_addr (root_ impl) in
  let item := mkItem a g (txt +:+ "##" +:+ pretty g)
                     (Some (target impl parent_id)) [] in
  mkImpl (modify_children (target impl parent_id) (λ cs, cs ++ [item]) (root_ impl))
         (<[ g := a ]> (id2item_ impl))
         (selected_id_ impl) (on_value_changed_ impl).

(** The view after the children of [x] have all been removed: [x] has
    no children, and the lookup table has lost the entries of the items
    that were below [x]. *)
Definition emptied (impl : Impl) (x : Item) : Impl :=
  mkImpl (modify_children (addr x) (λ _, []) (root_ impl))
         (remove_keys (children x ≫= ids) (id2item_ impl))
         (selected_id_ impl) (on_value_changed_ impl).

(** The view after [x] has been removed: the subtree of [x] is gone
    from the children of its parent, and its entries from the lookup
    table.  The root has no parent to be erased from; it stays, without
    children. *)
Definition removed (impl : Impl) (x : Item) : Impl :=
  mkImpl (match parent x with
          | Some q => modify_children q (erase_id (id x)) (root_ impl)
          | None => modify_children (addr x) (λ _, []) (root_ impl)
          end)
         (remove_keys (ids x) (id2item_ impl))
         (selected_id_ impl) (on_value_changed_ impl).

(** [RemoveItem] removes [x], in whatever view [x] is, provided the
    lookup table resolves the items of the subtree of [x]. *)
Definition removes (x : Item) : Prop :=
  ∀ impl,
    shape (root_ impl) → sound (id2item_ impl) (root_ impl) →
    x ∈ flatten (root_ impl) → registered (id2item_ impl) (flatten x) →
    ∃ n, ∀ fuel, (n ≤ fuel)%nat →
      RemoveItem fuel impl (id x) = Some (removed impl x).

(** ** The leaves a pass activates *)

(** The leaves a pass activates below [item], in the order in which the
    pass comes to them: an item is drawn when all the items above it
    are open, and activated when it is clicked and has no children. *)
Fixpoint clicks (ui : Frame) (item : Item) : list Item :=
  match item with
  | mkItem a _ _ _ cs =>
      (if IsItemClicked ui a && is_leaf cs then [item] else [])
      ++ (if node_open ui a then cs ≫= clicks ui else [])
  end.

(** The variables of the walk other than the events. *)
Definition picked (w : Walk) : Impl * option positive :=
  (w_impl w, w_new_selection w).

Definition pick (s : Impl * option positive) (x : Item)
    : Impl * option positive :=
  (SetSelectedItemId s.1 (id x), Some (addr x)).

Definition no_call (e : Event) : Prop :=
  match e with ValueChanged _ _ _ => False | _ => True end.

(** ** Invariants of a process *)

(** Every view of the process is well formed for its counter. *)
Definition inv (w : Process) : Prop :=
  0 ≤ g_next_id w ∧
  ∀ k impl, views w !! k = Some impl → wf (g_next_id w) impl.

(** The calls of [cs], made one after the other from [w], ask for no
    root to be removed. *)
Fixpoint spares_roots (fuel : nat) (w : Process) (cs : list Call) : Prop :=
  match cs with
  | [] => True
  | c :: cs =>
      ¬ removes_root w c ∧
      match exec fuel w c with
      | Some (w', _) => spares_roots fuel w' cs
      | None => True
      end
  end.

(** The view [k] after the calls [cs] on a fresh process. *)
Definition view_after (cs : list Call) (k : nat) : option Impl :=
  '(w, _) ← run 16 start cs; views w !! k.

(** The items of the view with the identifier [i] have the text [L]. *)
Definition labelled (impl : Impl) (i : ItemId) (L : string) : Prop :=
  ∀ x, x ∈ flatten (root_ impl) → id x = i → text x = L.

(** ** What a pass shows *)

(** The items a pass draws below [item], in the order in which it draws
    them: the item, and what is below it when its node is open. *)
Fixpoint drawn (ui : Frame) (item : Item) : list Item :=
  match item with
  | mkItem a _ _ _ cs =>
      item :: (if node_open ui a then cs ≫= drawn ui else [])
  end.

(** The label and the leaf flag a node is submitted with. *)
Definition node_info (x : Item) : string * bool :=
  (text x, is_leaf (children x)).

(** The nodes submitted, the number of [TreePop], the identifiers of the
    selection rectangles and the listener calls among some events. *)
Definition submitted (evs : list Event) : list (string * bool) :=
  omap (λ e, match e with TreeNodeEx l b => Some (l, b) | _ => None end) evs.

Definition pops (evs : list Event) : nat :=
  length (omap (λ e, match e with TreePop => Some () | _ => None end) evs).

Definition rects (evs : list Event) : list Z :=
  omap (λ e, match e with SelectionRect i => Some i | _ => None end) evs.

Definition calls (evs : list Event) : list (nat * string * Z) :=
  omap (λ e, match e with ValueChanged f l i => Some (f, l, i) | _ => None end)
       evs.

(** The nodes a walk submits and the [TreePop] it makes. *)
Definition shows (ui : Frame) (item : Item) : Prop :=
  ∀ w,
    submitted (w_events (DrawItem ui item w))
      = submitted (w_events w) ++ (node_info <$> drawn ui item) ∧
    pops (w_events (DrawItem ui item w))
      = (pops (w_events w)
         + length (filter (λ x, Is_true (node_open ui (addr x)))
                          (drawn ui item)))%nat.

(** No identifier is in use in two views of the process. *)
Definition apart (w : Process) : Prop :=
  ∀ k k' impl impl' i,
    k ≠ k' → views w !! k = Some impl → views w !! k' = Some impl' →
    i ∈ ids (root_ impl) → i ∉ ids (root_ impl').

(** The selected identifier after the walk has been through the item
    [x], when it was [s] before: both branches of [DrawItem] activate a
    clicked item without children. *)
Definition selecting (ui : Frame) (s : ItemId) (x : Item) : ItemId :=
  if IsItemClicked ui (addr x) && is_leaf (children x) then id x else s.

(** The selection rectangles of a walk through the items [l], in the
    order it reaches them, when the selected identifier is [s] as it
    starts: an item gets one when its identifier is the selected one as
    the walk reaches it, before its click is looked at. *)
Fixpoint highlights (ui : Frame) (s : ItemId) (l : list Item) : list Z :=
  match l with
  | [] => []
  | x :: l =>
      (if decide (id x = s) then [id x] else [])
      ++ highlights ui (selecting ui s x) l
  end.

(** ** Tactics *)

Ltac reassoc := repeat (rewrite <- app_assoc; simpl); try done.

Ltac same_view :=
  repeat match goal with
         | H1 : ?l !! ?k = Some ?a, H2 : ?l !! ?k = Some ?b |- _ =>
             rewrite H1 in H2; injection H2 as ?; subst
         end;
  try done.

(** * Properties *)

(** ** Trees *)

Lemma Item_ind' (P : Item → Prop) :
  (∀ a i t par cs, Forall P cs → P (mkItem a i t par cs)) → ∀ it, P it.
Proof.
  intros step. fix IH 1. intros [a i t par cs]. apply step.
  induction cs as [|c cs IHcs]; constructor; [apply IH | exact IHcs].
Qed.

Lemma flatten_unfold it : flatten it = it :: (children it ≫= flatten).
Proof. by destruct it. Qed.

Lemma elem_of_flatten x it :
  x ∈ flatten it ↔ x = it ∨ ∃ c, c ∈ children it ∧ x ∈ flatten c.
Proof.
  rewrite flatten_unfold, elem_of_cons, list_elem_of_bind. split.
  - intros [-> | (c & Hx & Hc)]; [by left | right; by exists c].
  - intros [-> | (c & Hc & Hx)]; [by left | right; by exists c].
Qed.

Lemma flatten_self it : it ∈ flatten it.
Proof. apply elem_of_flatten. by left. Qed.

Lemma flatten_child c it : c ∈ children it → c ∈ flatten it.
Proof. intros. apply elem_of_flatten. right. exists c. split; [done | apply flatten_self]. Qed.

Lemma flatten_trans x y t : x ∈ flatten y → y ∈ flatten t → x ∈ flatten t.
Proof.
  revert y. induction t as [a i tx par cs IH] using Item_ind'. intros y Hx Hy.
  apply elem_of_flatten in Hy as [-> | (c & Hc & Hy)]; [done |].
  apply elem_of_flatten. right. exists c. split; [done |].
  rewrite Forall_forall in IH. eauto.
Qed.

(** An item of a tree is its root or the child of an item of the tree. *)
Lemma flatten_owner x t :
  x ∈ flatten t → x = t ∨ ∃ y, y ∈ flatten t ∧ x ∈ children y.
Proof.
  induction t as [a i tx par cs IH] using Item_ind'. intros Hx.
  apply elem_of_flatten in Hx as [-> | (c & Hc & Hx)]; [by left | right].
  rewrite Forall_forall in IH. destruct (IH c Hc Hx) as [-> | (y & Hy & Hxy)].
  - eexists. split; [apply flatten_self | done].
  - exists y. split; [| done]. eapply flatten_trans; [done |]. by apply flatten_child.
Qed.

Lemma addrs_unfold it : addrs it = addr it :: (children it ≫= addrs).
Proof.
  unfold addrs. rewrite flatten_unfold, fmap_cons. f_equal.
  induction (children it) as [|c cs IH]; [done |].
  rewrite !bind_cons, fmap_app. by f_equal.
Qed.

Lemma entries_unfold it :
  entries it = (id it, addr it) :: (children it ≫= entries).
Proof.
  unfold entries. rewrite flatten_unfold, fmap_cons. f_equal.
  induction (children it) as [|c cs IH]; [done |].
  rewrite !bind_cons, fmap_app. by f_equal.
Qed.

Lemma addrs_entries it : addrs it = (entries it).*2.
Proof. unfold addrs, entries. rewrite <- list_fmap_compose. done. Qed.

Lemma ids_entries it : ids it = (entries it).*1.
Proof. unfold ids, entries. rewrite <- list_fmap_compose. done. Qed.

Lemma elem_of_addrs x t : x ∈ flatten t → addr x ∈ addrs t.
Proof. intros. unfold addrs. apply list_elem_of_fmap. eauto. Qed.

Lemma elem_of_ids x t : x ∈ flatten t → id x ∈ ids t.
Proof. intros. unfold ids. apply list_elem_of_fmap. eauto. Qed.

Lemma elem_of_entries i a t :
  (i, a) ∈ entries t ↔ ∃ x, x ∈ flatten t ∧ id x = i ∧ addr x = a.
Proof.
  unfold entries. rewrite list_elem_of_fmap. split.
  - intros (x & [= -> ->] & Hx). by exists x.
  - intros (x & Hx & <- & <-). by exists x.
Qed.

(** Two items of a list that agree on an injective key are the same. *)
Lemma NoDup_fmap_eq {A B} (f : A → B) (l : list A) x y :
  NoDup (f <$> l) → x ∈ l → y ∈ l → f x = f y → x = y.
Proof.
  induction l as [|z l IH]; intros Hnd Hx Hy Hf; [by apply elem_of_nil in Hx |].
  rewrite fmap_cons in Hnd. apply NoDup_cons in Hnd as [Hz Hnd].
  apply elem_of_cons in Hx as [-> | Hx]; apply elem_of_cons in Hy as [-> | Hy].
  - done.
  - exfalso. apply Hz. rewrite Hf. by apply list_elem_of_fmap_2.
  - exfalso. apply Hz. rewrite <- Hf. by apply list_elem_of_fmap_2.
  - by apply IH.
Qed.

Lemma same_addr x y t :
  NoDup (addrs t) → x ∈ flatten t → y ∈ flatten t → addr x = addr y → x = y.
Proof. apply NoDup_fmap_eq. Qed.

Lemma same_id x y t :
  NoDup (ids t) → x ∈ flatten t → y ∈ flatten t → id x = id y → x = y.
Proof. apply NoDup_fmap_eq. Qed.

Lemma head_filter_NoDup {A B} `{EqDecision B} (f : A → B) (l : list A) x :
  NoDup (f <$> l) → x ∈ l → head (filter (λ y, f y = f x) l) = Some x.
Proof.
  induction l as [|z l IH]; intros Hnd Hx; [by apply elem_of_nil in Hx |].
  rewrite filter_cons. destruct (decide (f z = f x)) as [Hz | Hz].
  - simpl. f_equal. eapply (NoDup_fmap_eq f (z :: l)); [done | left | done | done].
  - rewrite fmap_cons in Hnd. apply NoDup_cons in Hnd as [_ Hnd].
    apply elem_of_cons in Hx as [-> | Hx]; [done | by apply IH].
Qed.

(** Reading through a pointer. *)
Lemma deref_elem x t :
  NoDup (addrs t) → x ∈ flatten t → deref (addr x) t = Some x.
Proof. apply (head_filter_NoDup addr). Qed.

Lemma deref_is_Some p t : p ∈ addrs t → is_Some (deref p t).
Proof.
  intros (x & -> & Hx)%list_elem_of_fmap. unfold deref.
  destruct (filter _ _) as [|y l] eqn:E; [| by eexists].
  assert (x ∈ filter (λ it, addr it = addr x) (flatten t)) as Hin
    by (by apply list_elem_of_filter).
  rewrite E in Hin. by apply elem_of_nil in Hin.
Qed.

(** The parts of the tree of a child have no duplicates either, and
    share no address with the rest. *)
Lemma NoDup_bind_elem {A B} (f : A → list B) l x :
  NoDup (l ≫= f) → x ∈ l → NoDup (f x).
Proof.
  induction l as [|z l IH]; intros Hnd Hx; [by apply elem_of_nil in Hx |].
  rewrite bind_cons in Hnd. apply NoDup_app in Hnd as (Hz & _ & Hl).
  apply elem_of_cons in Hx as [-> | Hx]; auto.
Qed.

Lemma NoDup_bind_split {A B} (f : A → list B) l1 x l2 y :
  NoDup ((l1 ++ x :: l2) ≫= f) → y ∈ f x → (y ∉ (l1 ≫= f)) ∧ (y ∉ (l2 ≫= f)).
Proof.
  rewrite bind_app, bind_cons. intros Hnd Hy.
  apply NoDup_app in Hnd as (_ & H1 & Hnd).
  apply NoDup_app in Hnd as (_ & H2 & _). split.
  - intros Hy1. apply (H1 y Hy1). apply elem_of_app. by left.
  - by apply H2.
Qed.

Lemma NoDup_addrs_children t c :
  NoDup (addrs t) → c ∈ children t → NoDup (addrs c).
Proof.
  rewrite addrs_unfold. intros [_ Hnd]%NoDup_cons Hc.
  by apply (NoDup_bind_elem addrs (children t)).
Qed.

Lemma addr_not_below t c x :
  NoDup (addrs t) → c ∈ children t → x ∈ flatten c → addr x ≠ addr t.
Proof.
  rewrite addrs_unfold. intros [Hn _]%NoDup_cons Hc Hx He. apply Hn.
  apply list_elem_of_bind. exists c. split; [| done]. rewrite <- He.
  by apply elem_of_addrs.
Qed.

(** ** Writing the children of an item *)

Lemma modify_children_unfold p h it :
  modify_children p h it =
    set_children it (if decide (addr it = p) then h (children it)
                     else modify_children p h <$> children it).
Proof. destruct it as [a i t par cs]. simpl. by case_decide. Qed.

Lemma addr_modify p h it : addr (modify_children p h it) = addr it.
Proof. by rewrite modify_children_unfold. Qed.

Lemma id_modify p h it : id (modify_children p h it) = id it.
Proof. by rewrite modify_children_unfold. Qed.

Lemma text_modify p h it : text (modify_children p h it) = text it.
Proof. by rewrite modify_children_unfold. Qed.

Lemma parent_modify p h it : parent (modify_children p h it) = parent it.
Proof. by rewrite modify_children_unfold. Qed.

(** Where no item has the address, or the write changes nothing, the
    tree stays as it is. *)
Lemma modify_children_id p h t :
  (∀ y, y ∈ flatten t → addr y = p → h (children y) = children y) →
  modify_children p h t = t.
Proof.
  induction t as [a i tx par cs IH] using Item_ind'. intros Hh.
  rewrite modify_children_unfold. simpl. case_decide as Ha.
  - pose proof (Hh _ (flatten_self _) Ha) as E. simpl in E. by rewrite E.
  - unfold set_children. simpl. f_equal. rewrite <- (list_fmap_id cs) at 2.
    apply list_fmap_ext. intros k c Hc. simpl.
    apply list_elem_of_lookup_2 in Hc.
    rewrite Forall_forall in IH. apply IH; [done |].
    intros y Hy. apply Hh. eapply flatten_trans; [done |]. by apply flatten_child.
Qed.

Lemma modify_children_notin p h t : p ∉ addrs t → modify_children p h t = t.
Proof.
  intros Hp. apply modify_children_id. intros y Hy <-. destruct Hp.
  by apply elem_of_addrs.
Qed.

Lemma modify_children_twice p f g t :
  modify_children p f (modify_children p g t) = modify_children p (f ∘ g) t.
Proof.
  induction t as [a i tx par cs IH] using Item_ind'.
  rewrite (modify_children_unfold p g), (modify_children_unfold p (f ∘ g)).
  rewrite modify_children_unfold. simpl. unfold set_children. simpl.
  case_decide; [done |]. f_equal. rewrite <- list_fmap_compose.
  apply list_fmap_ext. intros k c Hc. simpl.
  apply list_elem_of_lookup_2 in Hc. rewrite Forall_forall in IH. by apply IH.
Qed.

(** The written item is in the tree afterwards. *)
Lemma modify_children_elem h x t :
  NoDup (addrs t) → x ∈ flatten t →
  set_children x (h (children x)) ∈ flatten (modify_children (addr x) h t).
Proof.
  induction t as [a i tx par cs IH] using Item_ind'. intros Hnd Hx.
  apply elem_of_flatten in Hx as [-> | (c & Hc & Hx)].
  - rewrite modify_children_unfold, decide_True by done. apply flatten_self.
  - set (t := mkItem a i tx par cs) in *.
    rewrite modify_children_unfold, decide_False.
    2:{ intros He. by eapply (addr_not_below t c x). }
    apply elem_of_flatten. right. exists (modify_children (addr x) h c). split.
    + simpl. by apply list_elem_of_fmap_2.
    + rewrite Forall_forall in IH. apply IH; [done | | done].
      by eapply (NoDup_addrs_children t).
Qed.

Lemma fmap_modify_notin p h (k : list Item) :
  p ∉ (k ≫= addrs) → modify_children p h <$> k = k.
Proof.
  intros Hp. rewrite <- (list_fmap_id k) at 2. apply list_fmap_ext.
  intros j c Hc. simpl. apply list_elem_of_lookup_2 in Hc.
  apply modify_children_notin. intros Hin. apply Hp.
  apply list_elem_of_bind. by exists c.
Qed.

(** The lookup entries a tree calls for, before and after a write to
    the children of [x]: only the part of the children changes. *)
Lemma entries_modify x t :
  NoDup (addrs t) → x ∈ flatten t →
  ∃ l1 l2,
    entries t = l1 ++ (id x, addr x) :: (children x ≫= entries) ++ l2 ∧
    ∀ h, entries (modify_children (addr x) h t)
         = l1 ++ (id x, addr x) :: (h (children x) ≫= entries) ++ l2.
Proof.
  induction t as [a i tx par cs IH] using Item_ind'. intros Hnd Hx.
  set (t := mkItem a i tx par cs) in *.
  apply elem_of_flatten in Hx as [-> | (c & Hc & Hx)].
  - exists [], []. split.
    + by rewrite entries_unfold, app_nil_r.
    + intros h. rewrite modify_children_unfold, decide_True by done.
      by rewrite entries_unfold, app_nil_r.
  - destruct (list_elem_of_split _ _ Hc) as (k1 & k2 & Hcs). simpl in Hcs.
    rewrite Forall_forall in IH.
    destruct (IH c Hc (NoDup_addrs_children t c Hnd Hc) Hx)
      as (l1 & l2 & E1 & E2).
    assert ((addr x ∉ (k1 ≫= addrs)) ∧ (addr x ∉ (k2 ≫= addrs))) as [Hk1 Hk2].
    { apply (NoDup_bind_split addrs k1 c k2); [| by apply elem_of_addrs].
      rewrite addrs_unfold in Hnd. apply NoDup_cons in Hnd as [_ Hnd].
      simpl in Hnd. by rewrite <- Hcs. }
    exists ((i, a) :: (k1 ≫= entries) ++ l1), (l2 ++ (k2 ≫= entries)). split.
    + rewrite entries_unfold. simpl. rewrite Hcs, bind_app, bind_cons, E1.
      reassoc.
    + intros h. rewrite modify_children_unfold, decide_False.
      2:{ intros He. by eapply (addr_not_below t c x). }
      rewrite entries_unfold. simpl. rewrite Hcs, fmap_app, fmap_cons.
      rewrite !fmap_modify_notin by done.
      rewrite bind_app, bind_cons, E2. reassoc.
Qed.

(** The items of the tree after a write to the children of the item at
    [p]: the old ones outside that item, the written item, and what is
    below its new children. *)
Lemma flatten_modify p h t y' :
  y' ∈ flatten (modify_children p h t) →
  (∃ y, y ∈ flatten t ∧ addr y ≠ p ∧ y' = modify_children p h y) ∨
  (∃ y, y ∈ flatten t ∧ addr y = p ∧
        (y' = set_children y (h (children y)) ∨
         ∃ c, c ∈ h (children y) ∧ y' ∈ flatten c)).
Proof.
  induction t as [a i tx par cs IH] using Item_ind'.
  set (t := mkItem a i tx par cs) in *.
  rewrite modify_children_unfold. case_decide as Ha.
  - intros Hy. right. exists t. split; [apply flatten_self | split; [done |]].
    apply elem_of_flatten in Hy as [-> | Hy]; [by left | by right].
  - intros Hy. apply elem_of_flatten in Hy as [-> | (c' & Hc' & Hy)].
    + left. exists t. split; [apply flatten_self | split; [done |]].
      by rewrite (modify_children_unfold p h t), decide_False.
    + simpl in Hc'. apply list_elem_of_fmap in Hc' as (c & -> & Hc).
      rewrite Forall_forall in IH.
      assert (∀ y, y ∈ flatten c → y ∈ flatten t) as Hsub.
      { intros y Hyc. eapply flatten_trans; [done | by apply flatten_child]. }
      destruct (IH c Hc Hy) as [(y & Hyc & ? & ?) | (y & Hyc & ? & ?)].
      * left. exists y. auto.
      * right. exists y. auto.
Qed.

Lemma parents_ok_sub t x : parents_ok t → x ∈ flatten t → parents_ok x.
Proof.
  intros Hok Hx y c Hy Hc. apply Hok; [| done]. by eapply flatten_trans.
Qed.

Lemma parents_ok_modify p h t :
  parents_ok t →
  (∀ y c, y ∈ flatten t → addr y = p → c ∈ h (children y) →
          parent c = Some p ∧ parents_ok c) →
  parents_ok (modify_children p h t).
Proof.
  intros Hok Hh y' c' Hy' Hc'.
  apply flatten_modify in Hy' as [(y & Hy & Hp & ->) | (y & Hy & Hp & Hy')].
  - rewrite addr_modify.
    rewrite modify_children_unfold, decide_False in Hc' by done. simpl in Hc'.
    apply list_elem_of_fmap in Hc' as (c & -> & Hc).
    rewrite parent_modify. by apply Hok.
  - destruct Hy' as [-> | (c & Hc & Hy')].
    + simpl in *. destruct (Hh y c' Hy Hp Hc') as [-> _]. by rewrite Hp.
    + destruct (Hh y c Hy Hp Hc) as [_ Hokc]. by apply Hokc.
Qed.

(** ** Erasing a child *)

Lemma erase_id_split c l :
  c ∈ l → (∀ c', c' ∈ l → id c' = id c → c' = c) →
  ∃ k1 k2, l = k1 ++ c :: k2 ∧ erase_id (id c) l = k1 ++ k2.
Proof.
  induction l as [|z l IH]; intros Hc Huniq; [by apply elem_of_nil in Hc |].
  simpl. case_decide as Hz.
  - assert (z = c) as -> by (apply Huniq; [left | done]). by exists [], l.
  - apply elem_of_cons in Hc as [-> | Hc]; [done |].
    destruct (IH Hc) as (k1 & k2 & -> & E).
    { intros c' Hc'. apply Huniq. by right. }
    exists (z :: k1), k2. by rewrite E.
Qed.

Lemma erase_id_subseteq i l c : c ∈ erase_id i l → c ∈ l.
Proof.
  induction l as [|z l IH]; simpl; [done |]. case_decide.
  - by right.
  - intros [-> | Hin]%elem_of_cons; [left | right; auto].
Qed.

Lemma erase_id_app i k1 c k2 :
  (∀ z, z ∈ k1 → id z ≠ i) → id c = i → erase_id i (k1 ++ c :: k2) = k1 ++ k2.
Proof.
  intros Hk1 Hc. induction k1 as [|z k1 IH]; simpl.
  - by rewrite decide_True.
  - rewrite decide_False by (apply Hk1; left). f_equal. apply IH.
    intros z' Hz'. apply Hk1. by right.
Qed.

(** A child is not at the address of the root of the tree. *)
Lemma child_addr_ne_root t y c :
  NoDup (addrs t) → y ∈ flatten t → c ∈ children y → addr c ≠ addr t.
Proof.
  intros Hnd Hy Hc.
  apply elem_of_flatten in Hy as [-> | (c' & Hc' & Hy)].
  - eapply addr_not_below; [done | done | apply flatten_self].
  - eapply addr_not_below; [done | done |].
    eapply flatten_trans; [| done]. by apply flatten_child.
Qed.

Lemma sublist_drop_middle {A} (L1 C L2 : list A) :
  L1 ++ L2 `sublist_of` L1 ++ C ++ L2.
Proof. apply sublist_app; [done |]. by apply sublist_inserts_l. Qed.

(** Erasing the child [c] of [y] takes the lookup entries of the
    subtree of [c] out of those the tree calls for, and leaves a tree
    of the right shape. *)
Lemma erase_child t y c :
  shape t → y ∈ flatten t → c ∈ children y →
  ∃ L1 L2,
    entries t = L1 ++ entries c ++ L2 ∧
    entries (modify_children (addr y) (erase_id (id c)) t) = L1 ++ L2 ∧
    shape (modify_children (addr y) (erase_id (id c)) t).
Proof.
  intros [Hna Hni Hpar Htop] Hy Hc.
  destruct (entries_modify y t Hna Hy) as (l1 & l2 & E1 & E2).
  destruct (erase_id_split c (children y) Hc) as (k1 & k2 & Hk & Herase).
  { intros c' Hc' Hid. apply (same_id c' c t); [done | | | done].
    - eapply flatten_trans; [by apply flatten_child | done].
    - eapply flatten_trans; [by apply flatten_child | done]. }
  exists (l1 ++ (id y, addr y) :: (k1 ≫= entries)), ((k2 ≫= entries) ++ l2).
  assert (entries t = (l1 ++ (id y, addr y) :: k1 ≫= entries)
                      ++ entries c ++ (k2 ≫= entries) ++ l2) as Et.
  { rewrite E1, Hk, bind_app, bind_cons. reassoc. }
  assert (entries (modify_children (addr y) (erase_id (id c)) t)
          = (l1 ++ (id y, addr y) :: k1 ≫= entries) ++ (k2 ≫= entries) ++ l2)
    as Et'.
  { rewrite E2, Herase, bind_app. reassoc. }
  split; [done | split; [done |]]. split.
  - rewrite addrs_entries, Et'. rewrite addrs_entries, Et in Hna.
    eapply sublist_NoDup; [exact Hna | apply fmap_sublist, sublist_drop_middle].
  - rewrite ids_entries, Et'. rewrite ids_entries, Et in Hni.
    eapply sublist_NoDup; [exact Hni | apply fmap_sublist, sublist_drop_middle].
  - apply parents_ok_modify; [done |]. intros y' c' Hy' Ha Hc'.
    apply erase_id_subseteq in Hc'. split.
    + rewrite <- Ha. by apply Hpar.
    + eapply parents_ok_sub; [done |].
      eapply flatten_trans; [by apply flatten_child | done].
  - by rewrite parent_modify.
Qed.

(** Appending a new leaf to the children of [y]. *)
Lemma push_child t y item :
  shape t → y ∈ flatten t →
  children item = [] → parent item = Some (addr y) →
  addr item ∉ addrs t → id item ∉ ids t →
  ∃ L1 L2,
    entries t = L1 ++ L2 ∧
    entries (modify_children (addr y) (λ cs, cs ++ [item]) t)
      = L1 ++ (id item, addr item) :: L2 ∧
    shape (modify_children (addr y) (λ cs, cs ++ [item]) t).
Proof.
  intros [Hna Hni Hpar Htop] Hy Hleaf Hp Ha Hi.
  destruct (entries_modify y t Hna Hy) as (l1 & l2 & E1 & E2).
  exists (l1 ++ (id y, addr y) :: (children y ≫= entries)), l2.
  assert (entries item = [(id item, addr item)]) as Eitem.
  { by rewrite entries_unfold, Hleaf. }
  assert (entries t = (l1 ++ (id y, addr y) :: children y ≫= entries) ++ l2) as Et.
  { rewrite E1. reassoc. }
  assert (entries (modify_children (addr y) (λ cs, cs ++ [item]) t)
          = (l1 ++ (id y, addr y) :: children y ≫= entries)
            ++ (id item, addr item) :: l2) as Et'.
  { rewrite E2, bind_app, bind_singleton, Eitem. reassoc. }
  split; [done | split; [done |]]. split.
  - rewrite addrs_entries, Et', fmap_app, fmap_cons, <- Permutation_middle.
    apply NoDup_cons. rewrite <- fmap_app, <- Et, <- addrs_entries. done.
  - rewrite ids_entries, Et', fmap_app, fmap_cons, <- Permutation_middle.
    apply NoDup_cons. rewrite <- fmap_app, <- Et, <- ids_entries. done.
  - apply parents_ok_modify; [done |]. intros y' c' Hy' Hay Hc'.
    apply elem_of_app in Hc' as [Hc' | ->%list_elem_of_singleton].
    + split; [rewrite <- Hay; by apply Hpar |].
      eapply parents_ok_sub; [done |].
      eapply flatten_trans; [by apply flatten_child | done].
    + split; [done |]. intros x c Hx Hc.
      rewrite flatten_unfold, Hleaf in Hx.
      apply list_elem_of_singleton in Hx as ->. rewrite Hleaf in Hc.
      by apply elem_of_nil in Hc.
  - by rewrite parent_modify.
Qed.

(** Emptying the children of [c] before erasing [c] changes nothing. *)
Lemma erase_cleared_gen p q i t :
  NoDup (addrs t) → addr t ≠ p →
  (∀ u z, u ∈ flatten t → z ∈ children u → addr z = p →
          addr u = q ∧ id z = i ∧ ∀ z', z' ∈ children u → id z' = i → z' = z) →
  modify_children q (erase_id i) (modify_children p (λ _, []) t)
  = modify_children q (erase_id i) t.
Proof.
  induction t as [a j tx par cs IH] using Item_ind'. intros Hnd Hap Hown.
  set (t := mkItem a j tx par cs) in *.
  rewrite (modify_children_unfold p), decide_False by done.
  rewrite modify_children_unfold. rewrite (modify_children_unfold q _ t).
  unfold set_children. simpl. case_decide as Haq; f_equal.
  - destruct (decide (p ∈ cs ≫= addrs)) as [Hin | Hnin];
      [| by rewrite fmap_modify_notin].
    apply list_elem_of_bind in Hin as (c0 & Hp & Hc0).
    apply list_elem_of_fmap in Hp as (z & Hz & Hzc0).
    assert (z = c0) as ->.
    { destruct (flatten_owner z c0 Hzc0) as [-> | (u & Hu & Hzu)]; [done |].
      exfalso. destruct (Hown u z) as (Hu' & _); [| done | done |].
      - eapply flatten_trans; [done |]. by apply (flatten_child c0 t).
      - apply (addr_not_below t c0 u); [done | done | done |]. by rewrite Hu'. }
    destruct (Hown t c0 (flatten_self _) Hc0 (eq_sym Hz)) as (_ & Hid & Huniq).
    destruct (list_elem_of_split _ _ Hc0) as (k1 & k2 & Hcs).
    assert ((p ∉ (k1 ≫= addrs)) ∧ (p ∉ (k2 ≫= addrs))) as [Hk1 Hk2].
    { apply (NoDup_bind_split addrs k1 c0 k2).
      - rewrite addrs_unfold in Hnd. apply NoDup_cons in Hnd as [_ Hnd].
        simpl in Hnd. by rewrite <- Hcs.
      - rewrite Hz. apply elem_of_addrs, flatten_self. }
    assert (∀ z, z ∈ k1 → id z ≠ i) as Hk1i.
    { intros z Hzk Hzi. apply Hk1. apply list_elem_of_bind. exists z.
      split; [| done]. assert (z = c0) as ->.
      { apply Huniq; [| done]. simpl. rewrite Hcs. apply elem_of_app. by left. }
      rewrite Hz. apply elem_of_addrs, flatten_self. }
    rewrite Hcs, fmap_app, fmap_cons, !fmap_modify_notin by done.
    rewrite !erase_id_app; try done. by rewrite id_modify.
  - rewrite <- list_fmap_compose. apply list_fmap_ext. intros k c Hc. simpl.
    apply list_elem_of_lookup_2 in Hc. rewrite Forall_forall in IH.
    apply IH; [done | by apply (NoDup_addrs_children t) | |].
    + intros Hcp. by destruct (Hown t c (flatten_self _) Hc Hcp) as (? & _).
    + intros u z Hu. apply Hown. eapply flatten_trans; [done |].
      by apply (flatten_child c t).
Qed.

Lemma erase_cleared t y c :
  shape t → y ∈ flatten t → c ∈ children y →
  modify_children (addr y) (erase_id (id c))
    (modify_children (addr c) (λ _, []) t)
  = modify_children (addr y) (erase_id (id c)) t.
Proof.
  intros [Hna Hni Hpar Htop] Hy Hc.
  assert (c ∈ flatten t) as Hct.
  { eapply flatten_trans; [by apply flatten_child | done]. }
  apply erase_cleared_gen; [done | |].
  - intros He. by apply (child_addr_ne_root t y c).
  - intros u z Hu Hz Hzc.
    assert (z ∈ flatten t) as Hzt.
    { eapply flatten_trans; [by apply flatten_child | done]. }
    assert (z = c) as -> by by apply (same_addr z c t).
    split; [| split; [done |]].
    + pose proof (Hpar u c Hu Hz) as P1. pose proof (Hpar y c Hy Hc) as P2.
      congruence.
    + intros z' Hz' Hid. apply (same_id z' c t); try done.
      eapply flatten_trans; [by apply flatten_child | done].
Qed.

Lemma NoDup_addrs_sub t x : NoDup (addrs t) → x ∈ flatten t → NoDup (addrs x).
Proof.
  induction t as [a i tx par cs IH] using Item_ind'. intros Hnd Hx.
  apply elem_of_flatten in Hx as [-> | (c & Hc & Hx)]; [done |].
  rewrite Forall_forall in IH. apply (IH c); [done | | done].
  by apply (NoDup_addrs_children (mkItem a i tx par cs)).
Qed.

(** No item is below itself. *)
Lemma not_below_self t x z :
  NoDup (addrs t) → x ∈ flatten t → z ∈ children x ≫= flatten → addr z ≠ addr x.
Proof.
  intros Hnd Hx (c & Hz & Hc)%list_elem_of_bind.
  eapply addr_not_below; [by eapply NoDup_addrs_sub | done | done].
Qed.

Lemma clear_children_shape t x :
  shape t → x ∈ flatten t → shape (modify_children (addr x) (λ _, []) t).
Proof.
  intros [Hna Hni Hpar Htop] Hx.
  destruct (entries_modify x t Hna Hx) as (l1 & l2 & E1 & E2).
  specialize (E2 (λ _, [])). simpl in E2.
  assert (entries (modify_children (addr x) (λ _, []) t)
          `sublist_of` entries t) as Hsub.
  { rewrite E1, E2. apply sublist_app; [done |]. apply sublist_skip.
    by apply sublist_inserts_l. }
  split.
  - rewrite addrs_entries. rewrite addrs_entries in Hna.
    eapply sublist_NoDup; [exact Hna | by apply fmap_sublist].
  - rewrite ids_entries. rewrite ids_entries in Hni.
    eapply sublist_NoDup; [exact Hni | by apply fmap_sublist].
  - apply parents_ok_modify; [done |]. intros y c _ _ Hc.
    by apply elem_of_nil in Hc.
  - by rewrite parent_modify.
Qed.

(** The owner of [x] is still there when the children of [x] are gone. *)
Lemma clear_children_owner t y x :
  shape t → y ∈ flatten t → x ∈ children y →
  addr y ∈ addrs (modify_children (addr x) (λ _, []) t).
Proof.
  intros [Hna Hni Hpar Htop] Hy Hx.
  assert (x ∈ flatten t) as Hxt.
  { eapply flatten_trans; [by apply flatten_child | done]. }
  destruct (entries_modify x t Hna Hxt) as (l1 & l2 & E1 & E2).
  specialize (E2 (λ _, [])). simpl in E2.
  assert ((id y, addr y) ∈ entries t) as Hin.
  { apply elem_of_entries. by exists y. }
  rewrite addrs_entries, E2. rewrite E1 in Hin.
  apply (list_elem_of_fmap_2' snd _ (id y, addr y)); [| done].
  rewrite elem_of_app, elem_of_cons, elem_of_app in Hin.
  rewrite elem_of_app, elem_of_cons.
  destruct Hin as [? | [? | [Hbelow | ?]]]; [by left | by right; left | | by right; right].
  exfalso. apply list_elem_of_bind in Hbelow as (c & Hyc & Hc).
  apply elem_of_entries in Hyc as (y' & Hy' & _ & Ha).
  assert (y' = y) as ->.
  { apply (same_addr y' y t); [done | | done | done].
    eapply flatten_trans; [done |]. eapply flatten_trans; [by apply flatten_child | done]. }
  apply (addr_not_below x c x); [by eapply NoDup_addrs_sub | done | | done].
  eapply flatten_trans; [by apply flatten_child | done].
Qed.

(** ** The lookup table *)

Lemma lookup_remove_keys l (m : gmap Z positive) i :
  remove_keys l m !! i = if decide (i ∈ l) then None else m !! i.
Proof.
  induction l as [|j l IH]; simpl.
  - done.
  - rewrite lookup_delete, IH. destruct (decide (j = i)) as [-> | Hne].
    + rewrite decide_True; [done | left].
    + destruct (decide (i ∈ l)) as [Hin | Hnin].
      * rewrite decide_True; [done | by right].
      * rewrite decide_False; [done |]. intros [-> | ?]%elem_of_cons; done.
Qed.

Lemma remove_keys_twice l1 l2 (m : gmap Z positive) :
  remove_keys l2 (remove_keys l1 m) = remove_keys (l1 ++ l2) m.
Proof.
  apply map_eq. intros i. rewrite !lookup_remove_keys.
  destruct (decide (i ∈ l2)) as [H2 | H2].
  - rewrite decide_True; [done | apply elem_of_app; by right].
  - destruct (decide (i ∈ l1)) as [H1 | H1].
    + rewrite decide_True; [done | apply elem_of_app; by left].
    + rewrite decide_False; [done |]. by intros [? | ?]%elem_of_app.
Qed.

Lemma ids_unfold it : ids it = id it :: (children it ≫= ids).
Proof.
  unfold ids. rewrite flatten_unfold, fmap_cons. f_equal.
  induction (children it) as [|c cs IH]; [done |].
  rewrite !bind_cons, fmap_app. by f_equal.
Qed.

(** An entry outside an erased part is keyed outside that part. *)
Lemma key_not_dropped (L1 C L2 : list (Z * positive)) i a :
  NoDup (L1 ++ C ++ L2).*1 → (i, a) ∈ L1 ++ L2 → i ∉ C.*1.
Proof.
  rewrite (Permutation_app_swap_app L1 C L2), fmap_app.
  intros (_ & Hdis & _)%NoDup_app Hin HC. apply (Hdis i HC).
  by apply (list_elem_of_fmap_2' fst _ (i, a)).
Qed.

Lemma sound_drop m t t' (L1 C L2 : list (Z * positive)) :
  sound m t → entries t = L1 ++ C ++ L2 → entries t' = L1 ++ L2 →
  sound (remove_keys C.*1 m) t'.
Proof.
  intros Hs Et Et' i a. rewrite lookup_remove_keys. case_decide as HC; [done |].
  intros Hm. apply Hs in Hm. rewrite Et in Hm. rewrite Et'.
  rewrite !elem_of_app in Hm. rewrite elem_of_app.
  destruct Hm as [? | [Hin | ?]]; [by left | | by right].
  destruct HC. by apply (list_elem_of_fmap_2' fst _ (i, a)).
Qed.

(** ** Removal *)

(** More fuel does not change a result. *)
Lemma fuel_step fuel :
  (∀ impl i r, RemoveItem fuel impl i = Some r →
               RemoveItem (S fuel) impl i = Some r) ∧
  (∀ impl p r, RemoveChildren fuel impl p = Some r →
               RemoveChildren (S fuel) impl p = Some r).
Proof.
  induction fuel as [|fuel [IH1 IH2]]; [done |]. split.
  - intros impl i r H. simpl in H. change (RemoveItem (S (S fuel)) impl i) with
      (match id2item_ impl !! i with
       | None => Some impl
       | Some item =>
           impl' ← RemoveChildren (S fuel)
                     (set_id2item impl (delete i (id2item_ impl))) item;
           unlink impl' item i
       end).
    destruct (id2item_ impl !! i) as [item|]; [| done].
    destruct (RemoveChildren fuel _ item) as [impl'|] eqn:E; [| done].
    apply IH2 in E. by rewrite E.
  - intros impl p r H. simpl in H. change (RemoveChildren (S (S fuel)) impl p) with
      (it ← deref p (root_ impl);
       match children it with
       | [] => Some impl
       | front :: _ =>
           impl' ← RemoveItem (S fuel) impl (id front);
           RemoveChildren (S fuel) impl' p
       end).
    destruct (deref p (root_ impl)) as [it|]; [| done]. simpl in *.
    destruct (children it) as [|front rest]; [done |].
    destruct (RemoveItem fuel impl (id front)) as [impl'|] eqn:E; [| done].
    apply IH1 in E. rewrite E. simpl in *. by apply IH2.
Qed.

Lemma RemoveItem_fuel_mono fuel fuel' impl i r :
  (fuel ≤ fuel')%nat → RemoveItem fuel impl i = Some r →
  RemoveItem fuel' impl i = Some r.
Proof.
  induction 1 as [|fuel' _ IH]; [done |]. intros H.
  by apply (fuel_step fuel'), IH.
Qed.

Lemma RemoveChildren_spec kids :
  Forall removes kids →
  ∀ impl x,
    children x = kids →
    shape (root_ impl) → sound (id2item_ impl) (root_ impl) →
    x ∈ flatten (root_ impl) → registered (id2item_ impl) (kids ≫= flatten) →
    ∃ n, ∀ fuel, (n ≤ fuel)%nat →
      RemoveChildren fuel impl (addr x) = Some (emptied impl x).
Proof.
  induction kids as [|c rest IH]; intros Hall impl x Hkids Hsh Hso Hx Hreg.
  - exists 1%nat. intros [|fuel] Hf; [lia |]. simpl.
    rewrite deref_elem by (done || apply Hsh). simpl. rewrite Hkids.
    f_equal. unfold emptied. rewrite Hkids. simpl.
    rewrite modify_children_id; [by destruct impl |].
    intros y Hy Ha. assert (y = x) as ->; [| done].
    apply (same_addr y x (root_ impl)); [apply Hsh | done | done | done].
  - apply Forall_cons in Hall as [Hc Hrest].
    assert (c ∈ children x) as Hcx by (rewrite Hkids; left).
    assert (c ∈ flatten (root_ impl)) as Hct.
    { eapply flatten_trans; [by apply flatten_child | done]. }
    destruct (Hc impl Hsh Hso Hct) as [n1 H1].
    { intros z Hz. apply Hreg. rewrite bind_cons. apply elem_of_app. by left. }
    assert (parent c = Some (addr x)) as Hpar by by apply Hsh.
    unfold removed in H1. rewrite Hpar in H1.
    destruct (erase_child (root_ impl) x c Hsh Hx Hcx) as (L1 & L2 & Et & Et' & Hsh').
    set (impl1 := mkImpl (modify_children (addr x) (erase_id (id c)) (root_ impl))
                         (remove_keys (ids c) (id2item_ impl))
                         (selected_id_ impl) (on_value_changed_ impl)) in *.
    assert (set_children x rest ∈ flatten (root_ impl1)) as Hx1.
    { pose proof (modify_children_elem (erase_id (id c)) x (root_ impl)
                    (shape_addrs _ Hsh) Hx) as Hin.
      rewrite Hkids in Hin. simpl in Hin. by rewrite decide_True in Hin. }
    destruct (IH Hrest impl1 (set_children x rest) eq_refl Hsh') as [n2 H2].
    + simpl. rewrite ids_entries. by eapply sound_drop.
    + done.
    + intros z Hz. simpl. rewrite lookup_remove_keys, decide_False.
      * apply Hreg. rewrite bind_cons. apply elem_of_app. by right.
      * rewrite ids_entries. apply (key_not_dropped L1 _ L2 _ (addr z)).
        { rewrite <- Et, <- ids_entries. apply Hsh. }
        rewrite <- Et'. apply elem_of_entries. exists z. split; [| done].
        eapply flatten_trans; [| exact Hx1].
        rewrite flatten_unfold. by right.
    + exists (S (max n1 n2)). intros [|fuel] Hf; [lia |]. simpl.
      rewrite deref_elem by (done || apply Hsh). simpl. rewrite Hkids.
      rewrite H1 by lia. simpl.
      change (addr x) with (addr (set_children x rest)) at 1.
      rewrite H2 by lia. f_equal. unfold emptied. simpl.
      rewrite modify_children_twice, remove_keys_twice, Hkids, bind_cons. done.
Qed.

Lemma RemoveItem_spec x : removes x.
Proof.
  induction x as [a i tx par cs IH] using Item_ind'.
  set (x := mkItem a i tx par cs) in *. intros impl Hsh Hso Hx Hreg.
  assert (id2item_ impl !! i = Some a) as Hm by apply (Hreg x), flatten_self.
  destruct (RemoveChildren_spec cs IH
              (set_id2item impl (delete i (id2item_ impl))) x eq_refl Hsh)
    as [n Hn].
  { intros j b. simpl. rewrite lookup_delete. case_decide; [done | apply Hso]. }
  { done. }
  { intros z Hz. simpl. rewrite lookup_delete_ne.
    - apply Hreg. rewrite flatten_unfold. by right.
    - intros E. assert (x = z) as <-.
      { apply (same_id x z (root_ impl)); [apply Hsh | done | | done].
        eapply flatten_trans; [| exact Hx]. rewrite flatten_unfold. by right. }
      by apply (not_below_self (root_ impl) x x (shape_addrs _ Hsh) Hx Hz). }
  exists (S n). intros [|fuel] Hf; [lia |].
  change (RemoveItem (S fuel) impl (id x)) with
    (match id2item_ impl !! i with
     | None => Some impl
     | Some item =>
         impl' ← RemoveChildren fuel
                   (set_id2item impl (delete i (id2item_ impl))) item;
         unlink impl' item i
     end).
  rewrite Hm. change a with (addr x). rewrite Hn by lia. simpl.
  pose proof (clear_children_shape _ _ Hsh Hx) as Hsh'.
  pose proof (modify_children_elem (λ _, []) x (root_ impl)
                (shape_addrs _ Hsh) Hx) as Hx'.
  unfold unlink.
  assert (deref a (root_ (emptied (set_id2item impl (delete i (id2item_ impl))) x))
          = Some (set_children x [])) as Hd
    by exact (deref_elem _ _ (shape_addrs _ Hsh') Hx').
  rewrite Hd. simpl.
  assert (remove_keys (cs ≫= ids) (delete i (id2item_ impl))
          = remove_keys (ids x) (id2item_ impl)) as Em.
  { change (delete i (id2item_ impl)) with (remove_keys [i] (id2item_ impl)).
    by rewrite remove_keys_twice, ids_unfold. }
  destruct par as [q|]; simpl.
  - destruct (flatten_owner x _ Hx) as [E | (y & Hy & Hxy)].
    { pose proof (shape_top _ Hsh) as Htop. by rewrite <- E in Htop. }
    assert (q = addr y) as ->.
    { pose proof (shape_parents _ Hsh y x Hy Hxy) as P. simpl in P. congruence. }
    destruct (deref_is_Some (addr y) _ (clear_children_owner _ y x Hsh Hy Hxy))
      as [y' Hy'].
    change (addr x) with a in Hy'. rewrite Hy'. simpl. f_equal.
    unfold set_root, removed, emptied. simpl. f_equal; [| exact Em].
    by apply (erase_cleared (root_ impl) y x).
  - f_equal. unfold removed, emptied. simpl. f_equal. exact Em.
Qed.

(** ** Well-formed views *)

Lemma fresh_addr_fresh t : fresh_addr t ∉ addrs t.
Proof.
  unfold fresh_addr, addrs. generalize (addr <$> flatten t). intros l Hin.
  assert (∀ p, p ∈ l → (p ≤ foldr Pos.max 1 l)%positive) as Hmax.
  { clear Hin. induction l as [|q l IH]; intros p Hp; [by apply elem_of_nil in Hp |].
    simpl. apply elem_of_cons in Hp as [-> | Hp]; [lia |].
    specialize (IH p Hp). lia. }
  specialize (Hmax _ Hin). lia.
Qed.

Lemma wf_resolve g impl i p :
  wf g impl → id2item_ impl !! i = Some p →
  ∃ x, x ∈ flatten (root_ impl) ∧ id x = i ∧ addr x = p ∧
       deref p (root_ impl) = Some x.
Proof.
  intros Hwf Hm. apply (wf_sound _ _ Hwf) in Hm.
  apply elem_of_entries in Hm as (x & Hx & Hi & Ha). exists x.
  split; [done | split; [done | split; [done |]]]. rewrite <- Ha.
  apply deref_elem; [apply Hwf | done].
Qed.

Lemma wf_not_root g impl x :
  wf g impl → x ∈ flatten (root_ impl) → x ≠ root_ impl → addr x ≠ root_ptr.
Proof.
  intros Hwf Hx Hne. rewrite <- (wf_root _ _ Hwf).
  destruct (flatten_owner _ _ Hx) as [-> | (y & Hy & Hxy)]; [done |].
  eapply child_addr_ne_root; [apply Hwf | done | done].
Qed.

Lemma wf_counter g impl : wf g impl → 0 < g.
Proof.
  intros Hwf. pose proof (wf_below _ _ Hwf (id (root_ impl))) as H.
  specialize (H (elem_of_ids _ _ (flatten_self _))). lia.
Qed.

Lemma wf_mono g g' impl : wf g impl → g ≤ g' → wf g' impl.
Proof.
  intros [Hsh Hr Hso Hreg Hb] Hle. split; try done.
  intros i Hi. specialize (Hb i Hi). lia.
Qed.

Lemma wf_new g : 0 ≤ g → wf (g + 1) (TreeView_new g).1.
Proof.
  intros Hg. split; simpl.
  - split; simpl.
    + apply NoDup_singleton.
    + apply NoDup_singleton.
    + intros x c Hx Hc. apply list_elem_of_singleton in Hx as ->.
      by apply elem_of_nil in Hc.
    + done.
  - done.
  - intros i a Hm. apply lookup_singleton_Some in Hm as [<- <-].
    by apply list_elem_of_singleton.
  - intros x Hx Ha. by apply list_elem_of_singleton in Hx as ->.
  - intros i Hi. apply list_elem_of_singleton in Hi as ->. simpl. lia.
Qed.

Lemma target_item g impl parent_id :
  wf g impl →
  ∃ y, y ∈ flatten (root_ impl) ∧ addr y = target impl parent_id ∧
       deref (target impl parent_id) (root_ impl) = Some y.
Proof.
  intros Hwf. unfold target.
  destruct (id2item_ impl !! parent_id) as [p|] eqn:Hm.
  - destruct (wf_resolve _ _ _ _ Hwf Hm) as (y & ? & ? & ? & ?). by exists y.
  - exists (root_ impl). rewrite <- (wf_root _ _ Hwf).
    split; [apply flatten_self | split; [done |]].
    apply deref_elem; [apply Hwf | apply flatten_self].
Qed.

Lemma AddItem_wf_eq g impl parent_id txt :
  wf g impl →
  AddItem impl parent_id txt g = Some (g, added impl parent_id txt g, g + 1).
Proof.
  intros Hwf. destruct (target_item g impl parent_id Hwf) as (y & _ & _ & Hd).
  unfold AddItem. fold (target impl parent_id). by rewrite Hd.
Qed.

Lemma added_wf g impl parent_id txt :
  wf g impl → wf (g + 1) (added impl parent_id txt g).
Proof.
  intros Hwf. destruct (target_item g impl parent_id Hwf) as (y & Hy & Hay & _).
  set (a := fresh_addr (root_ impl)).
  set (item := mkItem a g (txt +:+ "##" +:+ pretty g)
                      (Some (target impl parent_id)) []).
  destruct (push_child (root_ impl) y item) as (L1 & L2 & Et & Et' & Hsh');
    [apply Hwf | done | done | by rewrite Hay | apply fresh_addr_fresh | |].
  { intros Hin. apply (wf_below _ _ Hwf) in Hin. simpl in Hin. lia. }
  rewrite Hay in Et', Hsh'. simpl in Et'.
  split; simpl; fold a; fold item.
  - done.
  - rewrite addr_modify. apply Hwf.
  - intros i b. rewrite lookup_insert. case_decide as Hi.
    + intros [= <-]. subst i. rewrite Et'. apply elem_of_app. right. left.
    + intros Hm. apply (wf_sound _ _ Hwf) in Hm. rewrite Et in Hm. rewrite Et'.
      apply elem_of_app in Hm as [? | ?]; apply elem_of_app;
        [by left | right; by right].
  - intros z Hz Hne.
    assert ((id z, addr z) ∈ entries
              (modify_children (target impl parent_id) (λ cs, cs ++ [item])
                 (root_ impl))) as Hin
      by (apply elem_of_entries; by exists z).
    rewrite Et' in Hin.
    assert ((id z, addr z) = (g, a) ∨ (id z, addr z) ∈ entries (root_ impl))
      as [[= -> ->] | Hold].
    { rewrite Et. rewrite elem_of_app, elem_of_cons in Hin.
      rewrite elem_of_app. tauto. }
    + apply lookup_insert_eq.
    + apply elem_of_entries in Hold as (z0 & Hz0 & Hi0 & Ha0).
      rewrite lookup_insert_ne.
      * rewrite <- Hi0, <- Ha0. apply (wf_registered _ _ Hwf); [done | congruence].
      * intros ->. pose proof (wf_below _ _ Hwf _ (elem_of_ids _ _ Hz0)). lia.
  - intros i Hi. rewrite ids_entries, Et' in Hi.
    pose proof (wf_counter _ _ Hwf).
    rewrite fmap_app, fmap_cons, elem_of_app, elem_of_cons in Hi. simpl in Hi.
    assert (i = g ∨ i ∈ ids (root_ impl)) as [-> | Hold].
    { rewrite ids_entries, Et, fmap_app, elem_of_app. tauto. }
    + lia.
    + apply (wf_below _ _ Hwf) in Hold. lia.
Qed.

Lemma below_not_root t x z :
  NoDup (addrs t) → x ∈ flatten t → z ∈ children x ≫= flatten → addr z ≠ addr t.
Proof.
  intros Hnd Hx (c & Hz & Hc)%list_elem_of_bind.
  apply elem_of_flatten in Hx as [-> | (c' & Hc' & Hx)].
  - by apply (addr_not_below t c z).
  - apply (addr_not_below t c' z); [done | done |].
    eapply flatten_trans; [done |].
    eapply flatten_trans; [by apply flatten_child | done].
Qed.

(** The root is below no other item. *)
Lemma root_not_below t x : NoDup (addrs t) → x ∈ flatten t → t ∈ flatten x → x = t.
Proof.
  intros Hnd Hx Ht.
  apply elem_of_flatten in Hx as [-> | (c & Hc & Hx)]; [done |].
  exfalso. apply (addr_not_below t c t); [done | done | | done].
  by eapply flatten_trans.
Qed.

Lemma RemoveItem_absent fuel impl i :
  id2item_ impl !! i = None → RemoveItem (S fuel) impl i = Some impl.
Proof. intros Hm. simpl. by rewrite Hm. Qed.

Lemma RemoveItem_wf_eq g impl i p :
  wf g impl → id2item_ impl !! i = Some p →
  ∃ x, x ∈ flatten (root_ impl) ∧ id x = i ∧ addr x = p ∧
       ∃ n, ∀ fuel, (n ≤ fuel)%nat →
         RemoveItem fuel impl i = Some (removed impl x).
Proof.
  intros Hwf Hm. destruct (wf_resolve _ _ _ _ Hwf Hm) as (x & Hx & Hi & Ha & _).
  exists x. split; [done | split; [done | split; [done |]]]. rewrite <- Hi.
  apply RemoveItem_spec; [apply Hwf | apply Hwf | done |].
  intros z Hz. rewrite flatten_unfold in Hz.
  apply elem_of_cons in Hz as [-> | Hz]; [by rewrite Hi, Ha |].
  apply (wf_registered _ _ Hwf).
  - eapply flatten_trans; [| exact Hx]. rewrite flatten_unfold. by right.
  - rewrite <- (wf_root _ _ Hwf). eapply below_not_root; [apply Hwf | done | done].
Qed.

Lemma removed_wf g impl x :
  wf g impl → x ∈ flatten (root_ impl) → wf g (removed impl x).
Proof.
  intros Hwf Hx. pose proof (wf_shape _ _ Hwf) as Hsh. unfold removed.
  destruct (parent x) as [q|] eqn:Hpar.
  - destruct (flatten_owner _ _ Hx) as [E | (y & Hy & Hxy)].
    { rewrite E, (shape_top _ Hsh) in Hpar. done. }
    assert (q = addr y) as ->.
    { pose proof (shape_parents _ Hsh y x Hy Hxy). congruence. }
    destruct (erase_child _ y x Hsh Hy Hxy) as (L1 & L2 & Et & Et' & Hsh').
    assert (∀ i a, (i, a) ∈ L1 ++ L2 → (i, a) ∈ entries (root_ impl)) as Hsub.
    { intros i a. rewrite Et, !elem_of_app. tauto. }
    split; simpl.
    + done.
    + rewrite addr_modify. apply Hwf.
    + rewrite ids_entries. eapply sound_drop; [apply Hwf | done | done].
    + intros z Hz Hne.
      assert ((id z, addr z) ∈ L1 ++ L2) as Hin.
      { rewrite <- Et'. apply elem_of_entries. by exists z. }
      rewrite lookup_remove_keys, decide_False.
      * apply Hsub, elem_of_entries in Hin as (z0 & Hz0 & Hi0 & Ha0).
        rewrite <- Hi0, <- Ha0. apply (wf_registered _ _ Hwf); [done | congruence].
      * rewrite ids_entries. apply (key_not_dropped L1 _ L2 _ (addr z)); [| done].
        rewrite <- Et, <- ids_entries. apply Hsh.
    + intros i Hi. apply (wf_below _ _ Hwf).
      rewrite ids_entries, Et' in Hi. rewrite ids_entries.
      apply list_elem_of_fmap in Hi as ([i' a] & -> & Hin).
      apply (list_elem_of_fmap_2' fst _ (i', a)); [by apply Hsub | done].
  - assert (x = root_ impl) as ->.
    { destruct (flatten_owner _ _ Hx) as [E | (y & Hy & Hxy)]; [done |].
      pose proof (shape_parents _ Hsh y x Hy Hxy). congruence. }
    assert (modify_children (addr (root_ impl)) (λ _, []) (root_ impl)
            = set_children (root_ impl) []) as Er.
    { by rewrite modify_children_unfold, decide_True. }
    split; simpl.
    + by apply clear_children_shape.
    + rewrite addr_modify. apply Hwf.
    + intros i a. rewrite lookup_remove_keys. case_decide as Hin; [done |].
      intros Hm. apply (wf_sound _ _ Hwf) in Hm. destruct Hin.
      rewrite ids_entries. by apply (list_elem_of_fmap_2' fst _ (i, a)).
    + intros z. rewrite Er. intros Hz Hne. apply list_elem_of_singleton in Hz as ->.
      destruct Hne. apply Hwf.
    + intros i. rewrite Er. intros Hi. apply list_elem_of_singleton in Hi as ->.
      apply (wf_below _ _ Hwf). simpl. apply elem_of_ids, flatten_self.
Qed.

(** What a successful [RemoveItem] has done. *)
Lemma RemoveItem_result g fuel impl i impl' :
  wf g impl → RemoveItem fuel impl i = Some impl' →
  (id2item_ impl !! i = None ∧ impl' = impl) ∨
  (∃ x, x ∈ flatten (root_ impl) ∧ id x = i ∧
        id2item_ impl !! i = Some (addr x) ∧ impl' = removed impl x).
Proof.
  intros Hwf Hrun. destruct (id2item_ impl !! i) as [p|] eqn:Hm.
  - right. destruct (RemoveItem_wf_eq _ _ _ _ Hwf Hm) as (x & Hx & Hi & Ha & n & Hn).
    exists x. split; [done | split; [done | split; [by rewrite Ha |]]].
    apply (RemoveItem_fuel_mono fuel (max fuel n)) in Hrun; [| lia].
    rewrite Hn in Hrun by lia. congruence.
  - left. split; [done |]. destruct fuel; [done |].
    rewrite RemoveItem_absent in Hrun by done. congruence.
Qed.

Lemma RemoveItem_wf g fuel impl i impl' :
  wf g impl → RemoveItem fuel impl i = Some impl' → wf g impl'.
Proof.
  intros Hwf Hrun.
  destruct (RemoveItem_result _ _ _ _ _ Hwf Hrun)
    as [[_ ->] | (x & Hx & _ & _ & ->)]; [done | by apply removed_wf].
Qed.

Lemma RemoveItem_total g impl i :
  wf g impl → ∃ n impl', ∀ fuel, (n ≤ fuel)%nat →
    RemoveItem fuel impl i = Some impl'.
Proof.
  intros Hwf. destruct (id2item_ impl !! i) as [p|] eqn:Hm.
  - destruct (RemoveItem_wf_eq _ _ _ _ Hwf Hm) as (x & _ & _ & _ & n & Hn).
    by exists n, (removed impl x).
  - exists 1%nat, impl. intros [|fuel] Hf; [lia |]. by apply RemoveItem_absent.
Qed.

(** The entry of the root survives the removal of another item. *)
Lemma removed_keeps_root g impl x :
  wf g impl → x ∈ flatten (root_ impl) → x ≠ root_ impl →
  id2item_ (removed impl x) !! id (root_ (removed impl x))
  = id2item_ impl !! id (root_ impl).
Proof.
  intros Hwf Hx Hne. pose proof (wf_shape _ _ Hwf) as Hsh.
  assert (id (root_ (removed impl x)) = id (root_ impl)) as ->.
  { unfold removed. simpl. destruct (parent x); apply id_modify. }
  simpl. rewrite lookup_remove_keys, decide_False; [done |].
  intros (z & Hid & Hz)%list_elem_of_fmap. destruct Hne.
  assert (z = root_ impl) as ->.
  { apply (same_id z (root_ impl) (root_ impl)); [apply Hsh | | apply flatten_self | done].
    by eapply flatten_trans. }
  apply root_not_below; [apply Hsh | done | done].
Qed.

(** ** Drawing *)

Section walk.

Context (ui : Frame).

Lemma clicks_unfold item :
  clicks ui item =
    (if IsItemClicked ui (addr item) && is_leaf (children item)
     then [item] else [])
    ++ (if node_open ui (addr item) then children item ≫= clicks ui else []).
Proof. by destruct item. Qed.

Lemma clicks_flatten item x : x ∈ clicks ui item → x ∈ flatten item.
Proof.
  induction item as [a i t par cs IH] using Item_ind'.
  rewrite clicks_unfold, elem_of_app. intros [Hx | Hx]; simpl in Hx.
  - destruct (_ && _); [| by apply elem_of_nil in Hx].
    apply list_elem_of_singleton in Hx as ->. apply flatten_self.
  - destruct (node_open ui a); [| by apply elem_of_nil in Hx].
    apply list_elem_of_bind in Hx as (c & Hx & Hc).
    apply elem_of_flatten. right. exists c. split; [done |].
    rewrite Forall_forall in IH. by apply IH.
Qed.

Lemma clicks_leaf item x :
  x ∈ clicks ui item → children x = [] ∧ IsItemClicked ui (addr x) = true.
Proof.
  induction item as [a i t par cs IH] using Item_ind'.
  rewrite clicks_unfold, elem_of_app. simpl. intros [Hx | Hx].
  - destruct (IsItemClicked ui a) eqn:Hclick; [| by apply elem_of_nil in Hx].
    destruct cs; [| by apply elem_of_nil in Hx].
    by apply list_elem_of_singleton in Hx as ->.
  - destruct (node_open ui a); [| by apply elem_of_nil in Hx].
    apply list_elem_of_bind in Hx as (c & Hx & Hc).
    rewrite Forall_forall in IH. by apply (IH c).
Qed.

(** What a walk leaves in its variables, and that it calls no
    listener. *)
Lemma fold_DrawItem cs :
  Forall (λ item, ∀ w,
    picked (DrawItem ui item w) = foldl pick (picked w) (clicks ui item) ∧
    ∃ l, w_events (DrawItem ui item w) = w_events w ++ l ∧ Forall no_call l) cs →
  ∀ w,
    picked (fold_left (λ w c, DrawItem ui c w) cs w)
      = foldl pick (picked w) (cs ≫= clicks ui) ∧
    ∃ l, w_events (fold_left (λ w c, DrawItem ui c w) cs w) = w_events w ++ l ∧
         Forall no_call l.
Proof.
  induction 1 as [|c cs Hc _ IH]; intros w; simpl.
  - split; [done |]. exists []. by rewrite app_nil_r.
  - destruct (Hc w) as (Ep & l1 & El1 & Hl1).
    destruct (IH (DrawItem ui c w)) as (Ep' & l2 & El2 & Hl2). split.
    + by rewrite Ep', Ep, foldl_app.
    + exists (l1 ++ l2). rewrite El2, El1, app_assoc. split; [done |].
      by apply Forall_app.
Qed.

Lemma DrawItem_spec item w :
  picked (DrawItem ui item w) = foldl pick (picked w) (clicks ui item) ∧
  ∃ l, w_events (DrawItem ui item w) = w_events w ++ l ∧ Forall no_call l.
Proof.
  revert w. induction item as [a i t par cs IH] using Item_ind'. intros w.
  pose proof (fold_DrawItem cs IH) as IHcs. clear IH. simpl.
  set (w1 := if decide (i = selected_id_ (w_impl w))
             then emit (SelectionRect i) w else w).
  assert (picked w1 = picked w ∧
          ∃ l, w_events w1 = w_events w ++ l ∧ Forall no_call l)
    as (Ep1 & l1 & El1 & Hl1).
  { unfold w1. case_decide.
    - split; [done |]. exists [SelectionRect i]. split; [done |].
      by apply Forall_singleton.
    - split; [done |]. exists []. by rewrite app_nil_r. }
  set (w2 := emit (TreeNodeEx t (is_leaf cs)) w1).
  assert (picked w2 = picked w ∧
          ∃ l, w_events w2 = w_events w ++ l ∧ Forall no_call l)
    as (Ep2 & l2 & El2 & Hl2).
  { split; [done |]. exists (l1 ++ [TreeNodeEx t (is_leaf cs)]).
    unfold w2. simpl. rewrite El1, app_assoc. split; [done |].
    apply Forall_app. split; [done | by apply Forall_singleton]. }
  set (w3 := if IsItemClicked ui a && is_leaf cs then activate a i w2 else w2).
  assert (picked w3 = foldl pick (picked w)
            (if IsItemClicked ui a && is_leaf cs
             then [mkItem a i t par cs] else []) ∧
          w_events w3 = w_events w2) as (Ep3 & El3).
  { unfold w3. destruct (_ && _); [| done]. simpl. unfold picked in *. simpl.
    unfold pick. simpl. split; [| done]. injection Ep2 as -> _. done. }
  destruct (node_open ui a).
  - destruct (IHcs w3) as (Ep4 & l4 & El4 & Hl4). split.
    + unfold picked in *. simpl. rewrite foldl_app. congruence.
    + exists (l2 ++ l4 ++ [TreePop]). simpl.
      rewrite El4, El3, El2, <- !app_assoc. split; [done |].
      apply Forall_app. split; [done |]. apply Forall_app. split; [done |].
      by apply Forall_singleton.
  - split.
    + by rewrite app_nil_r.
    + exists l2. by rewrite El3.
Qed.

Lemma DrawTop_spec tops w :
  picked (DrawTop ui tops w) = foldl pick (picked w) (tops ≫= clicks ui) ∧
  ∃ l, w_events (DrawTop ui tops w) = w_events w ++ l ∧ Forall no_call l.
Proof.
  apply fold_DrawItem. apply Forall_forall. intros item _ w'.
  apply DrawItem_spec.
Qed.

(** The variables after a sequence of activations: those of the last
    one. *)
Lemma foldl_pick s l :
  foldl pick s l =
    match last l with
    | Some x => (SetSelectedItemId s.1 (id x), Some (addr x))
    | None => s
    end.
Proof.
  revert s. induction l as [|x l IH]; intros s; [done |].
  simpl. rewrite IH. destruct l as [|y l]; [done |].
  change (last (x :: y :: l)) with (last (y :: l)).
  destruct (last (y :: l)) eqn:E; [done |].
  by apply last_None in E.
Qed.

(** The result of a pass, in terms of the leaves it activates. *)
Lemma Draw_eq impl :
  NoDup (addrs (root_ impl)) →
  ∃ walk,
    w_events (DrawTop ui (children (root_ impl)) (mkWalk impl None [])) = walk ∧
    Forall no_call walk ∧
    Draw ui impl =
      match last (children (root_ impl) ≫= clicks ui) with
      | None => Some (impl, NONE, walk)
      | Some x =>
          Some (SetSelectedItemId impl (id x), REDRAW,
                walk ++ match on_value_changed_ impl with
                        | Some f => [ValueChanged f (text x) (id x)]
                        | None => []
                        end)
      end.
Proof.
  intros Hnd.
  destruct (DrawTop_spec (children (root_ impl)) (mkWalk impl None []))
    as (Ep & walk & Ew & Hwalk).
  simpl in Ew. exists walk. split; [done | split; [done |]].
  rewrite foldl_pick in Ep. unfold Draw, notify.
  set (w := DrawTop ui (children (root_ impl)) (mkWalk impl None [])) in *.
  destruct (last _) as [x|] eqn:Hlast; unfold picked in Ep; simpl in Ep;
    injection Ep as Ei En; rewrite En, Ei, Ew.
  - simpl. destruct (on_value_changed_ impl) as [f|]; simpl.
    + rewrite deref_elem; [done | done |].
      apply last_Some_elem_of, list_elem_of_bind in Hlast as (top & Hx & Htop).
      apply clicks_flatten in Hx.
      eapply flatten_trans; [done | by apply flatten_child].
    + by rewrite app_nil_r.
  - simpl. by rewrite app_nil_r.
Qed.

(** Events that are no call are no call of the listener. *)
Lemma calls_quiet walk : Forall no_call walk → calls walk = [].
Proof.
  induction 1 as [|e walk He _ IH]; [done |].
  by destruct e; unfold calls in *; simpl.
Qed.

Lemma Draw_store impl impl' r evs :
  Draw ui impl = Some (impl', r, evs) →
  root_ impl' = root_ impl ∧ id2item_ impl' = id2item_ impl ∧
  on_value_changed_ impl' = on_value_changed_ impl.
Proof.
  unfold Draw. intros H.
  destruct (DrawTop_spec (children (root_ impl)) (mkWalk impl None []))
    as (Ep & _).
  rewrite foldl_pick in Ep. unfold picked in Ep. simpl in Ep.
  destruct (notify _) as [calls|]; [| done]. simpl in H.
  injection H as <- _ _. by destruct (last _); injection Ep as -> _.
Qed.

End walk.

(** ** Processes *)

Lemma wf_same_store g impl impl' :
  root_ impl' = root_ impl → id2item_ impl' = id2item_ impl →
  wf g impl → wf g impl'.
Proof. intros Er Em [? ? ? ? ?]. split; by rewrite ?Er, ?Em. Qed.

Lemma inv_update w k impl impl' g' :
  inv w → views w !! k = Some impl → g_next_id w ≤ g' → wf g' impl' →
  inv (mkProcess g' (<[k := impl']> (views w))).
Proof.
  intros [Hg Hv] Hk Hle Hwf. split; simpl; [lia |]. intros j impl0 Hj.
  apply list_lookup_insert_Some in Hj as [(-> & <- & _) | (_ & Hj)]; [done |].
  eapply wf_mono; [by eapply Hv | done].
Qed.

Lemma exec_inv fuel w c w' o : inv w → exec fuel w c = Some (w', o) → inv w'.
Proof.
  intros Hinv Hexec. pose proof Hinv as [Hg Hv].
  destruct c as [|k pid txt|k i|k i|k f|k ui]; simpl in Hexec.
  - injection Hexec as <- _. split; simpl; [lia |]. intros j impl Hj.
    apply lookup_app_Some in Hj as [Hj | [_ Hj]].
    + eapply wf_mono; [by eapply Hv | lia].
    + apply list_lookup_singleton_Some in Hj as [_ <-]. by apply (wf_new (g_next_id w)).
  - destruct (views w !! k) as [impl|] eqn:Hk; [| done]. simpl in Hexec.
    rewrite (AddItem_wf_eq _ _ _ _ (Hv _ _ Hk)) in Hexec. simpl in Hexec.
    injection Hexec as <- _. eapply inv_update; [done | done | lia |].
    apply added_wf. by eapply Hv.
  - destruct (views w !! k) as [impl|] eqn:Hk; [| done]. simpl in Hexec.
    destruct (RemoveItem fuel impl i) as [impl'|] eqn:Hrem; [| done].
    injection Hexec as <- _. eapply inv_update; [done | done | lia |].
    eapply RemoveItem_wf; [by eapply Hv | done].
  - destruct (views w !! k) as [impl|] eqn:Hk; [| done].
    injection Hexec as <- _. eapply inv_update; [done | done | lia |].
    eapply (wf_same_store _ impl); [done | done | by eapply Hv].
  - destruct (views w !! k) as [impl|] eqn:Hk; [| done].
    injection Hexec as <- _. eapply inv_update; [done | done | lia |].
    eapply (wf_same_store _ impl); [done | done | by eapply Hv].
  - destruct (views w !! k) as [impl|] eqn:Hk; [| done]. simpl in Hexec.
    destruct (Draw ui impl) as [[[impl' r] evs]|] eqn:Hdraw; [| done].
    injection Hexec as <- _. eapply inv_update; [done | done | lia |].
    destruct (Draw_store _ _ _ _ _ Hdraw) as (Er & Em & _).
    eapply (wf_same_store _ impl); [done | done | by eapply Hv].
Qed.

Lemma reachable_inv guarded w : reachable guarded w → inv w.
Proof.
  induction 1 as [|w c fuel w' o _ IH _ Hexec].
  - split; [done |]. intros k impl Hk. simpl in Hk. by rewrite lookup_nil in Hk.
  - by eapply exec_inv.
Qed.

Lemma reachable_wf guarded w k impl :
  reachable guarded w → views w !! k = Some impl → wf (g_next_id w) impl.
Proof. intros Hr Hk. by apply (proj2 (reachable_inv _ _ Hr) k). Qed.

Lemma run_reachable fuel cs w w' out :
  reachable false w → run fuel w cs = Some (w', out) → reachable false w'.
Proof.
  revert w out. induction cs as [|c cs IH]; intros w out Hr Hrun; simpl in Hrun.
  - by injection Hrun as <- _.
  - destruct (exec fuel w c) as [[w1 o]|] eqn:Hexec; [| done]. simpl in Hrun.
    destruct (run fuel w1 cs) as [[w2 out2]|] eqn:Hrun2; [| done].
    injection Hrun as <- _. eapply IH; [| done].
    by eapply (reachable_exec false w c fuel w1 o).
Qed.

(** The roots keep their entries as long as no call removes a root. *)
Lemma reachable_root_entry w k impl :
  reachable true w → views w !! k = Some impl →
  id2item_ impl !! id (root_ impl) = Some root_ptr.
Proof.
  intros Hr. revert k impl.
  induction Hr as [|w c fuel w' o Hr IH Hguard Hexec]; intros j impl' Hj.
  { simpl in Hj. by rewrite lookup_nil in Hj. }
  specialize (Hguard eq_refl). pose proof (reachable_inv _ _ Hr) as [Hg Hv].
  destruct c as [|k pid txt|k i|k i|k f|k ui]; simpl in Hexec.
  - injection Hexec as <- _. simpl in Hj.
    apply lookup_app_Some in Hj as [Hj | [_ Hj]]; [by eapply IH |].
    apply list_lookup_singleton_Some in Hj as [_ <-]. simpl.
    apply lookup_singleton_eq.
  - destruct (views w !! k) as [impl|] eqn:Hk; [| done]. simpl in Hexec.
    rewrite (AddItem_wf_eq _ _ _ _ (Hv _ _ Hk)) in Hexec. simpl in Hexec.
    injection Hexec as <- _. simpl in Hj.
    apply list_lookup_insert_Some in Hj as [(-> & <- & _) | (_ & Hj)];
      [| by eapply IH].
    simpl. rewrite id_modify, lookup_insert_ne; [by eapply IH |].
    pose proof (wf_below _ _ (Hv _ _ Hk) _
                  (elem_of_ids _ _ (flatten_self (root_ impl)))). lia.
  - destruct (views w !! k) as [impl|] eqn:Hk; [| done]. simpl in Hexec.
    destruct (RemoveItem fuel impl i) as [impl1|] eqn:Hrem; [| done].
    injection Hexec as <- _. simpl in Hj.
    apply list_lookup_insert_Some in Hj as [(-> & <- & _) | (_ & Hj)];
      [| by eapply IH].
    simpl in Hguard. rewrite Hk in Hguard.
    destruct (RemoveItem_result _ _ _ _ _ (Hv _ _ Hk) Hrem)
      as [[_ ->] | (x & Hx & Hi & _ & ->)]; [by eapply IH |].
    rewrite (removed_keeps_root _ _ _ (Hv _ _ Hk) Hx); [by eapply IH |].
    intros ->. by destruct Hguard.
  - destruct (views w !! k) as [impl|] eqn:Hk; [| done].
    injection Hexec as <- _. simpl in Hj.
    apply list_lookup_insert_Some in Hj as [(-> & <- & _) | (_ & Hj)];
      simpl; by eapply IH.
  - destruct (views w !! k) as [impl|] eqn:Hk; [| done].
    injection Hexec as <- _. simpl in Hj.
    apply list_lookup_insert_Some in Hj as [(-> & <- & _) | (_ & Hj)];
      simpl; by eapply IH.
  - destruct (views w !! k) as [impl|] eqn:Hk; [| done]. simpl in Hexec.
    destruct (Draw ui impl) as [[[impl1 r] evs]|] eqn:Hdraw; [| done].
    injection Hexec as <- _. simpl in Hj.
    apply list_lookup_insert_Some in Hj as [(-> & <- & _) | (_ & Hj)];
      [| by eapply IH].
    destruct (Draw_store _ _ _ _ _ Hdraw) as (-> & -> & _). by eapply IH.
Qed.

(** * The properties of the specification *)

(** ** Identifiers *)

Lemma exec_counter fuel w c w' o :
  exec fuel w c = Some (w', o) →
  (o = Some (g_next_id w) ∧ g_next_id w' = g_next_id w + 1) ∨
  (o = None ∧ g_next_id w' = g_next_id w).
Proof.
  intros Hexec. destruct c as [|k pid txt|k i|k i|k f|k ui]; simpl in Hexec.
  - injection Hexec as <- <-. by left.
  - destruct (views w !! k) as [impl|]; [| done]. simpl in Hexec.
    unfold AddItem in Hexec. destruct (deref _ _); [| done]. simpl in Hexec.
    injection Hexec as <- <-. by left.
  - destruct (views w !! k) as [impl|]; [| done]. simpl in Hexec.
    destruct (RemoveItem _ _ _); [| done]. injection Hexec as <- <-. by right.
  - destruct (views w !! k) as [impl|]; [| done].
    injection Hexec as <- <-. by right.
  - destruct (views w !! k) as [impl|]; [| done].
    injection Hexec as <- <-. by right.
  - destruct (views w !! k) as [impl|]; [| done]. simpl in Hexec.
    destruct (Draw _ _) as [[[? ?] ?]|]; [| done].
    injection Hexec as <- <-. by right.
Qed.

(** C4.  The identifiers issued by a sequence of calls, on any number
    of views, with removals in between, are the successive values of
    the shared counter: they are pairwise distinct (the identifiers of
    the roots included), each one is larger than all those issued
    before, and so none is issued twice. *)
Theorem issued_ids_distinct fuel w cs w' out :
  run fuel w cs = Some (w', out) →
  out = seqZ (g_next_id w) (Z.of_nat (length out)) ∧
  NoDup out ∧
  g_next_id w' = g_next_id w + Z.of_nat (length out).
Proof.
  intros Hrun.
  assert (out = seqZ (g_next_id w) (Z.of_nat (length out)) ∧
          g_next_id w' = g_next_id w + Z.of_nat (length out)) as [E Hg].
  { revert w out Hrun. induction cs as [|c cs IH]; intros w out Hrun;
      simpl in Hrun.
    - injection Hrun as <- <-. simpl. split; [done | lia].
    - destruct (exec fuel w c) as [[w1 o]|] eqn:Hexec; [| done]. simpl in Hrun.
      destruct (run fuel w1 cs) as [[w2 out2]|] eqn:Hrun2; [| done].
      injection Hrun as <- <-. destruct (IH _ _ Hrun2) as [E2 Hg2].
      destruct (exec_counter _ _ _ _ _ Hexec) as [[-> Hg1] | [-> Hg1]]; simpl.
      + rewrite Hg1 in E2, Hg2. split; [| lia].
        rewrite seqZ_cons by lia. f_equal.
        replace (Z.pred (Z.of_nat (S (length out2)))) with (Z.of_nat (length out2)) by lia.
        exact E2.
      + rewrite Hg1 in E2, Hg2. done. }
  split; [done | split; [| done]]. rewrite E. apply NoDup_seqZ.
Qed.

Lemma issued_ids_distinct_witness :
  ∃ w' out,
    run 16 start [CNew; CAddItem 0 0 "A"; CNew; CAddItem 1 2 "B";
                  CRemoveItem 0 1; CAddItem 0 0 "C"] = Some (w', out) ∧
    out = [0; 1; 2; 3; 4] ∧ NoDup out.
Proof.
  eexists _, _. split; [vm_compute; reflexivity |]. split; [reflexivity |].
  eapply (issued_ids_distinct 16 start
            [CNew; CAddItem 0 0 "A"; CNew; CAddItem 1 2 "B";
             CRemoveItem 0 1; CAddItem 0 0 "C"]).
  vm_compute. reflexivity.
Defined.

(** ** Selection *)

(** C6, as stated: after [SetSelectedItemId(id)], [GetSelectedItemId()]
    returns [id], whatever [id] is.  It does not for a negative one. *)
Lemma selected_verbatim_counterexample :
  ¬ (∀ impl i, GetSelectedItemId (SetSelectedItemId impl i) = i).
Proof.
  intros H. specialize (H (TreeView_new 0).1 (-5)). vm_compute in H. done.
Qed.

(** C6, amended.  After [SetSelectedItemId(id)], [GetSelectedItemId()]
    returns [id] when [id] is not negative and the identifier of the
    root when it is; on a view just constructed it returns the
    identifier of the root. *)
Theorem selected_after_set impl i g :
  GetSelectedItemId (SetSelectedItemId impl i)
    = (if decide (i < 0) then GetRootItem impl else i) ∧
  GetSelectedItemId (TreeView_new g).1 = GetRootItem (TreeView_new g).1.
Proof. split; [done |]. unfold GetSelectedItemId. simpl. done. Qed.

(** ** Children *)

Lemma GetItemChildren_root g impl :
  wf g impl → GetItemChildren impl (GetRootItem impl) = Some [].
Proof.
  intros Hwf. unfold GetItemChildren, GetRootItem.
  destruct (id2item_ impl !! id (root_ impl)) as [p|] eqn:Hm; [| done].
  destruct (wf_resolve _ _ _ _ Hwf Hm) as (x & Hx & Hi & _ & ->). simpl.
  assert (x = root_ impl) as ->.
  { apply (same_id x (root_ impl) (root_ impl));
      [apply Hwf | done | apply flatten_self | done]. }
  by rewrite (shape_top _ (wf_shape _ _ Hwf)).
Qed.

(** C10.  In every state of a view, [GetItemChildren(GetRootItem())] is
    the empty sequence, whether the root has children or not. *)
Theorem root_has_no_siblings w k impl :
  reachable false w → views w !! k = Some impl →
  GetItemChildren impl (GetRootItem impl) = Some [].
Proof.
  intros Hr Hk. eapply GetItemChildren_root. by eapply reachable_wf.
Qed.

Lemma root_has_no_siblings_witness :
  ∃ impl,
    view_after [CNew; CAddItem 0 0 "A"; CAddItem 0 1 "B"] 0 = Some impl ∧
    id <$> children (root_ impl) = [1] ∧
    GetItemChildren impl (GetRootItem impl) = Some [].
Proof.
  eexists. split; [vm_compute; reflexivity |]. split; [reflexivity |].
  eapply (root_has_no_siblings _ 0).
  - eapply (run_reachable 16 [CNew; CAddItem 0 0 "A"; CAddItem 0 1 "B"]);
      [apply reachable_start | vm_compute; reflexivity].
  - reflexivity.
Defined.

(** C2, as stated: for every identifier that resolves to a live item,
    the result is the sequence of the identifiers of the children of
    the parent of that item, the item among them.  The root is live and
    has no parent. *)
Lemma siblings_of_every_live_item_counterexample :
  ¬ (∀ w k impl i p,
       reachable false w → views w !! k = Some impl →
       id2item_ impl !! i = Some p →
       ∃ x y, deref p (root_ impl) = Some x ∧
              y ∈ flatten (root_ impl) ∧ parent x = Some (addr y) ∧
              GetItemChildren impl i = Some (id <$> children y) ∧
              i ∈ id <$> children y).
Proof.
  intros H.
  destruct (H (mkProcess 1 [(TreeView_new 0).1]) 0%nat (TreeView_new 0).1 0 root_ptr)
    as (x & y & Hx & _ & Hpar & _).
  - eapply (run_reachable 1 [CNew]); [apply reachable_start | reflexivity].
  - reflexivity.
  - reflexivity.
  - vm_compute in Hx. injection Hx as <-. done.
Qed.

(** C2, amended.  For an identifier that resolves to a live item other
    than the root, [GetItemChildren] returns the identifiers of the
    children of the parent of that item, in the order of the parent's
    list, the identifier itself among them; an item just inserted comes
    last in that sequence, after its siblings in their former order.
    For the identifier of the root and for an identifier that does not
    resolve it returns the empty sequence. *)
Theorem GetItemChildren_siblings w k impl :
  reachable false w → views w !! k = Some impl →
  (∀ i p, id2item_ impl !! i = Some p → i ≠ GetRootItem impl →
     ∃ x y, deref p (root_ impl) = Some x ∧ id x = i ∧
            y ∈ flatten (root_ impl) ∧ parent x = Some (addr y) ∧
            x ∈ children y ∧
            GetItemChildren impl i = Some (id <$> children y) ∧
            i ∈ id <$> children y) ∧
  (∀ parent_id txt,
     ∃ y impl',
       deref (target impl parent_id) (root_ impl) = Some y ∧
       AddItem impl parent_id txt (g_next_id w)
         = Some (g_next_id w, impl', g_next_id w + 1) ∧
       GetItemChildren impl' (g_next_id w)
         = Some ((id <$> children y) ++ [g_next_id w])) ∧
  GetItemChildren impl (GetRootItem impl) = Some [] ∧
  (∀ i, id2item_ impl !! i = None → GetItemChildren impl i = Some []).
Proof.
  intros Hr Hk. pose proof (reachable_wf _ _ _ _ Hr Hk) as Hwf.
  pose proof (wf_shape _ _ Hwf) as Hsh.
  split; [| split; [| split]].
  - intros i p Hm Hne.
    destruct (wf_resolve _ _ _ _ Hwf Hm) as (x & Hx & Hi & Ha & Hd).
    destruct (flatten_owner _ _ Hx) as [-> | (y & Hy & Hxy)]; [done |].
    pose proof (shape_parents _ Hsh y x Hy Hxy) as Hpar.
    exists x, y. split; [done | split; [done | split; [done | split; [done |]]]].
    split; [done |]. split.
    + unfold GetItemChildren. rewrite Hm, Hd. simpl. rewrite Hpar.
      by rewrite (deref_elem _ _ (shape_addrs _ Hsh) Hy).
    + rewrite <- Hi. by apply list_elem_of_fmap_2.
  - intros pid txt.
    destruct (target_item _ _ pid Hwf) as (y & Hy & Hay & Hd).
    exists y, (added impl pid txt (g_next_id w)).
    split; [done | split; [by apply AddItem_wf_eq |]].
    pose proof (added_wf _ _ pid txt Hwf) as Hwf'.
    pose proof (shape_addrs _ (wf_shape _ _ Hwf')) as Hnd'.
    set (item := mkItem (fresh_addr (root_ impl)) (g_next_id w)
                        (txt +:+ "##" +:+ pretty (g_next_id w))
                        (Some (target impl pid)) []).
    pose proof (modify_children_elem (λ cs, cs ++ [item]) y (root_ impl)
                  (shape_addrs _ Hsh) Hy) as Hy'.
    rewrite Hay in Hy'.
    change (modify_children _ _ _) with (root_ (added impl pid txt (g_next_id w)))
      in Hy'.
    assert (item ∈ flatten (root_ (added impl pid txt (g_next_id w)))) as Hitem.
    { eapply flatten_trans; [| exact Hy']. apply flatten_child. simpl.
      apply elem_of_app. right. left. }
    assert (deref (target impl pid) (root_ (added impl pid txt (g_next_id w)))
            = Some (set_children y (children y ++ [item]))) as Hdy.
    { rewrite <- Hay. exact (deref_elem _ _ Hnd' Hy'). }
    pose proof (deref_elem _ _ Hnd' Hitem) as Hdi.
    assert (id2item_ (added impl pid txt (g_next_id w)) !! g_next_id w
            = Some (addr item)) as Hm by apply lookup_insert_eq.
    unfold GetItemChildren. rewrite Hm, Hdi.
    cbn [mbind option_bind]. change (parent item) with (Some (target impl pid)).
    cbv iota. rewrite Hdy. simpl. by rewrite fmap_app.
  - by eapply GetItemChildren_root.
  - intros i Hm. unfold GetItemChildren. by rewrite Hm.
Qed.

Lemma GetItemChildren_siblings_witness :
  ∃ impl,
    view_after [CNew; CAddItem 0 0 "A"; CAddItem 0 1 "B"; CAddItem 0 1 "C"] 0
      = Some impl ∧
    (∃ l, GetItemChildren impl 2 = Some l ∧ 2 ∈ l) ∧
    GetItemChildren impl 7 = Some [].
Proof.
  eexists. split; [vm_compute; reflexivity |].
  eassert (reachable false _) as Hr.
  { eapply (run_reachable 16
              [CNew; CAddItem 0 0 "A"; CAddItem 0 1 "B"; CAddItem 0 1 "C"]);
      [apply reachable_start | vm_compute; reflexivity]. }
  destruct (GetItemChildren_siblings _ 0 _ Hr eq_refl) as (Hsib & _ & _ & Hno).
  split.
  - destruct (Hsib 2 3%positive eq_refl) as (x & y & _ & _ & _ & _ & _ & E & Hin);
      [done | by eexists].
  - by apply Hno.
Defined.

(** ** Insertion *)

(** C7.  With a [parent_id] that does not resolve, [AddItem] succeeds:
    the new item becomes the last child of the root, the lookup table
    resolves its identifier to it, and the identifier returned is the
    value of the counter, which no item has and the table does not
    hold. *)
Theorem AddItem_unresolved_parent w k impl parent_id txt :
  reachable false w → views w !! k = Some impl →
  id2item_ impl !! parent_id = None →
  ∃ item impl',
    AddItem impl parent_id txt (g_next_id w)
      = Some (g_next_id w, impl', g_next_id w + 1) ∧
    id item = g_next_id w ∧ parent item = Some root_ptr ∧ children item = [] ∧
    root_ impl' = set_children (root_ impl) (children (root_ impl) ++ [item]) ∧
    id2item_ impl' !! g_next_id w = Some (addr item) ∧
    deref (addr item) (root_ impl') = Some item ∧
    (g_next_id w ∉ ids (root_ impl)) ∧
    id2item_ impl !! g_next_id w = None.
Proof.
  intros Hr Hk Hm. pose proof (reachable_wf _ _ _ _ Hr Hk) as Hwf.
  pose proof (added_wf _ _ parent_id txt Hwf) as Hwf'.
  assert (target impl parent_id = root_ptr) as Ht by (unfold target; by rewrite Hm).
  set (item := mkItem (fresh_addr (root_ impl)) (g_next_id w)
                      (txt +:+ "##" +:+ pretty (g_next_id w)) (Some root_ptr) []).
  assert (root_ (added impl parent_id txt (g_next_id w))
          = set_children (root_ impl) (children (root_ impl) ++ [item])) as Er.
  { unfold added. simpl. rewrite Ht, modify_children_unfold, decide_True; [done |].
    apply Hwf. }
  assert (g_next_id w ∉ ids (root_ impl)) as Hfresh.
  { intros Hin. apply (wf_below _ _ Hwf) in Hin. lia. }
  exists item, (added impl parent_id txt (g_next_id w)).
  split; [by apply AddItem_wf_eq |].
  split; [done | split; [done | split; [done | split; [done |]]]].
  split; [apply lookup_insert_eq |]. split; [| split; [done |]].
  - apply deref_elem; [apply Hwf' |]. rewrite Er. apply flatten_child. simpl.
    apply elem_of_app. right. left.
  - destruct (id2item_ impl !! g_next_id w) as [p|] eqn:Hg; [| done].
    destruct Hfresh. apply (wf_sound _ _ Hwf) in Hg. rewrite ids_entries.
    by apply (list_elem_of_fmap_2' fst _ (g_next_id w, p)).
Qed.

Lemma AddItem_unresolved_parent_witness :
  ∃ impl,
    view_after [CNew; CAddItem 0 0 "A"] 0 = Some impl ∧
    ∃ impl',
      AddItem impl 999 "X" 2 = Some (2, impl', 3) ∧
      id <$> children (root_ impl') = [1; 2].
Proof.
  eexists. split; [vm_compute; reflexivity |].
  eassert (reachable false _) as Hr.
  { eapply (run_reachable 16 [CNew; CAddItem 0 0 "A"]);
      [apply reachable_start | vm_compute; reflexivity]. }
  destruct (AddItem_unresolved_parent _ 0 _ 999 "X" Hr eq_refl eq_refl)
    as (item & impl' & E & Hid & _ & _ & Er & _).
  exists impl'. split; [exact E |]. rewrite Er. simpl. by rewrite Hid.
Defined.

(** ** Removal *)

Lemma size_remove_keys l (m : gmap Z positive) :
  NoDup l → (∀ i, i ∈ l → is_Some (m !! i)) →
  size m = (size (remove_keys l m) + length l)%nat.
Proof.
  induction l as [|i l IH]; intros Hnd Hin; simpl; [lia |].
  apply NoDup_cons in Hnd as [Hi Hnd].
  rewrite IH; [| done | intros j Hj; apply Hin; by right].
  assert (is_Some (remove_keys l m !! i)) as [p Hp].
  { rewrite lookup_remove_keys, decide_False by done. apply Hin. left. }
  rewrite <- (insert_id (remove_keys l m) i p Hp) at 1.
  rewrite <- insert_delete_eq, map_size_insert_None by apply lookup_delete_eq.
  lia.
Qed.

Lemma wf_registered_sub g impl x :
  wf g impl → x ∈ flatten (root_ impl) →
  id2item_ impl !! id x = Some (addr x) →
  registered (id2item_ impl) (flatten x).
Proof.
  intros Hwf Hx Hm z Hz. rewrite flatten_unfold in Hz.
  apply elem_of_cons in Hz as [-> | Hz]; [done |].
  apply (wf_registered _ _ Hwf).
  - eapply flatten_trans; [| exact Hx]. rewrite flatten_unfold. by right.
  - rewrite <- (wf_root _ _ Hwf). eapply below_not_root; [apply Hwf | done | done].
Qed.

(** C3.  [RemoveItem] on the identifier of a live item other than the
    root, which has [N] items below it, returns; it takes [N+1] entries
    out of the lookup table, those of the item and of the items below
    it and no other, and the parent's list of children is left without
    the item.  The entry of the item is erased first, then the children
    are removed by [RemoveChildren], which calls [RemoveItem] for the
    first child as long as there is one, and then the item is unlinked.
    On an identifier that does not resolve, [RemoveItem] changes
    nothing. *)
Theorem RemoveItem_removes_subtree w k impl :
  reachable false w → views w !! k = Some impl →
  (∀ i p, id2item_ impl !! i = Some p → i ≠ GetRootItem impl →
     ∃ x y,
       x ∈ flatten (root_ impl) ∧ id x = i ∧ addr x = p ∧
       y ∈ flatten (root_ impl) ∧ x ∈ children y ∧
       ∃ n impl',
         (∀ fuel, (n ≤ fuel)%nat → RemoveItem fuel impl i = Some impl') ∧
         size (id2item_ impl)
           = (size (id2item_ impl') + S (length (children x ≫= flatten)))%nat ∧
         (∀ j, id2item_ impl' !! j
               = if decide (j ∈ ids x) then None else id2item_ impl !! j) ∧
         deref (addr y) (root_ impl')
           = Some (set_children y (erase_id i (children y))) ∧
         (i ∉ id <$> erase_id i (children y)) ∧
         (∀ fuel, RemoveItem (S fuel) impl i =
                  impl1 ← RemoveChildren fuel
                            (set_id2item impl (delete i (id2item_ impl))) p;
                  unlink impl1 p i)) ∧
  (∀ fuel impl1 p it,
     deref p (root_ impl1) = Some it →
     RemoveChildren (S fuel) impl1 p =
       match children it with
       | [] => Some impl1
       | front :: _ =>
           impl2 ← RemoveItem fuel impl1 (id front);
           RemoveChildren fuel impl2 p
       end) ∧
  (∀ i fuel, id2item_ impl !! i = None →
             RemoveItem (S fuel) impl i = Some impl).
Proof.
  intros Hr Hk. pose proof (reachable_wf _ _ _ _ Hr Hk) as Hwf.
  pose proof (wf_shape _ _ Hwf) as Hsh.
  split; [| split; [| by intros; apply RemoveItem_absent]].
  2:{ intros fuel impl1 p it Hd. simpl. by rewrite Hd. }
  intros i p Hm Hne.
  destruct (RemoveItem_wf_eq _ _ _ _ Hwf Hm) as (x & Hx & Hi & Ha & n & Hn).
  destruct (flatten_owner _ _ Hx) as [-> | (y & Hy & Hxy)]; [done |].
  pose proof (shape_parents _ Hsh y x Hy Hxy) as Hpar.
  exists x, y. split; [done | split; [done | split; [done | split; [done |]]]].
  split; [done |]. exists n, (removed impl x). split; [done |].
  pose proof (removed_wf _ _ x Hwf Hx) as Hwf'.
  destruct (erase_child _ y x Hsh Hy Hxy) as (L1 & L2 & Et & Et' & _).
  assert (root_ (removed impl x)
          = modify_children (addr y) (erase_id i) (root_ impl)) as Er.
  { unfold removed. simpl. by rewrite Hpar, Hi. }
  rewrite Hi in Et'. rewrite <- Er in Et'.
  assert (set_children y (erase_id i (children y)) ∈ flatten (root_ (removed impl x)))
    as Hy'.
  { rewrite Er. by apply modify_children_elem; [apply Hsh |]. }
  split; [| split; [| split; [| split]]].
  - simpl. rewrite (size_remove_keys (ids x) (id2item_ impl)).
    + unfold ids. rewrite length_fmap, flatten_unfold. done.
    + pose proof (shape_ids _ Hsh) as Hni.
      rewrite ids_entries, Et, !fmap_app in Hni.
      apply NoDup_app in Hni as (_ & _ & Hni).
      apply NoDup_app in Hni as (Hni & _). by rewrite ids_entries.
    + intros j (z & -> & Hz)%list_elem_of_fmap. eexists.
      apply (wf_registered_sub _ _ x Hwf Hx); [| done]. by rewrite Hi, Ha.
  - intros j. simpl. apply lookup_remove_keys.
  - change (addr y) with (addr (set_children y (erase_id i (children y)))).
    apply deref_elem; [apply Hwf' | done].
  - intros (z & Hzi & Hz)%list_elem_of_fmap.
    assert ((i, addr z) ∈ L1 ++ L2) as Hin.
    { rewrite <- Et'. apply elem_of_entries. exists z. split; [| done].
      eapply flatten_trans; [| exact Hy']. by apply flatten_child. }
    apply (key_not_dropped L1 (entries x) L2) in Hin.
    + apply Hin. rewrite <- ids_entries, <- Hi. apply elem_of_ids, flatten_self.
    + rewrite <- Et, <- ids_entries. apply Hsh.
  - intros fuel. simpl. by rewrite Hm.
Qed.

Lemma RemoveItem_removes_subtree_witness :
  ∃ impl,
    view_after [CNew; CAddItem 0 0 "A"; CAddItem 0 1 "B"; CAddItem 0 1 "C"] 0
      = Some impl ∧
    (∃ x n impl',
       id x = 1 ∧
       (∀ fuel, (n ≤ fuel)%nat → RemoveItem fuel impl 1 = Some impl') ∧
       size (id2item_ impl)
         = (size (id2item_ impl') + S (length (children x ≫= flatten)))%nat) ∧
    RemoveItem 1 impl 7 = Some impl.
Proof.
  eexists. split; [vm_compute; reflexivity |].
  eassert (reachable false _) as Hr.
  { eapply (run_reachable 16
              [CNew; CAddItem 0 0 "A"; CAddItem 0 1 "B"; CAddItem 0 1 "C"]);
      [apply reachable_start | vm_compute; reflexivity]. }
  destruct (RemoveItem_removes_subtree _ 0 _ Hr eq_refl) as (Hrem & _ & Hno).
  split; [| by apply Hno].
  destruct (Hrem 1 2%positive eq_refl)
    as (x & y & _ & Hi & _ & _ & _ & n & impl' & Hn & Hsize & _); [done |].
  by exists x, n, impl'.
Defined.

(** The scenario of the specification: with [a] under the root and [b]
    and [c] under [a], removing [a] takes three entries out of the
    lookup table and leaves the root alone. *)
Example RemoveItem_scenario :
  ∃ impl impl',
    view_after [CNew; CAddItem 0 0 "A"; CAddItem 0 1 "B"; CAddItem 0 1 "C"] 0
      = Some impl ∧
    RemoveItem 16 impl 1 = Some impl' ∧
    size (id2item_ impl) = 4%nat ∧ size (id2item_ impl') = 1%nat ∧
    flatten (root_ impl') = [root_ impl'] ∧
    id2item_ impl' !! GetRootItem impl' = Some root_ptr.
Proof.
  eexists _, _. split; [vm_compute; reflexivity |].
  split; [vm_compute; reflexivity |]. by vm_compute.
Qed.

(** ** Integrity of the store *)

Lemma run_reachable_guarded fuel cs w w' out :
  reachable true w → spares_roots fuel w cs →
  run fuel w cs = Some (w', out) → reachable true w'.
Proof.
  revert w out. induction cs as [|c cs IH]; intros w out Hr Hsp Hrun;
    simpl in Hrun.
  - by injection Hrun as <- _.
  - destruct Hsp as [Hc Hsp].
    destruct (exec fuel w c) as [[w1 o]|] eqn:Hexec; [| done]. simpl in Hrun.
    destruct (run fuel w1 cs) as [[w2 out2]|] eqn:Hrun2; [| done].
    injection Hrun as <- _. eapply IH; [| done | done].
    by eapply (reachable_exec true w c fuel w1 o).
Qed.

(** C5, as stated: the entry of the root is always in the lookup
    table.  [RemoveItem] has no guard for the root: asked to remove it,
    it erases its entry. *)
Lemma root_entry_always_present_counterexample :
  ¬ (∀ w k impl,
       reachable false w → views w !! k = Some impl →
       is_Some (id2item_ impl !! GetRootItem impl)).
Proof.
  intros H.
  eassert (reachable false _) as Hr.
  { eapply (run_reachable 16 [CNew; CAddItem 0 0 "A"; CRemoveItem 0 0]);
      [apply reachable_start | vm_compute; reflexivity]. }
  destruct (H _ 0%nat _ Hr eq_refl) as [p Hp]. vm_compute in Hp. done.
Qed.

(** C5, amended.  After every sequence of calls, in every view: no
    item and no identifier occurs twice among the items reached from the
    root through the lists of children, every entry of the lookup table
    resolves to such an item with the identifier of the entry, and every
    such item other than the root has its entry.  When no call asked to
    remove a root, the root has its entry too, the entries of the table
    are exactly those of the items reached from the root, and there are
    as many of the ones as of the others. *)
Theorem store_integrity guarded w k impl :
  reachable guarded w → views w !! k = Some impl →
  NoDup (addrs (root_ impl)) ∧ NoDup (ids (root_ impl)) ∧
  parents_ok (root_ impl) ∧
  (∀ i p, id2item_ impl !! i = Some p →
          ∃ x, x ∈ flatten (root_ impl) ∧ deref p (root_ impl) = Some x ∧
               id x = i) ∧
  (∀ x, x ∈ flatten (root_ impl) → x ≠ root_ impl →
        id2item_ impl !! id x = Some (addr x)) ∧
  (guarded = true →
     id2item_ impl !! GetRootItem impl = Some root_ptr ∧
     (∀ i p, id2item_ impl !! i = Some p ↔ (i, p) ∈ entries (root_ impl)) ∧
     size (id2item_ impl) = length (flatten (root_ impl))).
Proof.
  intros Hr Hk. pose proof (reachable_wf _ _ _ _ Hr Hk) as Hwf.
  pose proof (wf_shape _ _ Hwf) as Hsh.
  split; [apply Hsh | split; [apply Hsh | split; [apply Hsh |]]].
  split; [| split].
  - intros i p Hm. destruct (wf_resolve _ _ _ _ Hwf Hm) as (x & ? & ? & ? & ?).
    by exists x.
  - intros x Hx Hne. apply (wf_registered _ _ Hwf); [done |].
    by eapply wf_not_root.
  - intros ->. pose proof (reachable_root_entry _ _ _ Hr Hk) as Hroot.
    assert (∀ i p, id2item_ impl !! i = Some p ↔ (i, p) ∈ entries (root_ impl))
      as Hiff.
    { intros i p. split; [apply Hwf |].
      intros (x & Hx & <- & <-)%elem_of_entries.
      destruct (decide (addr x = root_ptr)) as [Ha | Hne].
      - assert (x = root_ impl) as ->; [| by rewrite (wf_root _ _ Hwf)].
        apply (same_addr x (root_ impl) (root_ impl));
          [apply Hsh | done | apply flatten_self |].
        by rewrite (wf_root _ _ Hwf).
      - by apply (wf_registered _ _ Hwf). }
    split; [done | split; [done |]].
    rewrite <- length_map_to_list.
    replace (length (flatten (root_ impl))) with (length (entries (root_ impl)))
      by apply length_fmap.
    apply Permutation_length, NoDup_Permutation.
    + apply NoDup_map_to_list.
    + apply (NoDup_fmap_1 fst). rewrite <- ids_entries. apply Hsh.
    + intros [i p]. rewrite elem_of_map_to_list. apply Hiff.
Qed.

Lemma store_integrity_witness :
  ∃ impl,
    view_after [CNew; CAddItem 0 0 "A"; CAddItem 0 1 "B"; CRemoveItem 0 2;
                CAddItem 0 5 "C"] 0 = Some impl ∧
    id2item_ impl !! GetRootItem impl = Some root_ptr ∧
    size (id2item_ impl) = length (flatten (root_ impl)).
Proof.
  eexists. split; [vm_compute; reflexivity |].
  eassert (reachable true _) as Hr.
  { eapply (run_reachable_guarded 16
              [CNew; CAddItem 0 0 "A"; CAddItem 0 1 "B"; CRemoveItem 0 2;
               CAddItem 0 5 "C"]);
      [apply reachable_start | | vm_compute; reflexivity].
    vm_compute. repeat split; try tauto. discriminate. }
  destruct (store_integrity true _ 0 _ Hr eq_refl) as (_ & _ & _ & _ & _ & H).
  destruct (H eq_refl) as (Hroot & _ & Hsize). by split.
Defined.

(** ** Activation *)

(** A pass sees the clicks on the items without children only. *)
Lemma DrawItem_ext ui ui' item w :
  (∀ a, node_open ui a = node_open ui' a) →
  (∀ x, x ∈ flatten item → children x = [] →
        IsItemClicked ui (addr x) = IsItemClicked ui' (addr x)) →
  DrawItem ui item w = DrawItem ui' item w.
Proof.
  intros Hopen. revert w.
  induction item as [a i t par cs IH] using Item_ind'. intros w Hclick.
  assert (IsItemClicked ui a && is_leaf cs = IsItemClicked ui' a && is_leaf cs)
    as Hc.
  { destruct cs; [| by rewrite !andb_false_r].
    pose proof (Hclick _ (flatten_self _) eq_refl) as E. simpl in E.
    by rewrite E. }
  simpl. rewrite Hc, Hopen. destruct (node_open ui' a); [| done]. f_equal.
  generalize (if IsItemClicked ui' a && is_leaf cs
              then activate a i
                     (emit (TreeNodeEx t (is_leaf cs))
                        (if decide (i = selected_id_ (w_impl w))
                         then emit (SelectionRect i) w else w))
              else emit (TreeNodeEx t (is_leaf cs))
                     (if decide (i = selected_id_ (w_impl w))
                      then emit (SelectionRect i) w else w)).
  assert (∀ c x, c ∈ cs → x ∈ flatten c → children x = [] →
                 IsItemClicked ui (addr x) = IsItemClicked ui' (addr x)) as Hcs.
  { intros c x Hc' Hx. apply Hclick. apply elem_of_flatten. right. by exists c. }
  clear Hclick Hc. induction IH as [|c cs Hc _ IHcs]; intros w'; [done |].
  simpl. rewrite Hc by (intros x; apply Hcs; left).
  apply IHcs. intros c' x Hc'. apply Hcs. by right.
Qed.

(** C8.  A click on an item that has children makes no difference to
    any pass: two frames with the same open nodes and the same clicks on
    the items without children give the same pass, whatever else is
    clicked in it.  The view a pass leaves is the view it started from,
    or that view with the identifier of a clicked item without children
    for selection.  And a pass in which every clicked item has children
    leaves the view as it was, the selected identifier with it, returns
    [NONE] and calls no listener. *)
Theorem nonleaf_click_keeps_selection ui impl :
  (∀ ui',
     (∀ a, node_open ui a = node_open ui' a) →
     (∀ x, x ∈ flatten (root_ impl) → children x = [] →
           IsItemClicked ui (addr x) = IsItemClicked ui' (addr x)) →
     Draw ui' impl = Draw ui impl) ∧
  (∀ impl' r events,
     Draw ui impl = Some (impl', r, events) →
     impl' = impl ∨
     ∃ x, x ∈ flatten (root_ impl) ∧ x ≠ root_ impl ∧ children x = [] ∧
          IsItemClicked ui (addr x) = true ∧
          impl' = SetSelectedItemId impl (id x)) ∧
  ((∀ x, x ∈ flatten (root_ impl) → IsItemClicked ui (addr x) = true →
         children x ≠ []) →
   (∃ events,
      Draw ui impl = Some (impl, NONE, events) ∧ Forall no_call events) ∧
   (∀ impl' r events,
      Draw ui impl = Some (impl', r, events) →
      GetSelectedItemId impl' = GetSelectedItemId impl)).
Proof.
  destruct (DrawTop_spec ui (children (root_ impl)) (mkWalk impl None []))
    as (Ep & walk & Ew & Hwalk).
  rewrite foldl_pick in Ep. simpl in Ew.
  assert (∀ x, x ∈ children (root_ impl) ≫= clicks ui →
               x ∈ flatten (root_ impl) ∧ children x = [] ∧
               IsItemClicked ui (addr x) = true) as Hclicks.
  { intros x (top & Hx & Htop)%list_elem_of_bind.
    destruct (clicks_leaf _ _ _ Hx) as [Hleaf Hc].
    split; [| done].
    eapply flatten_trans; [by eapply clicks_flatten | by apply flatten_child]. }
  split; [| split].
  - intros ui' Hopen Hleaf. unfold Draw, DrawTop.
    assert (∀ tops w,
              (∀ top, top ∈ tops → top ∈ children (root_ impl)) →
              fold_left (λ w top, DrawItem ui' top w) tops w
              = fold_left (λ w top, DrawItem ui top w) tops w) as Hfold.
    { induction tops as [|top tops IH]; intros w Hsub; [done |]. simpl.
      rewrite (DrawItem_ext ui ui' top w Hopen).
      - apply IH. intros top' Htop'. apply Hsub. by right.
      - intros x Hx. apply Hleaf. eapply flatten_trans; [done |].
        apply flatten_child, Hsub. left. }
    by rewrite Hfold.
  - intros impl' r events Hdraw. unfold Draw in Hdraw.
    destruct (notify _) as [cs|]; [| done]. simpl in Hdraw.
    injection Hdraw as <- _ _.
    destruct (last (children (root_ impl) ≫= clicks ui)) as [x|] eqn:Hlast.
    + right. exists x. apply last_Some_elem_of in Hlast.
      destruct (Hclicks x Hlast) as (Hx & Hleaf & Hc).
      split; [done | split; [| split; [done | split; [done |]]]].
      * intros ->. apply list_elem_of_bind in Hlast as (top & _ & Htop).
        rewrite Hleaf in Htop. by apply elem_of_nil in Htop.
      * unfold picked in Ep. by injection Ep as -> _.
    + left. unfold picked in Ep. by injection Ep as -> _.
  - intros Hclick.
    assert (children (root_ impl) ≫= clicks ui = []) as Hnone.
    { destruct (children (root_ impl) ≫= clicks ui) as [|x l] eqn:E; [done |].
      destruct (Hclicks x) as (Hx & Hleaf & Hc); [left |].
      by destruct (Hclick x Hx Hc). }
    rewrite Hnone in Ep. unfold picked in Ep. simpl in Ep.
    injection Ep as Ei En.
    assert (Draw ui impl = Some (impl, NONE, walk)) as Hdraw.
    { unfold Draw, notify. rewrite En, Ei. simpl. by rewrite Ew, app_nil_r. }
    split; [by exists walk |].
    intros impl' r events' Hdraw'. rewrite Hdraw in Hdraw'.
    by injection Hdraw' as <- _ _.
Qed.

Lemma nonleaf_click_keeps_selection_witness :
  ∃ impl,
    view_after [CNew; CAddItem 0 0 "A"; CAddItem 0 1 "B";
                CSetSelectedItemId 0 2] 0 = Some impl ∧
    (∃ events,
       Draw (mkFrame (λ _, true) (λ a, bool_decide (a = 2%positive))) impl
         = Some (impl, NONE, events) ∧
       GetSelectedItemId impl = 2) ∧
    Draw (mkFrame (λ _, true) (λ _, true)) impl
      = Draw (mkFrame (λ _, true) (λ a, bool_decide (a = 3%positive))) impl.
Proof.
  eexists. split; [vm_compute; reflexivity |]. split.
  - edestruct (nonleaf_click_keeps_selection
                 (mkFrame (λ _, true) (λ a, bool_decide (a = 2%positive))))
      as (_ & _ & Hquiet).
    edestruct Hquiet as ((events & Hdraw & _) & _);
      [| exists events; split; [exact Hdraw | done]].
    intros x Hx Hc. simpl in Hc. apply bool_decide_eq_true in Hc.
    vm_compute in Hx.
    repeat (apply elem_of_cons in Hx as [-> | Hx];
            [done || by vm_compute in Hc |]).
    by apply elem_of_nil in Hx.
  - edestruct (nonleaf_click_keeps_selection
                 (mkFrame (λ _, true) (λ a, bool_decide (a = 3%positive))))
      as (Hext & _).
    apply Hext; [done |]. intros x Hx Hleaf. vm_compute in Hx.
    repeat (apply elem_of_cons in Hx as [-> | Hx];
            [done || by vm_compute in Hleaf |]).
    by apply elem_of_nil in Hx.
Defined.

(** ** Labels *)

Lemma labelled_modify p h t i L :
  (∀ x, x ∈ flatten t → id x = i → text x = L) →
  (∀ y c x, y ∈ flatten t → addr y = p → c ∈ h (children y) →
            x ∈ flatten c → id x = i → text x = L) →
  ∀ x, x ∈ flatten (modify_children p h t) → id x = i → text x = L.
Proof.
  intros Hold Hnew x' Hx' Hi.
  apply flatten_modify in Hx' as [(y & Hy & _ & ->) | (y & Hy & Hp & Hx')].
  - rewrite text_modify. rewrite id_modify in Hi. by apply Hold.
  - destruct Hx' as [-> | (c & Hc & Hx')]; [simpl in *; by apply Hold | by eapply Hnew].
Qed.

Lemma added_labelled g impl parent_id txt i L :
  wf g impl → i < g → labelled impl i L →
  labelled (added impl parent_id txt g) i L.
Proof.
  intros Hwf Hlt Hl. unfold labelled, added. simpl.
  apply labelled_modify; [done |]. intros y c x Hy _ Hc Hx Hi.
  apply elem_of_app in Hc as [Hc | ->%list_elem_of_singleton].
  - apply Hl; [| done]. eapply flatten_trans; [done |].
    eapply flatten_trans; [by apply flatten_child | done].
  - apply list_elem_of_singleton in Hx as ->. simpl in Hi. lia.
Qed.

Lemma removed_labelled impl x i L :
  labelled impl i L → labelled (removed impl x) i L.
Proof.
  intros Hl. unfold labelled, removed. simpl. destruct (parent x) as [q|].
  - apply labelled_modify; [done |]. intros y c z Hy _ Hc Hz Hi.
    apply erase_id_subseteq in Hc. apply Hl; [| done].
    eapply flatten_trans; [done |].
    eapply flatten_trans; [by apply flatten_child | done].
  - apply labelled_modify; [done |]. intros y c z _ _ Hc.
    by apply elem_of_nil in Hc.
Qed.

Lemma exec_labelled fuel w c w' o k impl impl' i L :
  inv w → i < g_next_id w →
  views w !! k = Some impl → labelled impl i L →
  exec fuel w c = Some (w', o) → views w' !! k = Some impl' →
  labelled impl' i L.
Proof.
  intros [Hg Hv] Hlt Hk Hl Hexec Hk'.
  destruct c as [|j pid txt|j i'|j i'|j f|j ui]; simpl in Hexec.
  - injection Hexec as <- _. simpl in Hk'.
    rewrite lookup_app_l, Hk in Hk' by (by eapply lookup_lt_Some).
    by injection Hk' as <-.
  - destruct (views w !! j) as [impl1|] eqn:Hj; [| done]. simpl in Hexec.
    rewrite (AddItem_wf_eq _ _ _ _ (Hv _ _ Hj)) in Hexec. simpl in Hexec.
    injection Hexec as <- _. simpl in Hk'.
    apply list_lookup_insert_Some in Hk' as [(-> & <- & _) | (_ & Hk')];
      [| same_view].
    apply added_labelled; [by eapply Hv | done | same_view].
  - destruct (views w !! j) as [impl1|] eqn:Hj; [| done]. simpl in Hexec.
    destruct (RemoveItem fuel impl1 i') as [impl2|] eqn:Hrem; [| done].
    injection Hexec as <- _. simpl in Hk'.
    apply list_lookup_insert_Some in Hk' as [(-> & <- & _) | (_ & Hk')];
      [| same_view].
    destruct (RemoveItem_result _ _ _ _ _ (Hv _ _ Hj) Hrem)
      as [[_ ->] | (x & _ & _ & _ & ->)]; [same_view |].
    apply removed_labelled. same_view.
  - destruct (views w !! j) as [impl1|] eqn:Hj; [| done].
    injection Hexec as <- _. simpl in Hk'.
    apply list_lookup_insert_Some in Hk' as [(-> & <- & _) | (_ & Hk')];
      same_view.
  - destruct (views w !! j) as [impl1|] eqn:Hj; [| done].
    injection Hexec as <- _. simpl in Hk'.
    apply list_lookup_insert_Some in Hk' as [(-> & <- & _) | (_ & Hk')];
      same_view.
  - destruct (views w !! j) as [impl1|] eqn:Hj; [| done]. simpl in Hexec.
    destruct (Draw ui impl1) as [[[impl2 r] evs]|] eqn:Hdraw; [| done].
    injection Hexec as <- _. simpl in Hk'.
    apply list_lookup_insert_Some in Hk' as [(-> & <- & _) | (_ & Hk')];
      [| same_view].
    destruct (Draw_store _ _ _ _ _ Hdraw) as (Er & _).
    unfold labelled. rewrite Er. same_view.
Qed.

Lemma exec_keeps_view fuel w c w' o k :
  exec fuel w c = Some (w', o) → is_Some (views w !! k) → is_Some (views w' !! k).
Proof.
  intros Hexec Hk. apply lookup_lt_is_Some in Hk. apply lookup_lt_is_Some.
  destruct c as [|j pid txt|j i'|j i'|j f|j ui]; simpl in Hexec.
  - injection Hexec as <- _. simpl. rewrite length_app. lia.
  - destruct (views w !! j); [| done]. simpl in Hexec.
    destruct (AddItem _ _ _ _) as [[[? ?] ?]|]; [| done].
    injection Hexec as <- _. simpl. by rewrite length_insert.
  - destruct (views w !! j); [| done]. simpl in Hexec.
    destruct (RemoveItem _ _ _); [| done].
    injection Hexec as <- _. simpl. by rewrite length_insert.
  - destruct (views w !! j); [| done].
    injection Hexec as <- _. simpl. by rewrite length_insert.
  - destruct (views w !! j); [| done].
    injection Hexec as <- _. simpl. by rewrite length_insert.
  - destruct (views w !! j); [| done]. simpl in Hexec.
    destruct (Draw _ _) as [[[? ?] ?]|]; [| done].
    injection Hexec as <- _. simpl. by rewrite length_insert.
Qed.

Lemma run_labelled fuel cs w w' out k impl impl' i L :
  inv w → i < g_next_id w →
  views w !! k = Some impl → labelled impl i L →
  run fuel w cs = Some (w', out) → views w' !! k = Some impl' →
  labelled impl' i L.
Proof.
  revert w out impl. induction cs as [|c cs IH];
    intros w out impl Hinv Hlt Hk Hl Hrun Hk'; simpl in Hrun.
  - injection Hrun as <- _. same_view.
  - destruct (exec fuel w c) as [[w1 o]|] eqn:Hexec; [| done]. simpl in Hrun.
    destruct (run fuel w1 cs) as [[w2 out2]|] eqn:Hrun2; [| done].
    injection Hrun as <- _.
    destruct (exec_keeps_view _ _ _ _ _ k Hexec) as [impl1 Hk1]; [by eexists |].
    eapply (IH w1 out2 impl1); [by eapply exec_inv | | done | | done | done].
    + destruct (exec_counter _ _ _ _ _ Hexec) as [[_ ->] | [_ ->]]; lia.
    + by eapply exec_labelled.
Qed.

(** The listener calls among the events of a pass name the text and the
    identifier of an item of the view. *)
Lemma Draw_call ui impl impl' r evs f l i :
  NoDup (addrs (root_ impl)) →
  Draw ui impl = Some (impl', r, evs) → ValueChanged f l i ∈ evs →
  ∃ x, x ∈ flatten (root_ impl) ∧ text x = l ∧ id x = i.
Proof.
  intros Hnd Hdraw Hin. destruct (Draw_eq ui impl Hnd) as (walk & _ & Hwalk & E).
  rewrite E in Hdraw. clear E.
  assert (ValueChanged f l i ∉ walk) as Hnot.
  { intros Hw. rewrite Forall_forall in Hwalk. by apply Hwalk in Hw. }
  destruct (last _) as [x|] eqn:Hlast.
  - injection Hdraw as _ _ <-. apply elem_of_app in Hin as [? | Hin]; [done |].
    destruct (on_value_changed_ impl); [| by apply elem_of_nil in Hin].
    apply list_elem_of_singleton in Hin. injection Hin as _ -> ->.
    exists x. split; [| done].
    apply last_Some_elem_of, list_elem_of_bind in Hlast as (top & Hx & Htop).
    eapply flatten_trans; [by eapply clicks_flatten | by apply flatten_child].
  - by injection Hdraw as _ _ <-.
Qed.

(** C9.  [AddItem(parent_id, text)] stores, in the item it creates, the
    text followed by ["##"] and the decimal digits of the identifier of
    the item; and whatever is called afterwards, a pass that calls the
    listener with that identifier calls it with that string. *)
Theorem AddItem_label w k impl parent_id txt :
  reachable false w → views w !! k = Some impl →
  ∃ impl' p x,
    AddItem impl parent_id txt (g_next_id w)
      = Some (g_next_id w, impl', g_next_id w + 1) ∧
    id2item_ impl' !! g_next_id w = Some p ∧
    deref p (root_ impl') = Some x ∧
    id x = g_next_id w ∧
    text x = txt +:+ "##" +:+ pretty (g_next_id w) ∧
    ∀ fuel cs w2 out impl2 ui impl3 r evs f l,
      run fuel (mkProcess (g_next_id w + 1) (<[k := impl']> (views w))) cs
        = Some (w2, out) →
      views w2 !! k = Some impl2 →
      Draw ui impl2 = Some (impl3, r, evs) →
      ValueChanged f l (g_next_id w) ∈ evs →
      l = txt +:+ "##" +:+ pretty (g_next_id w).
Proof.
  intros Hr Hk. pose proof (reachable_inv _ _ Hr) as Hinv.
  pose proof (reachable_wf _ _ _ _ Hr Hk) as Hwf.
  pose proof (added_wf _ _ parent_id txt Hwf) as Hwf'.
  destruct (target_item _ _ parent_id Hwf) as (y & Hy & Hay & _).
  set (g := g_next_id w) in *. set (impl' := added impl parent_id txt g).
  set (item := mkItem (fresh_addr (root_ impl)) g (txt +:+ "##" +:+ pretty g)
                      (Some (target impl parent_id)) []).
  assert (item ∈ flatten (root_ impl')) as Hitem.
  { pose proof (modify_children_elem (λ cs, cs ++ [item]) y (root_ impl)
                  (shape_addrs _ (wf_shape _ _ Hwf)) Hy) as Hy'.
    rewrite Hay in Hy'. eapply flatten_trans; [| exact Hy'].
    apply flatten_child. simpl. apply elem_of_app. right. left. }
  exists impl', (addr item), item.
  split; [by apply AddItem_wf_eq |]. split; [apply lookup_insert_eq |].
  split; [apply deref_elem; [apply Hwf' | done] |].
  split; [done | split; [done |]].
  intros fuel cs w2 out impl2 ui impl3 r evs f l Hrun Hk2 Hdraw Hin.
  assert (exec 0 w (CAddItem k parent_id txt)
          = Some (mkProcess (g + 1) (<[k := impl']> (views w)), Some g)) as Hexec.
  { simpl. rewrite Hk. simpl. fold g. by rewrite (AddItem_wf_eq _ _ _ _ Hwf). }
  pose proof (exec_inv _ _ _ _ _ Hinv Hexec) as Hinv1.
  assert (labelled impl2 g (txt +:+ "##" +:+ pretty g)) as Hl.
  { eapply (run_labelled fuel cs _ w2 out k impl'); [done | simpl; lia | | | done | done].
    - simpl. apply list_lookup_insert_eq. by eapply lookup_lt_Some.
    - intros x Hx Hi.
      assert (x = item) as ->; [| done].
      apply (same_id x item (root_ impl'));
        [apply Hwf' | done | done | done]. }
  assert (wf (g_next_id w2) impl2) as Hwf2.
  { eapply (reachable_wf false w2 k); [| done].
    eapply run_reachable; [| done].
    by eapply (reachable_exec false w _ 0 _ _ Hr). }
  destruct (Draw_call _ _ _ _ _ _ _ _ (shape_addrs _ (wf_shape _ _ Hwf2)) Hdraw Hin)
    as (x & Hx & <- & Hi).
  by apply Hl.
Qed.

Lemma AddItem_label_witness :
  ∃ impl,
    view_after [CNew; CNew; CNew; CNew; CNew; CNew; CNew] 0 = Some impl ∧
    ∃ impl' p x,
      AddItem impl 0 "A" 7 = Some (7, impl', 8) ∧
      id2item_ impl' !! 7 = Some p ∧ deref p (root_ impl') = Some x ∧
      text x = "A##7".
Proof.
  eexists. split; [vm_compute; reflexivity |].
  eassert (reachable false _) as Hr.
  { eapply (run_reachable 16 [CNew; CNew; CNew; CNew; CNew; CNew; CNew]);
      [apply reachable_start | vm_compute; reflexivity]. }
  destruct (AddItem_label _ 0 _ 0 "A" Hr eq_refl)
    as (impl' & p & x & E & Hm & Hd & _ & Ht & _).
  exists impl', p, x. split; [exact E |]. split; [exact Hm |].
  split; [exact Hd | exact Ht].
Defined.

(** ** Notification *)

(** C1, as stated: the activation of a leaf leaves [selected_id_] alone
    until the pass is over.  [DrawItem] assigns it on the spot: with
    two leaves under the root, the second one selected and the first
    one clicked, [selected_id_] is the identifier of the first one
    before the second one is drawn. *)
Lemma selection_committed_after_pass_counterexample :
  ¬ (∀ w k impl ui tops1 tops2,
       reachable false w → views w !! k = Some impl →
       children (root_ impl) = tops1 ++ tops2 → tops2 ≠ [] →
       selected_id_ (w_impl (DrawTop ui tops1 (mkWalk impl None [])))
       = selected_id_ impl).
Proof.
  intros H.
  eassert (reachable false _) as Hr.
  { eapply (run_reachable 16 [CNew; CAddItem 0 0 "A"; CAddItem 0 0 "B";
                              CSetSelectedItemId 0 2]);
      [apply reachable_start | vm_compute; reflexivity]. }
  specialize (H _ 0%nat _
                (mkFrame (λ _, true) (λ a, bool_decide (a = 2%positive)))
                [mkItem 2 1 "A##1" (Some 1%positive) []]
                [mkItem 3 2 "B##2" (Some 1%positive) []]
                Hr eq_refl eq_refl).
  vm_compute in H. by specialize (H ltac:(done)).
Qed.

(** The pass of that scenario, with a listener: the second leaf was
    selected when the pass began, and no selection rectangle is drawn
    for it. *)
Example Draw_scenario :
  ∃ impl impl',
    view_after [CNew; CAddItem 0 0 "A"; CAddItem 0 0 "B";
                CSetSelectedItemId 0 2; CSetOnValueChanged 0 (Some 5%nat)] 0
      = Some impl ∧
    Draw (mkFrame (λ _, true) (λ a, bool_decide (a = 2%positive))) impl
      = Some (impl', REDRAW,
              [TreeNodeEx "A##1" true; TreePop;
               TreeNodeEx "B##2" true; TreePop;
               ValueChanged 5 "A##1" 1]) ∧
    selected_id_ impl = 2 ∧ selected_id_ impl' = 1.
Proof.
  eexists _, _. split; [vm_compute; reflexivity |].
  split; [vm_compute; reflexivity |]. by vm_compute.
Qed.

(** C1, amended.  In every pass the listener is called after the walk
    and not during it: the events of the walk contain no call, and the
    events of the pass are those of the walk followed by one call, with
    the text and the identifier of the leaf activated last, when a leaf
    was activated and a listener is registered, and by nothing
    otherwise.  [selected_id_] does not wait for the end of the pass:
    after any number of top-level items it is the identifier of the
    leaf activated last among them, and after the pass that of the leaf
    activated last in the pass. *)
Theorem Draw_defers_listener w k impl ui :
  reachable false w → views w !! k = Some impl →
  ∃ walk,
    w_events (DrawTop ui (children (root_ impl)) (mkWalk impl None [])) = walk ∧
    Forall no_call walk ∧
    (∀ tops1 tops2,
       children (root_ impl) = tops1 ++ tops2 →
       selected_id_ (w_impl (DrawTop ui tops1 (mkWalk impl None [])))
       = from_option id (selected_id_ impl) (last (tops1 ≫= clicks ui))) ∧
    Draw ui impl =
      match last (children (root_ impl) ≫= clicks ui) with
      | None => Some (impl, NONE, walk)
      | Some x =>
          Some (SetSelectedItemId impl (id x), REDRAW,
                walk ++ match on_value_changed_ impl with
                        | Some f => [ValueChanged f (text x) (id x)]
                        | None => []
                        end)
      end.
Proof.
  intros Hr Hk. pose proof (reachable_wf _ _ _ _ Hr Hk) as Hwf.
  destruct (Draw_eq ui impl (shape_addrs _ (wf_shape _ _ Hwf)))
    as (walk & Ew & Hwalk & Hdraw).
  exists walk. split; [done | split; [done | split; [| done]]].
  intros tops1 tops2 _.
  destruct (DrawTop_spec ui tops1 (mkWalk impl None [])) as (Ep & _).
  rewrite foldl_pick in Ep. unfold picked in Ep. simpl in Ep.
  destruct (last (tops1 ≫= clicks ui)); by injection Ep as -> _.
Qed.

Lemma Draw_defers_listener_witness :
  ∃ impl,
    view_after [CNew; CAddItem 0 0 "A"; CAddItem 0 0 "B";
                CSetSelectedItemId 0 2; CSetOnValueChanged 0 (Some 5%nat)] 0
      = Some impl ∧
    ∃ walk impl',
      Forall no_call walk ∧
      Draw (mkFrame (λ _, true) (λ a, bool_decide (a = 2%positive))) impl
        = Some (impl', REDRAW, walk ++ [ValueChanged 5 "A##1" 1]).
Proof.
  eexists. split; [vm_compute; reflexivity |].
  eassert (reachable false _) as Hr.
  { eapply (run_reachable 16 [CNew; CAddItem 0 0 "A"; CAddItem 0 0 "B";
                              CSetSelectedItemId 0 2;
                              CSetOnValueChanged 0 (Some 5%nat)]);
      [apply reachable_start | vm_compute; reflexivity]. }
  destruct (Draw_defers_listener _ 0 _
              (mkFrame (λ _, true) (λ a, bool_decide (a = 2%positive)))
              Hr eq_refl) as (walk & _ & Hwalk & _ & Hdraw).
  exists walk. eexists. split; [exact Hwalk |]. exact Hdraw.
Defined.

(** * Further properties *)

(** ** Insertion under a live item *)

(** A write that keeps the children it finds keeps every item of the
    tree, with its address, identifier, text and parent. *)
Lemma flatten_modify_keep p h t z :
  (∀ cs c, c ∈ cs → c ∈ h cs) → z ∈ flatten t →
  ∃ z', z' ∈ flatten (modify_children p h t) ∧
        addr z' = addr z ∧ id z' = id z ∧ text z' = text z ∧
        parent z' = parent z.
Proof.
  intros Hh. induction t as [a i tx par cs IH] using Item_ind'. intros Hz.
  set (t := mkItem a i tx par cs) in *.
  apply elem_of_flatten in Hz as [-> | (c & Hc & Hz)].
  - exists (modify_children p h t).
    rewrite addr_modify, id_modify, text_modify, parent_modify.
    split; [apply flatten_self | done].
  - rewrite modify_children_unfold. case_decide as Ha.
    + exists z. split; [| done]. apply elem_of_flatten. right. exists c.
      split; [by apply Hh | done].
    + rewrite Forall_forall in IH. destruct (IH c Hc Hz) as (z' & Hz' & Hinfo).
      exists z'. split; [| done]. apply elem_of_flatten. right.
      exists (modify_children p h c). split; [| done]. simpl.
      by apply list_elem_of_fmap_2.
Qed.

(** X1.  With a [parent_id] that resolves, [AddItem] appends the new
    item to the children of the item [parent_id] resolves to; the new
    item has that item for parent and no children, the lookup table
    gains the one entry of the new identifier, and every identifier
    that resolved before resolves as before, to an item with the same
    identifier, text and parent. *)
Theorem AddItem_resolved_parent w k impl parent_id p txt :
  reachable false w → views w !! k = Some impl →
  id2item_ impl !! parent_id = Some p →
  ∃ y item impl',
    deref p (root_ impl) = Some y ∧ id y = parent_id ∧
    AddItem impl parent_id txt (g_next_id w)
      = Some (g_next_id w, impl', g_next_id w + 1) ∧
    id item = g_next_id w ∧ parent item = Some p ∧ children item = [] ∧
    deref p (root_ impl') = Some (set_children y (children y ++ [item])) ∧
    id2item_ impl' !! g_next_id w = Some (addr item) ∧
    deref (addr item) (root_ impl') = Some item ∧
    size (id2item_ impl') = S (size (id2item_ impl)) ∧
    (∀ j q z,
       id2item_ impl !! j = Some q → deref q (root_ impl) = Some z →
       ∃ z', id2item_ impl' !! j = Some q ∧
             deref q (root_ impl') = Some z' ∧
             id z' = id z ∧ text z' = text z ∧ parent z' = parent z).
Proof.
  intros Hr Hk Hm. pose proof (reachable_wf _ _ _ _ Hr Hk) as Hwf.
  pose proof (added_wf _ _ parent_id txt Hwf) as Hwf'.
  pose proof (shape_addrs _ (wf_shape _ _ Hwf')) as Hnd'.
  destruct (wf_resolve _ _ _ _ Hwf Hm) as (y & Hy & Hi & Ha & Hd).
  assert (target impl parent_id = p) as Ht by (unfold target; by rewrite Hm).
  set (g := g_next_id w) in *.
  set (item := mkItem (fresh_addr (root_ impl)) g (txt +:+ "##" +:+ pretty g)
                      (Some p) []).
  assert (root_ (added impl parent_id txt g)
          = modify_children p (λ cs, cs ++ [item]) (root_ impl)) as Er.
  { unfold added. simpl. by rewrite Ht. }
  assert (set_children y (children y ++ [item])
          ∈ flatten (root_ (added impl parent_id txt g))) as Hy'.
  { rewrite Er, <- Ha.
    apply (modify_children_elem (λ cs, cs ++ [item]) y (root_ impl));
      [apply Hwf | done]. }
  assert (id2item_ impl !! g = None) as Hg.
  { destruct (id2item_ impl !! g) as [q|] eqn:E; [| done].
    apply (wf_sound _ _ Hwf), elem_of_entries in E as (z & Hz & Hzi & _).
    pose proof (wf_below _ _ Hwf _ (elem_of_ids _ _ Hz)). lia. }
  exists y, item, (added impl parent_id txt g).
  split; [done | split; [done | split; [by apply AddItem_wf_eq |]]].
  split; [done | split; [done | split; [done |]]].
  split; [| split; [apply lookup_insert_eq | split; [| split]]].
  - rewrite <- Ha.
    change (addr y) with (addr (set_children y (children y ++ [item]))).
    by apply deref_elem.
  - apply deref_elem; [done |]. eapply flatten_trans; [| exact Hy'].
    apply flatten_child. simpl. apply elem_of_app. right. left.
  - simpl. by apply map_size_insert_None.
  - intros j q z Hj Hz.
    destruct (wf_resolve _ _ _ _ Hwf Hj) as (z0 & Hz0 & Hj0 & Hq0 & Hd0).
    rewrite Hd0 in Hz. injection Hz as ->.
    destruct (flatten_modify_keep p (λ cs, cs ++ [item]) (root_ impl) z)
      as (z' & Hz' & Haz & Hiz & Htz & Hpz);
      [intros cs c Hc; apply elem_of_app; by left | done |].
    exists z'. split; [| split; [| done]].
    + simpl. rewrite lookup_insert_ne; [done |]. intros <-. by rewrite Hg in Hj.
    + rewrite <- Hq0, <- Haz. apply deref_elem; [done | by rewrite Er].
Qed.

Lemma AddItem_resolved_parent_witness :
  ∃ impl,
    view_after [CNew; CAddItem 0 0 "A"; CAddItem 0 1 "B"] 0 = Some impl ∧
    ∃ impl', AddItem impl 1 "C" 3 = Some (3, impl', 4) ∧
             size (id2item_ impl') = 4%nat.
Proof.
  eexists. split; [vm_compute; reflexivity |].
  eassert (reachable false _) as Hr.
  { eapply (run_reachable 16 [CNew; CAddItem 0 0 "A"; CAddItem 0 1 "B"]);
      [apply reachable_start | vm_compute; reflexivity]. }
  destruct (AddItem_resolved_parent _ 0 _ 1 2%positive "C" Hr eq_refl eq_refl)
    as (y & item & impl' & _ & _ & E & _ & _ & _ & _ & _ & _ & Hsize & _).
  exists impl'. split; [exact E | exact Hsize].
Defined.

(** ** Insertion undone by removal *)

(** X2.  [RemoveItem] on the identifier [AddItem] has just returned
    gives back the view [AddItem] was called on: the tree, the lookup
    table, the selection and the listener. *)
Theorem AddItem_RemoveItem w k impl parent_id txt :
  reachable false w → views w !! k = Some impl →
  ∃ impl' n,
    AddItem impl parent_id txt (g_next_id w)
      = Some (g_next_id w, impl', g_next_id w + 1) ∧
    ∀ fuel, (n ≤ fuel)%nat → RemoveItem fuel impl' (g_next_id w) = Some impl.
Proof.
  intros Hr Hk. pose proof (reachable_wf _ _ _ _ Hr Hk) as Hwf.
  pose proof (added_wf _ _ parent_id txt Hwf) as Hwf'.
  set (g := g_next_id w) in *.
  set (item := mkItem (fresh_addr (root_ impl)) g (txt +:+ "##" +:+ pretty g)
                      (Some (target impl parent_id)) []).
  assert (id2item_ (added impl parent_id txt g) !! g = Some (addr item)) as Hm
    by apply lookup_insert_eq.
  destruct (RemoveItem_wf_eq _ _ _ _ Hwf' Hm) as (x & Hx & Hi & Ha & n & Hn).
  destruct (target_item _ _ parent_id Hwf) as (y & Hy & Hay & _).
  assert (x = item) as ->.
  { apply (same_addr x item (root_ (added impl parent_id txt g)));
      [apply Hwf' | done | | done].
    pose proof (modify_children_elem (λ cs, cs ++ [item]) y (root_ impl)
                  (shape_addrs _ (wf_shape _ _ Hwf)) Hy) as Hy'.
    rewrite Hay in Hy'. eapply flatten_trans; [| exact Hy'].
    apply flatten_child. simpl. apply elem_of_app. right. left. }
  assert (id2item_ impl !! g = None) as Hg.
  { destruct (id2item_ impl !! g) as [q|] eqn:E; [| done].
    apply (wf_sound _ _ Hwf), elem_of_entries in E as (z & Hz & Hzi & _).
    pose proof (wf_below _ _ Hwf _ (elem_of_ids _ _ Hz)). lia. }
  exists (added impl parent_id txt g), n. split; [by apply AddItem_wf_eq |].
  intros fuel Hf. rewrite (Hn fuel Hf). f_equal.
  unfold removed. simpl. rewrite modify_children_twice.
  rewrite modify_children_id.
  - rewrite delete_insert_id by done. by destruct impl.
  - intros z Hz _. simpl. rewrite erase_id_app; [apply app_nil_r | | done].
    intros c Hc Hcg.
    assert (c ∈ flatten (root_ impl)) as Hct.
    { eapply flatten_trans; [by apply flatten_child | done]. }
    pose proof (wf_below _ _ Hwf _ (elem_of_ids _ _ Hct)). lia.
Qed.

Lemma AddItem_RemoveItem_witness :
  ∃ impl,
    view_after [CNew; CAddItem 0 0 "A"; CSetSelectedItemId 0 1] 0 = Some impl ∧
    ∃ impl' n,
      AddItem impl 1 "B" 2 = Some (2, impl', 3) ∧
      ∀ fuel, (n ≤ fuel)%nat → RemoveItem fuel impl' 2 = Some impl.
Proof.
  eexists. split; [vm_compute; reflexivity |].
  eassert (reachable false _) as Hr.
  { eapply (run_reachable 16 [CNew; CAddItem 0 0 "A"; CSetSelectedItemId 0 1]);
      [apply reachable_start | vm_compute; reflexivity]. }
  exact (AddItem_RemoveItem _ 0 _ 1 "B" Hr eq_refl).
Defined.

(** ** After a removal *)

Lemma GetItemChildren_absent impl i :
  id2item_ impl !! i = None → GetItemChildren impl i = Some [].
Proof. intros Hm. unfold GetItemChildren. by rewrite Hm. Qed.

(** X3.  After [RemoveItem] on an identifier that resolves, neither
    that identifier nor the identifier of any item that was below the
    removed one resolves: [GetItemChildren] on it gives the empty
    sequence and another [RemoveItem] on it changes nothing. *)
Theorem RemoveItem_forgets_subtree w k impl i p fuel impl' :
  reachable false w → views w !! k = Some impl →
  id2item_ impl !! i = Some p → RemoveItem fuel impl i = Some impl' →
  ∃ x, deref p (root_ impl) = Some x ∧ id x = i ∧
       ∀ z, z ∈ flatten x →
            id2item_ impl' !! id z = None ∧
            GetItemChildren impl' (id z) = Some [] ∧
            ∀ fuel', RemoveItem (S fuel') impl' (id z) = Some impl'.
Proof.
  intros Hr Hk Hm Hrem. pose proof (reachable_wf _ _ _ _ Hr Hk) as Hwf.
  destruct (RemoveItem_result _ _ _ _ _ Hwf Hrem)
    as [[Hnone _] | (x & Hx & Hi & Hmx & ->)]; [by rewrite Hm in Hnone |].
  exists x. split; [| split; [done |]].
  - rewrite Hm in Hmx. injection Hmx as ->.
    apply deref_elem; [apply Hwf | done].
  - intros z Hz.
    assert (id2item_ (removed impl x) !! id z = None) as Hgone.
    { simpl. rewrite lookup_remove_keys, decide_True; [done |].
      by apply elem_of_ids. }
    split; [done | split; [by apply GetItemChildren_absent |]].
    intros fuel'. by apply RemoveItem_absent.
Qed.

Lemma RemoveItem_forgets_subtree_witness :
  ∃ impl,
    view_after [CNew; CAddItem 0 0 "A"; CAddItem 0 1 "B"; CAddItem 0 1 "C"] 0
      = Some impl ∧
    ∃ impl' x,
      RemoveItem 16 impl 1 = Some impl' ∧ id x = 1 ∧
      ∀ z, z ∈ flatten x → GetItemChildren impl' (id z) = Some [].
Proof.
  eexists. split; [vm_compute; reflexivity |].
  eassert (reachable false _) as Hr.
  { eapply (run_reachable 16
              [CNew; CAddItem 0 0 "A"; CAddItem 0 1 "B"; CAddItem 0 1 "C"]);
      [apply reachable_start | vm_compute; reflexivity]. }
  match goal with
  | |- ∃ impl' x, RemoveItem 16 ?impl 1 = _ ∧ _ =>
      destruct (RemoveItem 16 impl 1) as [impl'|] eqn:Hrem;
        [| by vm_compute in Hrem]
  end.
  destruct (RemoveItem_forgets_subtree _ 0 _ 1 2%positive 16 impl' Hr eq_refl
              eq_refl Hrem) as (x & _ & Hi & Hz).
  exists impl', x. split; [done | split; [exact Hi |]].
  intros z Hin. by destruct (Hz z Hin) as (_ & E & _).
Defined.

(** X4.  [RemoveItem] on the identifier of the root, as long as it
    resolves, returns and leaves the view with an empty lookup table and
    a root without children; the root keeps its identifier, and no
    identifier resolves afterwards, that of the root included. *)
Theorem RemoveItem_root w k impl p :
  reachable false w → views w !! k = Some impl →
  id2item_ impl !! GetRootItem impl = Some p →
  ∃ n impl',
    (∀ fuel, (n ≤ fuel)%nat →
             RemoveItem fuel impl (GetRootItem impl) = Some impl') ∧
    id2item_ impl' = ∅ ∧
    children (root_ impl') = [] ∧
    GetRootItem impl' = GetRootItem impl ∧
    GetItemChildren impl' (GetRootItem impl') = Some [].
Proof.
  intros Hr Hk Hm. pose proof (reachable_wf _ _ _ _ Hr Hk) as Hwf.
  pose proof (wf_shape _ _ Hwf) as Hsh.
  destruct (RemoveItem_wf_eq _ _ _ _ Hwf Hm) as (x & Hx & Hi & Ha & n & Hn).
  assert (x = root_ impl) as ->.
  { apply (same_id x (root_ impl) (root_ impl));
      [apply Hsh | done | apply flatten_self | done]. }
  assert (id2item_ (removed impl (root_ impl)) = ∅) as Hempty.
  { apply map_empty. intros j. simpl. rewrite lookup_remove_keys.
    case_decide as Hj; [done |].
    destruct (id2item_ impl !! j) as [q|] eqn:E; [| done]. destruct Hj.
    apply (wf_sound _ _ Hwf) in E. rewrite ids_entries.
    by apply (list_elem_of_fmap_2' fst _ (j, q)). }
  assert (root_ (removed impl (root_ impl)) = set_children (root_ impl) [])
    as Er.
  { unfold removed. simpl. rewrite (shape_top _ Hsh).
    by rewrite modify_children_unfold, decide_True. }
  exists n, (removed impl (root_ impl)).
  split; [done | split; [done | split; [by rewrite Er | split]]].
  - unfold GetRootItem. by rewrite Er.
  - apply GetItemChildren_absent. rewrite Hempty. apply lookup_empty.
Qed.

Lemma RemoveItem_root_witness :
  ∃ impl,
    view_after [CNew; CAddItem 0 0 "A"; CAddItem 0 1 "B"] 0 = Some impl ∧
    size (id2item_ impl) = 3%nat ∧
    ∃ n impl',
      (∀ fuel, (n ≤ fuel)%nat → RemoveItem fuel impl 0 = Some impl') ∧
      id2item_ impl' = ∅.
Proof.
  eexists. split; [vm_compute; reflexivity |]. split; [reflexivity |].
  eassert (reachable false _) as Hr.
  { eapply (run_reachable 16 [CNew; CAddItem 0 0 "A"; CAddItem 0 1 "B"]);
      [apply reachable_start | vm_compute; reflexivity]. }
  destruct (RemoveItem_root _ 0 _ 1%positive Hr eq_refl eq_refl)
    as (n & impl' & Hn & Hempty & _).
  by exists n, impl'.
Defined.

(** X5.  On every view [RemoveItem] returns, whatever the identifier:
    the loop over the children ends, because the identifier of every
    child resolves.  It writes neither the selection nor the listener,
    and the root keeps its identifier. *)
Theorem RemoveItem_returns w k impl i :
  reachable false w → views w !! k = Some impl →
  ∃ n impl',
    (∀ fuel, (n ≤ fuel)%nat → RemoveItem fuel impl i = Some impl') ∧
    selected_id_ impl' = selected_id_ impl ∧
    on_value_changed_ impl' = on_value_changed_ impl ∧
    GetRootItem impl' = GetRootItem impl.
Proof.
  intros Hr Hk. pose proof (reachable_wf _ _ _ _ Hr Hk) as Hwf.
  destruct (RemoveItem_total _ _ i Hwf) as (n & impl' & Hn).
  exists n, impl'. split; [done |].
  destruct (RemoveItem_result _ _ _ _ _ Hwf (Hn n (le_n n)))
    as [[_ ->] | (x & _ & _ & _ & ->)]; [done |].
  split; [done | split; [done |]]. unfold GetRootItem, removed. simpl.
  destruct (parent x); apply id_modify.
Qed.

Lemma RemoveItem_returns_witness :
  ∃ impl,
    view_after [CNew; CAddItem 0 0 "A"; CAddItem 0 1 "B";
                CSetSelectedItemId 0 2] 0 = Some impl ∧
    ∃ n impl',
      (∀ fuel, (n ≤ fuel)%nat → RemoveItem fuel impl 1 = Some impl') ∧
      selected_id_ impl' = selected_id_ impl.
Proof.
  eexists. split; [vm_compute; reflexivity |].
  eassert (reachable false _) as Hr.
  { eapply (run_reachable 16 [CNew; CAddItem 0 0 "A"; CAddItem 0 1 "B";
                              CSetSelectedItemId 0 2]);
      [apply reachable_start | vm_compute; reflexivity]. }
  destruct (RemoveItem_returns _ 0 _ 1 Hr eq_refl) as (n & impl' & Hn & Hs & _).
  by exists n, impl'.
Defined.

(** ** Selecting a live item *)

(** X6.  The identifier of a live item is never negative and is below
    the counter, so [GetSelectedItemId] after [SetSelectedItemId] on it
    returns it: the test for a negative selection never takes a live
    item for no selection. *)
Theorem select_live_item w k impl i p :
  reachable false w → views w !! k = Some impl →
  id2item_ impl !! i = Some p →
  0 ≤ i < g_next_id w ∧
  GetSelectedItemId (SetSelectedItemId impl i) = i.
Proof.
  intros Hr Hk Hm. pose proof (reachable_wf _ _ _ _ Hr Hk) as Hwf.
  destruct (wf_resolve _ _ _ _ Hwf Hm) as (x & Hx & Hi & _).
  pose proof (wf_below _ _ Hwf _ (elem_of_ids _ _ Hx)) as Hb.
  rewrite Hi in Hb. split; [done |].
  unfold GetSelectedItemId. simpl. by rewrite decide_False by lia.
Qed.

Lemma select_live_item_witness :
  ∃ impl,
    view_after [CNew; CNew; CAddItem 1 1 "A"] 1 = Some impl ∧
    GetSelectedItemId (SetSelectedItemId impl 2) = 2.
Proof.
  eexists. split; [vm_compute; reflexivity |].
  eassert (reachable false _) as Hr.
  { eapply (run_reachable 16 [CNew; CNew; CAddItem 1 1 "A"]);
      [apply reachable_start | vm_compute; reflexivity]. }
  by destruct (select_live_item _ 1 _ 2 2%positive Hr eq_refl eq_refl).
Defined.

(** ** The siblings of a removed item *)

Lemma filter_ids_keep (l : list Item) i :
  (∀ z, z ∈ l → id z ≠ i) → filter (λ j, j ≠ i) (id <$> l) = id <$> l.
Proof.
  induction l as [|c l IH]; intros Hl; [done |].
  rewrite fmap_cons, filter_cons_True by (apply Hl; left).
  f_equal. apply IH. intros z Hz. apply Hl. by right.
Qed.

(** What is left in the tree after [x] is erased has not the identifier
    of an item of the subtree of [x]. *)
Lemma erased_ids_gone t y x z z' :
  shape t → y ∈ flatten t → x ∈ children y →
  z ∈ flatten x →
  z' ∈ flatten (modify_children (addr y) (erase_id (id x)) t) →
  id z' ≠ id z.
Proof.
  intros Hsh Hy Hx Hz Hz' Heq.
  destruct (erase_child _ y x Hsh Hy Hx) as (L1 & L2 & Et & Et' & _).
  assert ((id z', addr z') ∈ L1 ++ L2) as Hin.
  { rewrite <- Et'. apply elem_of_entries. by exists z'. }
  apply (key_not_dropped L1 (entries x) L2) in Hin.
  - apply Hin. rewrite <- ids_entries, Heq. by apply elem_of_ids.
  - rewrite <- Et, <- ids_entries. apply Hsh.
Qed.

(** X7.  When [i] and [j] are two live siblings, what [GetItemChildren]
    gives for [j] after [RemoveItem] on [i] is what it gave before,
    without [i] and in the same order. *)
Theorem GetItemChildren_after_RemoveItem w k impl i p j q l fuel impl' :
  reachable false w → views w !! k = Some impl →
  id2item_ impl !! i = Some p → id2item_ impl !! j = Some q → j ≠ i →
  GetItemChildren impl j = Some l → i ∈ l →
  RemoveItem fuel impl i = Some impl' →
  GetItemChildren impl' j = Some (filter (λ m, m ≠ i) l).
Proof.
  intros Hr Hk Hi Hj Hne HG Hil Hrem.
  pose proof (reachable_wf _ _ _ _ Hr Hk) as Hwf.
  pose proof (wf_shape _ _ Hwf) as Hsh.
  destruct (wf_resolve _ _ _ _ Hwf Hj) as (z & Hz & Hzj & Hzq & Hdz).
  unfold GetItemChildren in HG. rewrite Hj, Hdz in HG. simpl in HG.
  destruct (flatten_owner _ _ Hz) as [-> | (y & Hy & Hzy)].
  { rewrite (shape_top _ Hsh) in HG. injection HG as <-.
    by apply elem_of_nil in Hil. }
  pose proof (shape_parents _ Hsh y z Hy Hzy) as Hpz. rewrite Hpz in HG.
  rewrite (deref_elem _ _ (shape_addrs _ Hsh) Hy) in HG. simpl in HG.
  injection HG as <-.
  apply list_elem_of_fmap in Hil as (x & Hxi & Hxy).
  assert (x ∈ flatten (root_ impl)) as Hx.
  { eapply flatten_trans; [by apply flatten_child | done]. }
  destruct (RemoveItem_result _ _ _ _ _ Hwf Hrem)
    as [[Hnone _] | (x' & Hx' & Hi' & _ & ->)]; [by rewrite Hi in Hnone |].
  assert (x' = x) as ->.
  { apply (same_id x' x (root_ impl)); [apply Hsh | done | done | congruence]. }
  pose proof (removed_wf _ _ x Hwf Hx) as Hwf'.
  pose proof (shape_addrs _ (wf_shape _ _ Hwf')) as Hnd'.
  pose proof (shape_parents _ Hsh y x Hy Hxy) as Hpx.
  assert (root_ (removed impl x)
          = modify_children (addr y) (erase_id (id x)) (root_ impl)) as Er.
  { unfold removed. simpl. by rewrite Hpx. }
  assert (set_children y (erase_id (id x) (children y))
          ∈ flatten (root_ (removed impl x))) as Hy'.
  { rewrite Er.
    apply (modify_children_elem (erase_id (id x)) y (root_ impl));
      [apply Hsh | done]. }
  destruct (erase_id_split x (children y) Hxy) as (k1 & k2 & Hsplit & Herase).
  { intros c Hc Hid. apply (same_id c x (root_ impl)); [apply Hsh | | done | done].
    eapply flatten_trans; [by apply flatten_child | done]. }
  assert (∀ c, c ∈ k1 ++ k2 → id c ≠ id x) as Hrest.
  { intros c Hc. apply (erased_ids_gone (root_ impl) y x x c Hsh Hy Hxy);
      [apply flatten_self |].
    rewrite <- Er. eapply flatten_trans; [| exact Hy'].
    apply flatten_child. simpl. by rewrite Herase. }
  assert (z ∈ k1 ++ k2) as Hzk.
  { rewrite Hsplit in Hzy. rewrite elem_of_app, elem_of_cons in Hzy.
    rewrite elem_of_app. destruct Hzy as [? | [-> | ?]]; [by left | | by right].
    congruence. }
  assert (z ∈ flatten (root_ (removed impl x))) as Hz'.
  { eapply flatten_trans; [| exact Hy']. apply flatten_child. simpl.
    by rewrite Herase. }
  unfold GetItemChildren.
  assert (id2item_ (removed impl x) !! j = Some q) as Hj'.
  { simpl. rewrite lookup_remove_keys, decide_False; [done |].
    intros (c & Hcj & Hc)%list_elem_of_fmap.
    apply (erased_ids_gone (root_ impl) y x c z Hsh Hy Hxy Hc);
      [by rewrite <- Er | congruence]. }
  assert (deref (addr y) (root_ (removed impl x))
          = Some (set_children y (erase_id (id x) (children y)))) as Hdy
    by exact (deref_elem _ _ Hnd' Hy').
  rewrite Hj', <- Hzq, (deref_elem _ _ Hnd' Hz'). cbn [mbind option_bind].
  rewrite Hpz, Hdy. cbn [mbind option_bind set_children children]. f_equal.
  rewrite Herase, Hsplit, !fmap_app, fmap_cons, !filter_app.
  rewrite filter_cons_False by (intros H; by apply H).
  rewrite !filter_ids_keep; [done | |].
  - intros c Hc. rewrite Hxi. apply Hrest, elem_of_app. by right.
  - intros c Hc. rewrite Hxi. apply Hrest, elem_of_app. by left.
Qed.

Lemma GetItemChildren_after_RemoveItem_witness :
  ∃ impl,
    view_after [CNew; CAddItem 0 0 "A"; CAddItem 0 0 "B"; CAddItem 0 0 "C"] 0
      = Some impl ∧
    GetItemChildren impl 3 = Some [1; 2; 3] ∧
    ∃ impl', RemoveItem 16 impl 2 = Some impl' ∧
             GetItemChildren impl' 3 = Some [1; 3].
Proof.
  eexists. split; [vm_compute; reflexivity |]. split; [reflexivity |].
  eassert (reachable false _) as Hr.
  { eapply (run_reachable 16
              [CNew; CAddItem 0 0 "A"; CAddItem 0 0 "B"; CAddItem 0 0 "C"]);
      [apply reachable_start | vm_compute; reflexivity]. }
  match goal with
  | |- ∃ impl', RemoveItem 16 ?impl 2 = _ ∧ _ =>
      destruct (RemoveItem 16 impl 2) as [impl'|] eqn:Hrem;
        [| by vm_compute in Hrem]
  end.
  exists impl'. split; [done |].
  apply (GetItemChildren_after_RemoveItem _ 0 _ 2 3%positive 3 4%positive
           [1; 2; 3] 16 impl' Hr eq_refl eq_refl eq_refl);
    [done | reflexivity | | exact Hrem].
  right. left.
Defined.

(** ** What a pass leaves alone *)

(** X8.  A pass that calls no listener, because none is set or because
    no item is activated, writes nothing but the selection: the tree,
    the lookup table and the listener are as before, and so is what
    [GetRootItem] and [GetItemChildren] return.  What a listener does
    when a pass calls it is not part of the pass. *)
Theorem Draw_keeps_store ui impl impl' r evs :
  Draw ui impl = Some (impl', r, evs) →
  on_value_changed_ impl = None ∨ r = NONE →
  calls evs = [] ∧
  root_ impl' = root_ impl ∧ id2item_ impl' = id2item_ impl ∧
  on_value_changed_ impl' = on_value_changed_ impl ∧
  GetRootItem impl' = GetRootItem impl ∧
  ∀ i, GetItemChildren impl' i = GetItemChildren impl i.
Proof.
  intros Hdraw Hsilent.
  destruct (Draw_store _ _ _ _ _ Hdraw) as (Er & Em & Hl).
  split; [| split; [done | split; [done | split; [done | split]]]].
  - destruct (DrawTop_spec ui (children (root_ impl)) (mkWalk impl None []))
      as (Ep & walk & Ew & Hwalk).
    rewrite foldl_pick in Ep. simpl in Ew. unfold Draw in Hdraw.
    set (w := DrawTop ui (children (root_ impl)) (mkWalk impl None [])) in *.
    assert (on_value_changed_ (w_impl w) = on_value_changed_ impl) as El.
    { unfold picked in Ep.
      destruct (last (children (root_ impl) ≫= clicks ui));
        by injection Ep as -> _. }
    assert (evs = w_events w ++ []) as ->.
    { unfold notify in Hdraw. rewrite El in Hdraw.
      destruct (w_new_selection w) as [a|].
      - destruct Hsilent as [Hnone | ->].
        + rewrite Hnone in Hdraw. by injection Hdraw as _ _ <-.
        + destruct (on_value_changed_ impl); [| done].
          destruct (deref a (root_ (w_impl w))); [| done]. done.
      - by injection Hdraw as _ _ <-. }
    rewrite app_nil_r, Ew. by apply calls_quiet.
  - unfold GetRootItem. by rewrite Er.
  - intros i. unfold GetItemChildren. by rewrite Er, Em.
Qed.

Lemma Draw_keeps_store_witness :
  ∃ impl impl' r evs,
    view_after [CNew; CAddItem 0 0 "A"; CAddItem 0 0 "B"] 0 = Some impl ∧
    Draw (mkFrame (λ _, true) (λ a, bool_decide (a = 3%positive))) impl
      = Some (impl', r, evs) ∧
    on_value_changed_ impl = None ∧
    selected_id_ impl' = 2 ∧ calls evs = [] ∧ root_ impl' = root_ impl.
Proof.
  eexists _, _, _, _. split; [vm_compute; reflexivity |].
  split; [vm_compute; reflexivity |]. split; [reflexivity |].
  split; [reflexivity |].
  pose (ui := mkFrame (λ _, true) (λ a, bool_decide (a = 3%positive))).
  match goal with
  | |- calls ?evs = [] ∧ root_ ?impl' = root_ ?impl =>
      destruct (Draw_keeps_store ui impl impl' REDRAW evs
                  ltac:(vm_compute; reflexivity) (or_introl eq_refl))
        as (Hc & Er & _)
  end.
  split; [exact Hc | exact Er].
Defined.

(** ** What a pass shows *)

Lemma bind_sublist_pointwise {A B} (f g : A → list B) l :
  Forall (λ x, f x `sublist_of` g x) l → l ≫= f `sublist_of` l ≫= g.
Proof.
  induction 1 as [|x l Hx _ IH]; [done |]. rewrite !bind_cons.
  by apply sublist_app.
Qed.

Lemma filter_bind {A B} (P : B → Prop) `{!∀ x, Decision (P x)}
    (f : A → list B) l :
  filter P (l ≫= f) = l ≫= (λ x, filter P (f x)).
Proof.
  induction l as [|x l IH]; [done |]. by rewrite !bind_cons, filter_app, IH.
Qed.

Lemma filter_none {A} (P : A → Prop) `{!∀ x, Decision (P x)} l :
  (∀ x, x ∈ l → ¬ P x) → filter P l = [].
Proof.
  induction l as [|x l IH]; intros Hl; [done |].
  rewrite filter_cons_False by (apply Hl; left).
  apply IH. intros z Hz. apply Hl. by right.
Qed.

(** The one item of a list that satisfies [P]. *)
Lemma filter_unique (P : Item → Prop) `{!∀ x, Decision (P x)} l x :
  NoDup (addr <$> l) → x ∈ l → P x →
  (∀ z, z ∈ l → P z → addr z = addr x) → filter P l = [x].
Proof.
  induction l as [|c l IH]; intros Hnd Hx HP Huniq; [by apply elem_of_nil in Hx |].
  rewrite fmap_cons in Hnd. apply NoDup_cons in Hnd as [Hc Hnd].
  destruct (decide (addr c = addr x)) as [Hcx | Hcx].
  - assert (c = x) as ->.
    { apply elem_of_cons in Hx as [-> | Hx]; [done |]. destruct Hc.
      rewrite Hcx. by apply list_elem_of_fmap_2. }
    rewrite filter_cons_True by done. f_equal. apply filter_none.
    intros z Hz HPz. apply Hc. rewrite <- (Huniq z); [| by right | done].
    by apply list_elem_of_fmap_2.
  - rewrite filter_cons_False.
    + apply IH; [done | | done |].
      * apply elem_of_cons in Hx as [-> | Hx]; done.
      * intros z Hz. apply Huniq. by right.
    + intros HPc. apply Hcx, Huniq; [left | done].
Qed.

Section show.

Context (ui : Frame).

Lemma drawn_unfold item :
  drawn ui item =
    item :: (if node_open ui (addr item) then children item ≫= drawn ui else []).
Proof. by destruct item. Qed.

(** What a pass draws is part of the tree, in the order of the tree. *)
Lemma drawn_sublist item : drawn ui item `sublist_of` flatten item.
Proof.
  induction item as [a i t par cs IH] using Item_ind'.
  rewrite drawn_unfold, flatten_unfold. apply sublist_skip. simpl.
  destruct (node_open ui a); [| apply sublist_nil_l].
  by apply bind_sublist_pointwise.
Qed.

Lemma drawn_tops_sublist (tops : list Item) :
  tops ≫= drawn ui `sublist_of` tops ≫= flatten.
Proof.
  apply bind_sublist_pointwise, Forall_forall. intros item _.
  apply drawn_sublist.
Qed.

Lemma drawn_tops_flatten (t x : Item) :
  x ∈ children t ≫= drawn ui → x ∈ flatten t.
Proof.
  intros Hx. rewrite flatten_unfold. right.
  eapply elem_of_sublist; [done | apply drawn_tops_sublist].
Qed.

(** The leaves a pass activates are the drawn items that are clicked
    and have no children. *)
Lemma clicks_drawn item :
  clicks ui item =
    filter (λ x, Is_true (IsItemClicked ui (addr x) && is_leaf (children x)))
           (drawn ui item).
Proof.
  induction item as [a i t par cs IH] using Item_ind'.
  rewrite clicks_unfold, drawn_unfold. simpl.
  assert ((if node_open ui a then cs ≫= clicks ui else [])
          = filter (λ x, Is_true (IsItemClicked ui (addr x)
                                  && is_leaf (children x)))
                   (if node_open ui a then cs ≫= drawn ui else [])) as ->.
  { destruct (node_open ui a); [| done]. rewrite filter_bind.
    by apply Forall_bind_ext. }
  destruct (IsItemClicked ui a && is_leaf cs) eqn:E.
  - rewrite filter_cons_True; [done |]. cbn [addr children]. by rewrite E.
  - rewrite filter_cons_False; [done |]. cbn [addr children]. rewrite E.
    by intros [].
Qed.

Lemma submitted_emit e w :
  submitted (w_events (emit e w)) = submitted (w_events w) ++ submitted [e].
Proof. apply omap_app. Qed.

Lemma pops_emit e w :
  pops (w_events (emit e w)) = (pops (w_events w) + pops [e])%nat.
Proof. unfold pops. simpl. by rewrite omap_app, length_app. Qed.

Lemma rects_emit e w :
  rects (w_events (emit e w)) = rects (w_events w) ++ rects [e].
Proof. apply omap_app. Qed.

Lemma fold_shows cs :
  Forall (shows ui) cs →
  ∀ w,
    submitted (w_events (fold_left (λ w c, DrawItem ui c w) cs w))
      = submitted (w_events w) ++ (node_info <$> (cs ≫= drawn ui)) ∧
    pops (w_events (fold_left (λ w c, DrawItem ui c w) cs w))
      = (pops (w_events w)
         + length (filter (λ x, Is_true (node_open ui (addr x)))
                          (cs ≫= drawn ui)))%nat.
Proof.
  induction 1 as [|c cs Hc _ IH]; intros w.
  - simpl. by rewrite app_nil_r, Nat.add_0_r.
  - destruct (Hc w) as [Es Ep]. destruct (IH (DrawItem ui c w)) as [Es' Ep'].
    cbn [fold_left]. rewrite bind_cons.
    rewrite Es', Ep', Es, Ep, fmap_app, filter_app, length_app. split; [| lia].
    by rewrite app_assoc.
Qed.

Lemma DrawItem_shows item : shows ui item.
Proof.
  induction item as [a i t par cs IH] using Item_ind'. intros w.
  pose proof (fold_shows cs IH) as IHcs. clear IH. simpl.
  set (w1 := if decide (i = selected_id_ (w_impl w))
             then emit (SelectionRect i) w else w).
  assert (submitted (w_events w1) = submitted (w_events w) ∧
          pops (w_events w1) = pops (w_events w)) as [Es1 Ep1].
  { unfold w1. case_decide; [| done].
    rewrite submitted_emit, pops_emit.
    change (submitted [SelectionRect i]) with (@nil (string * bool)).
    change (pops [SelectionRect i]) with 0%nat.
    by rewrite app_nil_r, Nat.add_0_r. }
  set (w2 := emit (TreeNodeEx t (is_leaf cs)) w1).
  set (w3 := if IsItemClicked ui a && is_leaf cs then activate a i w2 else w2).
  assert (w_events w3 = w_events w2) as Ew3
    by (unfold w3; by destruct (_ && _)).
  assert (submitted (w_events w3)
          = submitted (w_events w) ++ [(t, is_leaf cs)] ∧
          pops (w_events w3) = pops (w_events w)) as [Es3 Ep3].
  { rewrite Ew3. unfold w2. rewrite submitted_emit, pops_emit, Es1, Ep1.
    split; [done |]. change (pops [TreeNodeEx t (is_leaf cs)]) with 0%nat. lia. }
  destruct (node_open ui a) eqn:Hopen.
  - destruct (IHcs w3) as [Es Ep].
    rewrite submitted_emit, pops_emit, Es, Ep, Es3, Ep3.
    rewrite filter_cons_True by (cbn [addr]; by rewrite Hopen).
    change (submitted [TreePop]) with (@nil (string * bool)).
    change (pops [TreePop]) with 1%nat.
    rewrite app_nil_r, <- app_assoc. split; [done |].
    cbn [length]. lia.
  - fold w3. rewrite Es3, Ep3.
    rewrite filter_cons_False by (cbn [addr]; rewrite Hopen; by intros []).
    split; [done |]. cbn [filter list_filter length]. lia.
Qed.

End show.

(** X9.  A pass submits to ImGui, once each and in the order of the
    tree, the items all of whose ancestors below the root have their
    node open, each with its text and with the leaf flag when it has no
    children; the root itself is not submitted.  It calls [TreePop] as
    many times as [TreeNodeEx] has returned true. *)
Theorem Draw_submits ui impl impl' r evs :
  Draw ui impl = Some (impl', r, evs) →
  submitted evs = node_info <$> (children (root_ impl) ≫= drawn ui) ∧
  pops evs
    = length (filter (λ x, Is_true (node_open ui (addr x)))
                     (children (root_ impl) ≫= drawn ui)).
Proof.
  unfold Draw, DrawTop. intros Hdraw.
  destruct (fold_shows ui (children (root_ impl)))
    with (w := mkWalk impl None []) as [Es Ep].
  { apply Forall_forall. intros item _. apply DrawItem_shows. }
  simpl in Es, Ep.
  set (w := fold_left (λ w top, DrawItem ui top w) (children (root_ impl))
                      (mkWalk impl None [])) in *.
  assert (∃ cs, evs = w_events w ++ cs ∧ submitted cs = [] ∧ pops cs = 0%nat)
    as (cs & -> & Hs & Hp).
  { unfold notify in Hdraw. destruct (w_new_selection w).
    - destruct (on_value_changed_ (w_impl w)).
      + destruct (deref _ _); [| done]. simpl in Hdraw.
        injection Hdraw as _ _ <-. by eexists.
      + injection Hdraw as _ _ <-. by eexists.
    - injection Hdraw as _ _ <-. by eexists. }
  assert (pops (w_events w ++ cs) = (pops (w_events w) + pops cs)%nat) as ->
    by (unfold pops; by rewrite omap_app, length_app).
  assert (submitted (w_events w ++ cs) = submitted (w_events w) ++ submitted cs)
    as -> by apply omap_app.
  rewrite Es, Ep, Hs, Hp, app_nil_r. split; [done | lia].
Qed.

Lemma Draw_submits_witness :
  ∃ impl,
    view_after [CNew; CAddItem 0 0 "A"; CAddItem 0 1 "B"; CAddItem 0 0 "C"] 0
      = Some impl ∧
    ∃ impl' r evs,
      Draw (mkFrame (λ a, bool_decide (a ≠ 2%positive)) (λ _, false)) impl
        = Some (impl', r, evs) ∧
      submitted evs = [("A##1", false); ("C##3", true)] ∧ pops evs = 1%nat.
Proof.
  eexists. split; [vm_compute; reflexivity |].
  match goal with
  | |- ∃ impl' r evs, Draw ?ui ?impl = _ ∧ _ =>
      destruct (Draw ui impl) as [[[impl' r] evs]|] eqn:Hdraw;
        [| by vm_compute in Hdraw]
  end.
  exists impl', r, evs. split; [done |].
  destruct (Draw_submits _ _ _ _ _ Hdraw) as [-> ->]. by vm_compute.
Defined.

(** ** A click on a leaf *)

Lemma bind_addrs (l : list Item) : l ≫= addrs = addr <$> (l ≫= flatten).
Proof.
  induction l as [|c l IH]; [done |]. by rewrite !bind_cons, fmap_app, IH.
Qed.

Lemma bind_ids (l : list Item) : l ≫= ids = id <$> (l ≫= flatten).
Proof.
  induction l as [|c l IH]; [done |]. by rewrite !bind_cons, fmap_app, IH.
Qed.

(** X10.  A pass in which a drawn item without children is clicked, and
    no other drawn item without children is, makes that item the
    selection, returns [REDRAW] and calls the listener, when there is
    one, once and after the walk, with the text and the identifier of
    the item; [GetSelectedItemId] returns that identifier afterwards.
    It does so whether or not the item was selected already. *)
Theorem click_on_leaf w k impl ui x :
  reachable false w → views w !! k = Some impl →
  x ∈ children (root_ impl) ≫= drawn ui →
  children x = [] → IsItemClicked ui (addr x) = true →
  (∀ z, z ∈ children (root_ impl) ≫= drawn ui → children z = [] →
        IsItemClicked ui (addr z) = true → addr z = addr x) →
  ∃ walk,
    Forall no_call walk ∧
    Draw ui impl =
      Some (SetSelectedItemId impl (id x), REDRAW,
            walk ++ match on_value_changed_ impl with
                    | Some f => [ValueChanged f (text x) (id x)]
                    | None => []
                    end) ∧
    GetSelectedItemId (SetSelectedItemId impl (id x)) = id x.
Proof.
  intros Hr Hk Hx Hleaf Hclick Honly.
  pose proof (reachable_wf _ _ _ _ Hr Hk) as Hwf.
  pose proof (wf_shape _ _ Hwf) as Hsh.
  assert (children (root_ impl) ≫= clicks ui = [x]) as Hclicks.
  { rewrite (list_bind_ext (clicks ui)
               (λ item, filter (λ z, Is_true (IsItemClicked ui (addr z)
                                              && is_leaf (children z)))
                               (drawn ui item))
               (children (root_ impl)) (children (root_ impl)));
      [| intros item; apply clicks_drawn | done].
    rewrite <- filter_bind. apply filter_unique.
    - eapply sublist_NoDup; [| apply fmap_sublist, drawn_tops_sublist].
      pose proof (shape_addrs _ Hsh) as Hnd.
      rewrite addrs_unfold in Hnd. apply NoDup_cons in Hnd as [_ Hnd].
      by rewrite <- bind_addrs.
    - done.
    - by rewrite Hclick, Hleaf.
    - intros z Hz HP. apply andb_prop_elim in HP as [Hc Hl].
      apply Honly; [done | | by apply Is_true_eq_true].
      by destruct (children z). }
  destruct (Draw_eq ui impl (shape_addrs _ Hsh)) as (walk & _ & Hwalk & Hdraw).
  rewrite Hclicks in Hdraw. simpl in Hdraw.
  exists walk. split; [done | split; [done |]].
  pose proof (wf_below _ _ Hwf _ (elem_of_ids _ _ (drawn_tops_flatten ui _ _ Hx))).
  unfold GetSelectedItemId. simpl. by rewrite decide_False by lia.
Qed.

Lemma click_on_leaf_witness :
  ∃ impl,
    view_after [CNew; CAddItem 0 0 "A"; CAddItem 0 1 "B";
                CSetSelectedItemId 0 2; CSetOnValueChanged 0 (Some 7%nat)] 0
      = Some impl ∧
    ∃ walk,
      Draw (mkFrame (λ _, true) (λ a, bool_decide (a = 3%positive))) impl
        = Some (SetSelectedItemId impl 2, REDRAW,
                walk ++ [ValueChanged 7 "B##2" 2]).
Proof.
  eexists. split; [vm_compute; reflexivity |].
  eassert (reachable false _) as Hr.
  { eapply (run_reachable 16 [CNew; CAddItem 0 0 "A"; CAddItem 0 1 "B";
                              CSetSelectedItemId 0 2;
                              CSetOnValueChanged 0 (Some 7%nat)]);
      [apply reachable_start | vm_compute; reflexivity]. }
  destruct (click_on_leaf _ 0 _
              (mkFrame (λ _, true) (λ a, bool_decide (a = 3%positive)))
              (mkItem 3 2 "B##2" (Some 2%positive) []) Hr eq_refl)
    as (walk & _ & Hdraw & _).
  - vm_compute. right. left.
  - reflexivity.
  - reflexivity.
  - intros z _ _ Hc. simpl in Hc. by apply bool_decide_eq_true in Hc.
  - exists walk. exact Hdraw.
Defined.

(** ** The selection rectangle *)

Lemma selected_after_DrawItem ui item w :
  selected_id_ (w_impl (DrawItem ui item w)) =
    match last (clicks ui item) with
    | Some x => id x
    | None => selected_id_ (w_impl w)
    end.
Proof.
  destruct (DrawItem_spec ui item w) as [Ep _]. rewrite foldl_pick in Ep.
  unfold picked in Ep. simpl in Ep.
  destruct (last (clicks ui item)); by injection Ep as -> _.
Qed.

Lemma fold_rects ui cs :
  Forall (λ item, NoDup (ids item) → ∀ w,
    ∃ R, rects (w_events (DrawItem ui item w)) = rects (w_events w) ++ R ∧
         Forall (λ j, j = selected_id_ (w_impl w) ∧
                      ∃ x, x ∈ drawn ui item ∧ id x = j) R) cs →
  NoDup (cs ≫= ids) →
  ∀ w,
    ∃ R, rects (w_events (fold_left (λ w c, DrawItem ui c w) cs w))
           = rects (w_events w) ++ R ∧
         Forall (λ j, j = selected_id_ (w_impl w) ∧
                      ∃ x, x ∈ cs ≫= drawn ui ∧ id x = j) R.
Proof.
  induction 1 as [|c cs Hc _ IH]; intros Hnd w.
  - exists []. simpl. by rewrite app_nil_r.
  - rewrite bind_cons in Hnd. apply NoDup_app in Hnd as (Hndc & Hdis & Hndcs).
    destruct (Hc Hndc w) as (R1 & E1 & H1).
    destruct (IH Hndcs (DrawItem ui c w)) as (R2 & E2 & H2).
    exists (R1 ++ R2). cbn [fold_left]. rewrite E2, E1, app_assoc.
    split; [done |]. apply Forall_app. split.
    + eapply Forall_impl; [exact H1 |]. intros j (Hj & x & Hx & Hi).
      split; [done |]. exists x. split; [| done].
      rewrite bind_cons. apply elem_of_app. by left.
    + eapply Forall_impl; [exact H2 |]. intros j (Hj & x & Hx & Hi).
      assert (∃ x', x' ∈ cs ≫= drawn ui ∧ id x' = j) as Hdrawn by by exists x.
      split.
      * rewrite selected_after_DrawItem in Hj.
        destruct (last (clicks ui c)) as [y|] eqn:Hlast; [| done].
        exfalso. apply (Hdis j).
        -- rewrite Hj. apply elem_of_ids.
           eapply clicks_flatten. by apply last_Some_elem_of.
        -- rewrite bind_ids, <- Hi. apply list_elem_of_fmap_2.
           eapply elem_of_sublist; [done | apply drawn_tops_sublist].
      * exists x. split; [| done]. rewrite bind_cons. apply elem_of_app. by right.
Qed.

Lemma DrawItem_rects ui item :
  NoDup (ids item) → ∀ w,
    ∃ R, rects (w_events (DrawItem ui item w)) = rects (w_events w) ++ R ∧
         Forall (λ j, j = selected_id_ (w_impl w) ∧
                      ∃ x, x ∈ drawn ui item ∧ id x = j) R.
Proof.
  induction item as [a i t par cs IH] using Item_ind'. intros Hnd w.
  rewrite ids_unfold in Hnd. apply NoDup_cons in Hnd as [_ Hnd]. simpl in Hnd.
  pose proof (fold_rects ui cs IH Hnd) as IHcs. clear IH.
  set (item := mkItem a i t par cs).
  assert (item ∈ drawn ui item) as Hself by (rewrite drawn_unfold; left).
  set (w1 := if decide (i = selected_id_ (w_impl w))
             then emit (SelectionRect i) w else w).
  assert (∃ R, rects (w_events w1) = rects (w_events w) ++ R ∧
               Forall (λ j, j = selected_id_ (w_impl w) ∧
                            ∃ x, x ∈ drawn ui item ∧ id x = j) R ∧
               w_impl w1 = w_impl w) as (R1 & E1 & H1 & Ei1).
  { unfold w1. case_decide as Hsel.
    - exists [i]. rewrite rects_emit. split; [done | split; [| done]].
      apply Forall_singleton. split; [done |]. by exists item.
    - exists []. by rewrite app_nil_r. }
  set (w2 := emit (TreeNodeEx t (is_leaf cs)) w1).
  set (w3 := if IsItemClicked ui a && is_leaf cs then activate a i w2 else w2).
  assert (rects (w_events w3) = rects (w_events w) ++ R1) as E3.
  { replace (w_events w3) with (w_events w2)
      by (unfold w3; by destruct (_ && _)).
    unfold w2. rewrite rects_emit, E1.
    change (rects [TreeNodeEx t (is_leaf cs)]) with (@nil Z).
    by rewrite app_nil_r. }
  assert (cs ≠ [] → selected_id_ (w_impl w3) = selected_id_ (w_impl w)) as Hs3.
  { intros Hcs. unfold w3. destruct cs; [done |].
    rewrite andb_false_r. unfold w2. simpl. by rewrite Ei1. }
  assert (DrawItem ui item w =
          if node_open ui a
          then emit TreePop (fold_left (λ w c, DrawItem ui c w) cs w3)
          else w3) as -> by reflexivity.
  destruct (node_open ui a) eqn:Hopen.
  - destruct (IHcs w3) as (R & E & HR). exists (R1 ++ R).
    rewrite rects_emit, E, E3. change (rects [TreePop]) with (@nil Z).
    rewrite app_nil_r, app_assoc. split; [done |].
    apply Forall_app. split; [done |].
    eapply Forall_impl; [exact HR |]. intros j (Hj & x & Hx & Hi). split.
    + rewrite Hj. apply Hs3. intros ->. by apply elem_of_nil in Hx.
    + exists x. split; [| done]. rewrite drawn_unfold. simpl. rewrite Hopen.
      by right.
  - exists R1. by rewrite E3.
Qed.

Lemma highlights_app ui s l1 l2 :
  highlights ui s (l1 ++ l2)
    = highlights ui s l1 ++ highlights ui (foldl (selecting ui) s l1) l2.
Proof.
  revert s. induction l1 as [|x l1 IH]; intros s; [done |].
  simpl. by rewrite IH, app_assoc.
Qed.

Lemma fold_highlights ui cs :
  Forall (λ item, ∀ w,
    selected_id_ (w_impl (DrawItem ui item w))
      = foldl (selecting ui) (selected_id_ (w_impl w)) (drawn ui item) ∧
    rects (w_events (DrawItem ui item w))
      = rects (w_events w)
        ++ highlights ui (selected_id_ (w_impl w)) (drawn ui item)) cs →
  ∀ w,
    selected_id_ (w_impl (fold_left (λ w c, DrawItem ui c w) cs w))
      = foldl (selecting ui) (selected_id_ (w_impl w)) (cs ≫= drawn ui) ∧
    rects (w_events (fold_left (λ w c, DrawItem ui c w) cs w))
      = rects (w_events w)
        ++ highlights ui (selected_id_ (w_impl w)) (cs ≫= drawn ui).
Proof.
  induction 1 as [|c cs Hc _ IH]; intros w.
  - split; [done |]. simpl. by rewrite app_nil_r.
  - destruct (Hc w) as [Es Er]. destruct (IH (DrawItem ui c w)) as [Es' Er'].
    cbn [fold_left]. rewrite bind_cons, foldl_app, highlights_app.
    rewrite Es', Er', Es, Er. by rewrite app_assoc.
Qed.

(** The rectangles of the walk through an item are those of its drawn
    items, taken in order. *)
Lemma DrawItem_highlights ui item w :
  selected_id_ (w_impl (DrawItem ui item w))
    = foldl (selecting ui) (selected_id_ (w_impl w)) (drawn ui item) ∧
  rects (w_events (DrawItem ui item w))
    = rects (w_events w)
      ++ highlights ui (selected_id_ (w_impl w)) (drawn ui item).
Proof.
  revert w. induction item as [a i t par cs IH] using Item_ind'. intros w.
  pose proof (fold_highlights ui cs IH) as IHcs. clear IH.
  set (item := mkItem a i t par cs).
  set (w1 := if decide (i = selected_id_ (w_impl w))
             then emit (SelectionRect i) w else w).
  set (w2 := emit (TreeNodeEx t (is_leaf cs)) w1).
  set (w3 := if IsItemClicked ui a && is_leaf cs then activate a i w2 else w2).
  assert (DrawItem ui item w =
          if node_open ui a
          then emit TreePop (fold_left (λ w c, DrawItem ui c w) cs w3)
          else w3) as -> by reflexivity.
  assert (selected_id_ (w_impl w3)
          = selecting ui (selected_id_ (w_impl w)) item) as E3.
  { unfold w3, selecting. cbn [addr children id item].
    destruct (IsItemClicked ui a && is_leaf cs); [done |].
    unfold w2, w1. by case_decide. }
  assert (rects (w_events w3)
          = rects (w_events w)
            ++ (if decide (i = selected_id_ (w_impl w)) then [i] else []))
    as R3.
  { replace (w_events w3) with (w_events w2)
      by (unfold w3; by destruct (_ && _)).
    unfold w2. rewrite rects_emit.
    change (rects [TreeNodeEx t (is_leaf cs)]) with (@nil Z).
    rewrite app_nil_r. unfold w1. case_decide.
    - by rewrite rects_emit.
    - by rewrite app_nil_r. }
  rewrite drawn_unfold.
  change (node_open ui (addr item)) with (node_open ui a).
  change (children item) with cs.
  cbn [foldl highlights]. change (id item) with i. rewrite <- E3.
  destruct (node_open ui a).
  - destruct (IHcs w3) as [Es Er]. split; [exact Es |].
    rewrite rects_emit, Er, R3. change (rects [TreePop]) with (@nil Z).
    by rewrite app_nil_r, app_assoc.
  - split; [done |]. simpl. by rewrite app_nil_r.
Qed.

(** No rectangle for an identifier that no item of the walk has. *)
Lemma highlights_absent ui l s :
  NoDup (id <$> l) → s ∉ id <$> l → highlights ui s l = [].
Proof.
  revert s. induction l as [|x l IH]; intros s Hnd Hs; [done |].
  rewrite fmap_cons in Hnd, Hs. apply NoDup_cons in Hnd as [Hx Hnd].
  apply not_elem_of_cons in Hs as [Hne Hs].
  cbn [highlights]. rewrite decide_False by done. simpl. apply IH; [done |].
  unfold selecting. by destruct (_ && _).
Qed.

(** One rectangle for the selected item, unless an item without
    children was clicked before the walk reaches it. *)
Lemma highlights_at ui l1 x l2 :
  NoDup (id <$> (l1 ++ x :: l2)) →
  highlights ui (id x) (l1 ++ x :: l2)
    = if forallb (λ z, negb (IsItemClicked ui (addr z) && is_leaf (children z)))
                 l1
      then [id x] else [].
Proof.
  induction l1 as [|y l1 IH]; intros Hnd.
  - simpl in *. rewrite decide_True by done.
    apply NoDup_cons in Hnd as [Hx Hnd]. simpl. f_equal.
    apply highlights_absent; [done |]. unfold selecting. by destruct (_ && _).
  - simpl in Hnd. apply NoDup_cons in Hnd as [Hy Hnd].
    assert (id x ∈ id <$> (l1 ++ x :: l2)) as Hin.
    { apply list_elem_of_fmap_2, elem_of_app. right. left. }
    cbn [app highlights forallb]. rewrite decide_False by by intros E; rewrite E in Hy.
    unfold selecting at 1.
    destruct (IsItemClicked ui (addr y) && is_leaf (children y)); simpl.
    + by apply highlights_absent.
    + by apply IH.
Qed.

(** X11.  A pass draws the selection rectangle where the walk meets the
    identifier that is selected as it gets there, before it looks at
    the click on that item.  So it draws at most one, for the drawn
    item whose identifier was selected when the pass began, and draws
    it exactly when no item without children drawn before that one is
    clicked in the pass: a selected leaf that is clicked gets its
    rectangle and is activated again, an item activated in the pass
    gets none unless it was the selection already, and the item
    selected before gets none once the walk has activated another. *)
Theorem Draw_highlights_old_selection w k impl ui impl' r evs :
  reachable false w → views w !! k = Some impl →
  Draw ui impl = Some (impl', r, evs) →
  rects evs
    = highlights ui (selected_id_ impl) (children (root_ impl) ≫= drawn ui) ∧
  (∀ j, j ∈ rects evs →
        j = selected_id_ impl ∧
        ∃ x, x ∈ children (root_ impl) ≫= drawn ui ∧ id x = j) ∧
  (selected_id_ impl ∉ id <$> (children (root_ impl) ≫= drawn ui) →
   rects evs = []) ∧
  (∀ l1 x l2,
     children (root_ impl) ≫= drawn ui = l1 ++ x :: l2 →
     id x = selected_id_ impl →
     ((∀ z, z ∈ l1 → children z = [] → IsItemClicked ui (addr z) = false) →
      rects evs = [selected_id_ impl]) ∧
     (∀ z, z ∈ l1 → children z = [] → IsItemClicked ui (addr z) = true →
           rects evs = [])).
Proof.
  intros Hr Hk Hdraw. pose proof (reachable_wf _ _ _ _ Hr Hk) as Hwf.
  pose proof (shape_ids _ (wf_shape _ _ Hwf)) as Hnd.
  rewrite ids_unfold in Hnd. apply NoDup_cons in Hnd as [_ Hnd].
  assert (NoDup (id <$> (children (root_ impl) ≫= drawn ui))) as Hdrawn.
  { rewrite bind_ids in Hnd. eapply sublist_NoDup; [exact Hnd |].
    apply fmap_sublist, drawn_tops_sublist. }
  destruct (fold_rects ui (children (root_ impl))) with (w := mkWalk impl None [])
    as (R & E & HR); [| done |].
  { apply Forall_forall. intros item _. apply DrawItem_rects. }
  destruct (fold_highlights ui (children (root_ impl)))
    with (w := mkWalk impl None []) as [_ EH].
  { apply Forall_forall. intros item _ w'. apply DrawItem_highlights. }
  simpl in E, EH. unfold Draw, DrawTop in Hdraw.
  set (w' := fold_left (λ w top, DrawItem ui top w) (children (root_ impl))
                       (mkWalk impl None [])) in *.
  assert (rects evs = rects (w_events w')) as Hevs.
  { unfold notify in Hdraw. destruct (w_new_selection w').
    - destruct (on_value_changed_ (w_impl w')).
      + destruct (deref _ _); [| done]. simpl in Hdraw.
        injection Hdraw as _ _ <-. unfold rects in *.
        by rewrite omap_app, app_nil_r.
      + injection Hdraw as _ _ <-. by rewrite app_nil_r.
    - injection Hdraw as _ _ <-. by rewrite app_nil_r. }
  set (D := children (root_ impl) ≫= drawn ui) in *.
  split; [by rewrite Hevs | split; [| split]].
  - intros j Hj. rewrite Hevs, E in Hj. rewrite Forall_forall in HR.
    by apply HR.
  - intros Hs. rewrite Hevs, EH. by apply highlights_absent.
  - intros l1 x l2 HD Hx. rewrite Hevs, EH, <- Hx, HD.
    rewrite HD in Hdrawn. rewrite (highlights_at ui l1 x l2 Hdrawn).
    split.
    + intros Hquiet.
      assert (forallb (λ z, negb (IsItemClicked ui (addr z)
                                  && is_leaf (children z))) l1 = true) as ->;
        [| done].
      apply forallb_forall. intros z Hz%list_elem_of_In.
      destruct (children z) eqn:Hc; [| by rewrite andb_false_r].
      by rewrite (Hquiet z Hz Hc).
    + intros z Hz Hleaf Hc.
      assert (forallb (λ z, negb (IsItemClicked ui (addr z)
                                  && is_leaf (children z))) l1 = false) as ->;
        [| done].
      apply not_true_is_false. intros Hall.
      rewrite forallb_forall in Hall.
      specialize (Hall z (proj1 (list_elem_of_In _ _) Hz)).
      by rewrite Hc, Hleaf in Hall.
Qed.

Lemma Draw_highlights_old_selection_witness :
  ∃ impl,
    view_after [CNew; CAddItem 0 0 "A"; CAddItem 0 0 "B";
                CSetSelectedItemId 0 2] 0 = Some impl ∧
    ∃ impl' r evs,
      Draw (mkFrame (λ _, true) (λ a, bool_decide (a = 3%positive))) impl
        = Some (impl', r, evs) ∧
      r = REDRAW ∧ selected_id_ impl' = 2 ∧ rects evs = [2].
Proof.
  eexists. split; [vm_compute; reflexivity |].
  eassert (reachable false _) as Hr.
  { eapply (run_reachable 16 [CNew; CAddItem 0 0 "A"; CAddItem 0 0 "B";
                              CSetSelectedItemId 0 2]);
      [apply reachable_start | vm_compute; reflexivity]. }
  match goal with
  | |- ∃ impl' r evs, Draw ?ui ?impl = _ ∧ _ =>
      destruct (Draw ui impl) as [[[impl' r] evs]|] eqn:Hdraw;
        [| by vm_compute in Hdraw]
  end.
  exists impl', r, evs. split; [done |].
  pose proof (Draw_highlights_old_selection _ 0 _ _ _ _ _ Hr eq_refl Hdraw)
    as (H & _).
  vm_compute in Hdraw. injection Hdraw as <- <- <-.
  split; [reflexivity | split; [reflexivity | exact H]].
Defined.

(** ** Removing the selected item *)

(** X12.  [RemoveItem] on the selected item, when it is not the root,
    leaves the selection on an item that is gone: [GetSelectedItemId]
    still returns its identifier, which no longer resolves and is the
    identifier of no item of the tree, and no later pass draws a
    selection rectangle for it. *)
Theorem RemoveItem_selected w k impl i p fuel impl' :
  reachable false w → views w !! k = Some impl →
  id2item_ impl !! i = Some p → i ≠ GetRootItem impl →
  selected_id_ impl = i →
  RemoveItem fuel impl i = Some impl' →
  GetSelectedItemId impl' = i ∧
  id2item_ impl' !! i = None ∧
  (i ∉ ids (root_ impl')) ∧
  ∀ ui impl'' r evs, Draw ui impl' = Some (impl'', r, evs) → i ∉ rects evs.
Proof.
  intros Hr Hk Hm Hne Hsel Hrem.
  pose proof (reachable_wf _ _ _ _ Hr Hk) as Hwf.
  pose proof (wf_shape _ _ Hwf) as Hsh.
  destruct (RemoveItem_result _ _ _ _ _ Hwf Hrem)
    as [[Hnone _] | (x & Hx & Hi & _ & ->)]; [by rewrite Hm in Hnone |].
  pose proof (removed_wf _ _ x Hwf Hx) as Hwf'.
  destruct (flatten_owner _ _ Hx) as [-> | (y & Hy & Hxy)]; [done |].
  pose proof (shape_parents _ Hsh y x Hy Hxy) as Hpx.
  assert (root_ (removed impl x)
          = modify_children (addr y) (erase_id (id x)) (root_ impl)) as Er.
  { unfold removed. simpl. by rewrite Hpx. }
  assert (i ∉ ids (root_ (removed impl x))) as Hgone.
  { intros (z & Hzi & Hz)%list_elem_of_fmap. rewrite Er in Hz.
    apply (erased_ids_gone (root_ impl) y x x z Hsh Hy Hxy);
      [apply flatten_self | done | congruence]. }
  split; [| split; [| split; [done |]]].
  - pose proof (wf_below _ _ Hwf _ (elem_of_ids _ _ Hx)) as Hb.
    unfold GetSelectedItemId. simpl. rewrite Hsel. rewrite Hi in Hb.
    by rewrite decide_False by lia.
  - simpl. rewrite lookup_remove_keys, decide_True; [done |].
    rewrite <- Hi. apply elem_of_ids, flatten_self.
  - intros ui impl'' r evs Hdraw Hin.
    pose proof (shape_ids _ (wf_shape _ _ Hwf')) as Hnd.
    rewrite ids_unfold in Hnd. apply NoDup_cons in Hnd as [_ Hnd].
    destruct (fold_rects ui (children (root_ (removed impl x))))
      with (w := mkWalk (removed impl x) None []) as (R & E & HR); [| done |].
    { apply Forall_forall. intros item _. apply DrawItem_rects. }
    cbn [w_events] in E. unfold Draw, DrawTop in Hdraw.
    set (w' := fold_left _ _ _) in *.
    assert (rects evs = R) as Hevs.
    { unfold notify in Hdraw. destruct (w_new_selection w').
      - destruct (on_value_changed_ (w_impl w')).
        + destruct (deref _ _); [| done]. cbn [mbind option_bind] in Hdraw.
          injection Hdraw as _ _ <-. unfold rects in *.
          by rewrite omap_app, E, app_nil_r.
        + injection Hdraw as _ _ <-. by rewrite app_nil_r.
      - injection Hdraw as _ _ <-. by rewrite app_nil_r. }
    rewrite Hevs in Hin. rewrite Forall_forall in HR.
    destruct (HR i Hin) as (_ & z & Hz & Hzi).
    apply Hgone. rewrite <- Hzi. apply elem_of_ids.
    by eapply drawn_tops_flatten.
Qed.

Lemma RemoveItem_selected_witness :
  ∃ impl,
    view_after [CNew; CAddItem 0 0 "A"; CAddItem 0 0 "B";
                CSetSelectedItemId 0 2] 0 = Some impl ∧
    ∃ impl', RemoveItem 16 impl 2 = Some impl' ∧
             GetSelectedItemId impl' = 2 ∧ id2item_ impl' !! 2 = None.
Proof.
  eexists. split; [vm_compute; reflexivity |].
  eassert (reachable false _) as Hr.
  { eapply (run_reachable 16 [CNew; CAddItem 0 0 "A"; CAddItem 0 0 "B";
                              CSetSelectedItemId 0 2]);
      [apply reachable_start | vm_compute; reflexivity]. }
  match goal with
  | |- ∃ impl', RemoveItem 16 ?impl 2 = _ ∧ _ =>
      destruct (RemoveItem 16 impl 2) as [impl'|] eqn:Hrem;
        [| by vm_compute in Hrem]
  end.
  exists impl'. split; [done |].
  destruct (RemoveItem_selected _ 0 _ 2 3%positive 16 impl' Hr eq_refl eq_refl)
    as (Hs & Hm & _); [done | reflexivity | exact Hrem |].
  by split.
Defined.

(** ** The node of a leaf, open or not *)

Lemma clicks_ext_open ui ui' item :
  (∀ a, IsItemClicked ui a = IsItemClicked ui' a) →
  (∀ z, z ∈ flatten item → children z ≠ [] →
        node_open ui (addr z) = node_open ui' (addr z)) →
  clicks ui item = clicks ui' item.
Proof.
  intros Hclick. induction item as [a i t par cs IH] using Item_ind'.
  intros Hopen. rewrite !clicks_unfold. cbn [addr children].
  rewrite Hclick. f_equal. destruct cs as [|c cs].
  { by destruct (node_open ui a), (node_open ui' a). }
  pose proof (Hopen _ (flatten_self _) ltac:(done)) as Ha. cbn [addr] in Ha.
  rewrite <- Ha. destruct (node_open ui a); [| done]. apply Forall_bind_ext.
  rewrite Forall_forall in IH. apply Forall_forall. intros c' Hc'.
  apply IH; [done |]. intros z Hz. apply Hopen.
  apply elem_of_flatten. right. by exists c'.
Qed.

(** X13.  Whether the node of an item without children is open makes
    no difference to what a pass selects: two passes over the same view
    that see the same clicks, and the same open nodes among the items
    that have children, leave the same view, return the same result and
    make the same listener call. *)
Theorem Draw_leaf_open_or_not ui ui' impl :
  (∀ a, IsItemClicked ui a = IsItemClicked ui' a) →
  (∀ z, z ∈ flatten (root_ impl) → children z ≠ [] →
        node_open ui (addr z) = node_open ui' (addr z)) →
  match Draw ui impl, Draw ui' impl with
  | Some (impl1, r1, evs1), Some (impl2, r2, evs2) =>
      impl1 = impl2 ∧ r1 = r2 ∧ calls evs1 = calls evs2
  | None, None => True
  | _, _ => False
  end.
Proof.
  intros Hclick Hopen. unfold Draw.
  destruct (DrawTop_spec ui (children (root_ impl)) (mkWalk impl None []))
    as (Ep & l & El & Hl).
  destruct (DrawTop_spec ui' (children (root_ impl)) (mkWalk impl None []))
    as (Ep' & l' & El' & Hl').
  assert (children (root_ impl) ≫= clicks ui
          = children (root_ impl) ≫= clicks ui') as Hsame.
  { apply Forall_bind_ext, Forall_forall. intros item Hitem.
    apply clicks_ext_open; [done |]. intros z Hz. apply Hopen.
    apply elem_of_flatten. right. by exists item. }
  rewrite <- Hsame, <- Ep in Ep'. unfold picked in Ep'.
  injection Ep' as Ei En.
  set (w1 := DrawTop ui (children (root_ impl)) (mkWalk impl None [])) in *.
  set (w2 := DrawTop ui' (children (root_ impl)) (mkWalk impl None [])) in *.
  assert (notify w2 = notify w1) as Hn by (unfold notify; by rewrite Ei, En).
  assert (∀ walk, Forall no_call walk → calls walk = []) as Hnone.
  { induction 1 as [|e walk He _ IH]; [done |].
    destruct e; simpl in *; done. }
  assert (∀ walk cs, Forall no_call walk → calls (walk ++ cs) = calls cs)
    as Hcalls.
  { intros walk cs Hw. unfold calls. rewrite omap_app.
    fold (calls walk). by rewrite (Hnone walk Hw). }
  rewrite Hn, Ei, En. destruct (notify w1) as [cs|]; [| done]. simpl.
  split; [done | split; [done |]].
  simpl in El, El'. by rewrite El, El', !Hcalls.
Qed.

Lemma Draw_leaf_open_or_not_witness :
  ∃ impl,
    view_after [CNew; CAddItem 0 0 "A"; CAddItem 0 0 "B";
                CSetOnValueChanged 0 (Some 4%nat)] 0 = Some impl ∧
    match Draw (mkFrame (λ a, bool_decide (a ≠ 2%positive))
                        (λ a, bool_decide (a = 3%positive))) impl,
          Draw (mkFrame (λ a, bool_decide (a ≠ 3%positive))
                        (λ a, bool_decide (a = 3%positive))) impl
    with
    | Some (impl1, r1, evs1), Some (impl2, r2, evs2) =>
        impl1 = impl2 ∧ r1 = r2 ∧ calls evs1 = calls evs2
    | None, None => True
    | _, _ => False
    end.
Proof.
  eexists. split; [vm_compute; reflexivity |].
  apply (Draw_leaf_open_or_not
           (mkFrame (λ a, bool_decide (a ≠ 2%positive))
                    (λ a, bool_decide (a = 3%positive)))
           (mkFrame (λ a, bool_decide (a ≠ 3%positive))
                    (λ a, bool_decide (a = 3%positive)))).
  - done.
  - intros z Hz Hc. vm_compute in Hz.
    repeat (apply elem_of_cons in Hz as [-> | Hz]; [done |]).
    by apply elem_of_nil in Hz.
Defined.

(** ** Views of one process *)

Lemma ids_modify (Q : Z → Prop) p h t :
  (∀ z, z ∈ flatten t → Q (id z)) →
  (∀ y c z, y ∈ flatten t → addr y = p → c ∈ h (children y) →
            z ∈ flatten c → Q (id z)) →
  ∀ z, z ∈ flatten (modify_children p h t) → Q (id z).
Proof.
  intros Hold Hnew z' Hz'.
  apply flatten_modify in Hz' as [(y & Hy & _ & ->) | (y & Hy & Hp & Hz')].
  - rewrite id_modify. by apply Hold.
  - destruct Hz' as [-> | (c & Hc & Hz')]; [| by eapply Hnew].
    simpl. by apply Hold.
Qed.

Lemma added_ids impl parent_id txt g i :
  i ∈ ids (root_ (added impl parent_id txt g)) →
  i = g ∨ i ∈ ids (root_ impl).
Proof.
  intros (z & -> & Hz)%list_elem_of_fmap. revert z Hz. unfold added. simpl.
  apply (ids_modify (λ j, j = g ∨ j ∈ ids (root_ impl))).
  - intros z Hz. right. by apply elem_of_ids.
  - intros y c z Hy _ Hc Hz.
    apply elem_of_app in Hc as [Hc | ->%list_elem_of_singleton].
    + right. apply elem_of_ids. eapply flatten_trans; [done |].
      eapply flatten_trans; [by apply flatten_child | done].
    + left. by apply list_elem_of_singleton in Hz as ->.
Qed.

Lemma removed_ids impl x i :
  i ∈ ids (root_ (removed impl x)) → i ∈ ids (root_ impl).
Proof.
  intros (z & -> & Hz)%list_elem_of_fmap. revert z Hz. unfold removed. simpl.
  destruct (parent x) as [q|];
    apply (ids_modify (λ j, j ∈ ids (root_ impl)));
    try (intros z Hz; by apply elem_of_ids).
  - intros y c z Hy _ Hc Hz. apply erase_id_subseteq in Hc.
    apply elem_of_ids. eapply flatten_trans; [done |].
    eapply flatten_trans; [by apply flatten_child | done].
  - intros y c z _ _ Hc. by apply elem_of_nil in Hc.
Qed.

Lemma apart_update w k impl impl1 g' :
  inv w → apart w → views w !! k = Some impl →
  (∀ i, i ∈ ids (root_ impl1) → i ∈ ids (root_ impl) ∨ g_next_id w ≤ i) →
  apart (mkProcess g' (<[k := impl1]> (views w))).
Proof.
  intros [_ Hv] Hap Hk Hids k1 k2 impl_a impl_b i Hne Ha Hb Hi Hi'.
  simpl in Ha, Hb.
  apply list_lookup_insert_Some in Ha as [(<- & <- & _) | (Hk1 & Ha)];
    apply list_lookup_insert_Some in Hb as [(<- & <- & _) | (Hk2 & Hb)];
    try done.
  - destruct (Hids i Hi) as [Hold | Hnew].
    + by apply (Hap k k2 impl impl_b i).
    + pose proof (wf_below _ _ (Hv _ _ Hb) i Hi'). lia.
  - destruct (Hids i Hi') as [Hold | Hnew].
    + by apply (Hap k1 k impl_a impl i).
    + pose proof (wf_below _ _ (Hv _ _ Ha) i Hi). lia.
  - by apply (Hap k1 k2 impl_a impl_b i).
Qed.

Lemma exec_apart fuel w c w' o :
  inv w → apart w → exec fuel w c = Some (w', o) → apart w'.
Proof.
  intros Hinv Hap Hexec. pose proof Hinv as [Hg Hv].
  destruct c as [|k pid txt|k i|k i|k f|k ui]; simpl in Hexec.
  - injection Hexec as <- _.
    intros k1 k2 impl_a impl_b i Hne Ha Hb Hi Hi'. simpl in Ha, Hb.
    apply lookup_app_Some in Ha as [Ha | [Hlen Ha]];
      apply lookup_app_Some in Hb as [Hb | [Hlen' Hb]].
    + by apply (Hap k1 k2 impl_a impl_b i).
    + apply list_lookup_singleton_Some in Hb as [_ <-]. simpl in Hi'.
      apply list_elem_of_singleton in Hi' as ->.
      pose proof (wf_below _ _ (Hv _ _ Ha) _ Hi). simpl in *. lia.
    + apply list_lookup_singleton_Some in Ha as [_ <-]. simpl in Hi.
      apply list_elem_of_singleton in Hi as ->.
      pose proof (wf_below _ _ (Hv _ _ Hb) _ Hi'). simpl in *. lia.
    + apply list_lookup_singleton_Some in Ha as [Ha _].
      apply list_lookup_singleton_Some in Hb as [Hb _]. lia.
  - destruct (views w !! k) as [impl|] eqn:Hk; [| done]. simpl in Hexec.
    rewrite (AddItem_wf_eq _ _ _ _ (Hv _ _ Hk)) in Hexec. simpl in Hexec.
    injection Hexec as <- _. eapply apart_update; [done | done | done |].
    intros i [-> | Hi]%added_ids; [right; lia | by left].
  - destruct (views w !! k) as [impl|] eqn:Hk; [| done]. simpl in Hexec.
    destruct (RemoveItem fuel impl i) as [impl1|] eqn:Hrem; [| done].
    injection Hexec as <- _. eapply apart_update; [done | done | done |].
    intros j Hj. left.
    destruct (RemoveItem_result _ _ _ _ _ (Hv _ _ Hk) Hrem)
      as [[_ ->] | (x & _ & _ & _ & ->)]; [done | by eapply removed_ids].
  - destruct (views w !! k) as [impl|] eqn:Hk; [| done].
    injection Hexec as <- _. eapply apart_update; [done | done | done |].
    intros j Hj. by left.
  - destruct (views w !! k) as [impl|] eqn:Hk; [| done].
    injection Hexec as <- _. eapply apart_update; [done | done | done |].
    intros j Hj. by left.
  - destruct (views w !! k) as [impl|] eqn:Hk; [| done]. simpl in Hexec.
    destruct (Draw ui impl) as [[[impl1 r] evs]|] eqn:Hdraw; [| done].
    injection Hexec as <- _. eapply apart_update; [done | done | done |].
    destruct (Draw_store _ _ _ _ _ Hdraw) as (Er & _).
    intros j Hj. left. by rewrite <- Er.
Qed.

Lemma reachable_apart guarded w : reachable guarded w → apart w.
Proof.
  induction 1 as [|w c fuel w' o Hr IH _ Hexec].
  - intros k k' impl impl' i _ Hk. simpl in Hk. by rewrite lookup_nil in Hk.
  - eapply exec_apart; [by eapply reachable_inv | done | done].
Qed.

(** X14.  The views of a process share no identifier: the identifier of
    an item of one view is the identifier of no item of another view
    and does not resolve there.  On that other view [GetItemChildren]
    gives the empty sequence for it, [RemoveItem] changes nothing, and
    [AddItem] with it as parent attaches the new item to the root. *)
Theorem views_share_no_id w k k' impl impl' x txt :
  reachable false w → k ≠ k' →
  views w !! k = Some impl → views w !! k' = Some impl' →
  x ∈ flatten (root_ impl') →
  (id x ∉ ids (root_ impl)) ∧
  id2item_ impl !! id x = None ∧
  GetItemChildren impl (id x) = Some [] ∧
  (∀ fuel, RemoveItem (S fuel) impl (id x) = Some impl) ∧
  ∃ item impl1,
    AddItem impl (id x) txt (g_next_id w)
      = Some (g_next_id w, impl1, g_next_id w + 1) ∧
    id item = g_next_id w ∧
    root_ impl1 = set_children (root_ impl) (children (root_ impl) ++ [item]).
Proof.
  intros Hr Hne Hk Hk' Hx. pose proof (reachable_wf _ _ _ _ Hr Hk) as Hwf.
  pose proof (reachable_apart _ _ Hr) as Hap.
  assert (id x ∉ ids (root_ impl)) as Hnot.
  { intros Hin. by apply (Hap k' k impl' impl (id x) ltac:(done) Hk' Hk);
      [apply elem_of_ids |]. }
  assert (id2item_ impl !! id x = None) as Hm.
  { destruct (id2item_ impl !! id x) as [q|] eqn:E; [| done]. destruct Hnot.
    apply (wf_sound _ _ Hwf) in E. rewrite ids_entries.
    by apply (list_elem_of_fmap_2' fst _ (id x, q)). }
  split; [done | split; [done | split; [by apply GetItemChildren_absent |]]].
  split; [by intros; apply RemoveItem_absent |].
  eexists _, (added impl (id x) txt (g_next_id w)).
  split; [by apply AddItem_wf_eq |]. split; [| unfold added, target].
  2:{ rewrite Hm. simpl.
      rewrite modify_children_unfold, decide_True by apply Hwf. reflexivity. }
  done.
Qed.

Lemma views_share_no_id_witness :
  ∃ w out,
    run 16 start [CNew; CNew; CAddItem 0 0 "A"; CAddItem 1 1 "B"]
      = Some (w, out) ∧
    ∃ impl, views w !! 0%nat = Some impl ∧
            GetItemChildren impl 3 = Some [] ∧
            RemoveItem 1 impl 3 = Some impl.
Proof.
  eexists _, _. split; [vm_compute; reflexivity |].
  eassert (reachable false _) as Hr.
  { eapply (run_reachable 16 [CNew; CNew; CAddItem 0 0 "A"; CAddItem 1 1 "B"]);
      [apply reachable_start | vm_compute; reflexivity]. }
  eexists. split; [reflexivity |].
  destruct (views_share_no_id _ 0%nat 1%nat _ _
              (mkItem 2 3 "B##3" (Some 1%positive) []) "" Hr
              ltac:(done) eq_refl eq_refl
              ltac:(vm_compute; right; left)) as (_ & _ & HG & HR & _).
  split; [exact HG | exact (HR 0%nat)].
Defined.

(** ** A pass without a click *)

Lemma filter_eq_NoDup (s : Z) l :
  NoDup l → filter (λ j, j = s) l = if decide (s ∈ l) then [s] else [].
Proof.
  induction 1 as [|j l Hj _ IH]; [done |].
  destruct (decide (j = s)) as [-> | Hne].
  - rewrite filter_cons_True by done. rewrite decide_True by left.
    f_equal. apply filter_none. by intros z Hz ->.
  - rewrite filter_cons_False by done. rewrite IH.
    destruct (decide (s ∈ l)) as [Hin | Hin].
    + by rewrite decide_True by by right.
    + rewrite decide_False; [done |].
      by intros [-> | ?]%elem_of_cons.
Qed.

Lemma fold_rects_quiet ui cs :
  Forall (λ item, clicks ui item = [] → ∀ w,
    rects (w_events (DrawItem ui item w))
      = rects (w_events w)
        ++ filter (λ j, j = selected_id_ (w_impl w)) (id <$> drawn ui item)) cs →
  cs ≫= clicks ui = [] →
  ∀ w,
    rects (w_events (fold_left (λ w c, DrawItem ui c w) cs w))
      = rects (w_events w)
        ++ filter (λ j, j = selected_id_ (w_impl w)) (id <$> (cs ≫= drawn ui)).
Proof.
  induction 1 as [|c cs Hc _ IH]; intros Hq w.
  - simpl. by rewrite app_nil_r.
  - rewrite bind_cons in Hq. apply app_eq_nil in Hq as [Hqc Hqcs].
    cbn [fold_left]. rewrite (IH Hqcs), (Hc Hqc), selected_after_DrawItem, Hqc.
    cbn [last]. by rewrite bind_cons, fmap_app, filter_app, app_assoc.
Qed.

Lemma DrawItem_rects_quiet ui item :
  clicks ui item = [] → ∀ w,
    rects (w_events (DrawItem ui item w))
      = rects (w_events w)
        ++ filter (λ j, j = selected_id_ (w_impl w)) (id <$> drawn ui item).
Proof.
  induction item as [a i t par cs IH] using Item_ind'. intros Hq w.
  pose proof (fold_rects_quiet ui cs IH) as IHcs. clear IH.
  rewrite clicks_unfold in Hq. simpl in Hq.
  apply app_eq_nil in Hq as [Hself Hkids].
  assert (IsItemClicked ui a && is_leaf cs = false) as Hno
    by by destruct (IsItemClicked ui a && is_leaf cs).
  set (item := mkItem a i t par cs).
  set (w1 := if decide (i = selected_id_ (w_impl w))
             then emit (SelectionRect i) w else w).
  set (w2 := emit (TreeNodeEx t (is_leaf cs)) w1).
  assert (DrawItem ui item w =
          if node_open ui a
          then emit TreePop (fold_left (λ w c, DrawItem ui c w) cs w2)
          else w2) as ->.
  { unfold item. cbn [DrawItem]. fold w1. fold w2. by rewrite Hno. }
  assert (w_impl w2 = w_impl w) as Ei
    by (unfold w2, w1; by case_decide).
  assert (rects (w_events w2)
          = rects (w_events w) ++ filter (λ j, j = selected_id_ (w_impl w)) [i])
    as E2.
  { unfold w2. rewrite rects_emit.
    change (rects [TreeNodeEx t (is_leaf cs)]) with (@nil Z).
    rewrite app_nil_r. unfold w1. case_decide as Hsel.
    - rewrite rects_emit. by rewrite filter_cons_True, filter_nil by done.
    - by rewrite filter_cons_False, filter_nil, app_nil_r by done. }
  rewrite drawn_unfold. cbn [addr children]. rewrite fmap_cons.
  change (id item :: ?l) with ([i] ++ l). rewrite filter_app, app_assoc, <- E2.
  change (node_open ui (addr item)) with (node_open ui a).
  change (children item) with cs.
  destruct (node_open ui a) eqn:Hopen.
  - rewrite rects_emit, (IHcs Hkids), Ei.
    change (rects [TreePop]) with (@nil Z). by rewrite app_nil_r.
  - by rewrite fmap_nil, filter_nil, app_nil_r.
Qed.

(** X15.  A pass in which no drawn item without children is clicked
    returns [NONE], leaves the view as it was and calls no listener; it
    draws the selection rectangle once if the item with the selected
    identifier is among the drawn ones, and not at all otherwise. *)
Theorem Draw_without_click w k impl ui :
  reachable false w → views w !! k = Some impl →
  (∀ z, z ∈ children (root_ impl) ≫= drawn ui → children z = [] →
        IsItemClicked ui (addr z) = false) →
  ∃ evs,
    Draw ui impl = Some (impl, NONE, evs) ∧ calls evs = [] ∧
    rects evs =
      if decide (selected_id_ impl ∈ id <$> (children (root_ impl) ≫= drawn ui))
      then [selected_id_ impl] else [].
Proof.
  intros Hr Hk Hquiet. pose proof (reachable_wf _ _ _ _ Hr Hk) as Hwf.
  pose proof (wf_shape _ _ Hwf) as Hsh.
  assert (children (root_ impl) ≫= clicks ui = []) as Hq.
  { rewrite (list_bind_ext (clicks ui)
               (λ item, filter (λ z, Is_true (IsItemClicked ui (addr z)
                                              && is_leaf (children z)))
                               (drawn ui item))
               (children (root_ impl)) (children (root_ impl)))
      by (try done; intros; apply clicks_drawn).
    rewrite <- filter_bind. apply filter_none. intros z Hz Hc.
    apply Is_true_true, andb_true_iff in Hc as [Hc Hl].
    rewrite Hquiet in Hc; [done | done |]. by destruct (children z). }
  destruct (Draw_eq ui impl (shape_addrs _ Hsh)) as (walk & Ew & Hno & Hdraw).
  rewrite Hq in Hdraw. simpl in Hdraw. exists walk.
  split; [done | split; [by apply calls_quiet |]].
  rewrite <- Ew. unfold DrawTop. rewrite fold_rects_quiet; [| | done].
  - simpl. apply filter_eq_NoDup.
    pose proof (shape_ids _ Hsh) as Hnd. rewrite ids_unfold in Hnd.
    apply NoDup_cons in Hnd as [_ Hnd]. rewrite bind_ids in Hnd.
    eapply sublist_NoDup; [exact Hnd |]. apply fmap_sublist.
    apply drawn_tops_sublist.
  - apply Forall_forall. intros item _. apply DrawItem_rects_quiet.
Qed.

Lemma Draw_without_click_witness :
  ∃ impl,
    view_after [CNew; CAddItem 0 0 "A"; CAddItem 0 0 "B";
                CSetSelectedItemId 0 2] 0 = Some impl ∧
    ∃ evs, Draw (mkFrame (λ _, true) (λ _, false)) impl = Some (impl, NONE, evs) ∧
           calls evs = [] ∧ rects evs = [2].
Proof.
  eexists. split; [vm_compute; reflexivity |].
  eassert (reachable false _) as Hr.
  { eapply (run_reachable 16 [CNew; CAddItem 0 0 "A"; CAddItem 0 0 "B";
                              CSetSelectedItemId 0 2]);
      [apply reachable_start | vm_compute; reflexivity]. }
  destruct (Draw_without_click _ 0%nat _ (mkFrame (λ _, true) (λ _, false))
              Hr eq_refl ltac:(done)) as (evs & Hd & Hc & HR).
  exists evs. split; [exact Hd | split; [exact Hc | exact HR]].
Defined.

(** ** The root as parent *)

(** X16.  On every view, [AddItem] with the identifier of the root as
    parent appends the new item to the children of the root, with the
    root as its parent, whether the root is still in the lookup table
    or has been taken out of it by [RemoveItem]. *)
Theorem AddItem_under_root w k impl txt :
  reachable false w → views w !! k = Some impl →
  ∃ item impl1,
    AddItem impl (GetRootItem impl) txt (g_next_id w)
      = Some (g_next_id w, impl1, g_next_id w + 1) ∧
    id item = g_next_id w ∧ parent item = Some (addr (root_ impl)) ∧
    children item = [] ∧
    root_ impl1 = set_children (root_ impl) (children (root_ impl) ++ [item]) ∧
    GetRootItem impl1 = GetRootItem impl.
Proof.
  intros Hr Hk. pose proof (reachable_wf _ _ _ _ Hr Hk) as Hwf.
  pose proof (wf_shape _ _ Hwf) as Hsh. unfold GetRootItem.
  assert (target impl (id (root_ impl)) = root_ptr) as Ht.
  { unfold target. destruct (id2item_ impl !! id (root_ impl)) as [q|] eqn:E;
      [| done].
    destruct (wf_resolve _ _ _ _ Hwf E) as (x & Hx & Hi & <- & _).
    rewrite (same_id x (root_ impl) (root_ impl) (shape_ids _ Hsh) Hx
               (flatten_self _) Hi). apply Hwf. }
  exists (mkItem (fresh_addr (root_ impl)) (g_next_id w)
                 (txt +:+ "##" +:+ pretty (g_next_id w)) (Some root_ptr) []),
         (added impl (id (root_ impl)) txt (g_next_id w)).
  split; [by apply AddItem_wf_eq |]. unfold added. rewrite Ht. simpl.
  rewrite modify_children_unfold, decide_True by apply Hwf.
  by rewrite (wf_root _ _ Hwf).
Qed.

Lemma AddItem_under_root_witness :
  ∃ impl,
    view_after [CNew; CAddItem 0 0 "A"; CRemoveItem 0 0] 0 = Some impl ∧
    id2item_ impl !! 0 = None ∧
    ∃ item impl1,
      AddItem impl (GetRootItem impl) "B" 2 = Some (2, impl1, 3) ∧
      id item = 2 ∧ children (root_ impl1) = children (root_ impl) ++ [item].
Proof.
  eexists. split; [vm_compute; reflexivity |]. split; [reflexivity |].
  eassert (reachable false _) as Hr.
  { eapply (run_reachable 16 [CNew; CAddItem 0 0 "A"; CRemoveItem 0 0]);
      [apply reachable_start | vm_compute; reflexivity]. }
  destruct (AddItem_under_root _ 0%nat _ "B" Hr eq_refl)
    as (item & impl1 & Ha & Hi & _ & _ & Er & _).
  exists item, impl1. split; [exact Ha | split; [exact Hi |]].
  by rewrite Er.
Defined.

(** ** The selection before a pass *)

(** X17.  What a pass returns, what it tells the listener and, once a
    leaf is activated, the view it leaves do not depend on the
    selection it starts from: a click on the leaf that is selected
    already returns [REDRAW] and calls the listener like any other. *)
Theorem Draw_whatever_selected w k impl ui s :
  reachable false w → views w !! k = Some impl →
  ∃ impl1 impl2 r evs1 evs2,
    Draw ui impl = Some (impl1, r, evs1) ∧
    Draw ui (SetSelectedItemId impl s) = Some (impl2, r, evs2) ∧
    calls evs1 = calls evs2 ∧
    (r = REDRAW → impl1 = impl2) ∧
    (r = NONE → impl1 = impl ∧ impl2 = SetSelectedItemId impl s).
Proof.
  intros Hr Hk. pose proof (reachable_wf _ _ _ _ Hr Hk) as Hwf.
  pose proof (shape_addrs _ (wf_shape _ _ Hwf)) as Hnd.
  destruct (Draw_eq ui impl Hnd) as (walk1 & _ & Hno1 & Hd1).
  destruct (Draw_eq ui (SetSelectedItemId impl s) Hnd) as (walk2 & _ & Hno2 & Hd2).
  simpl in Hd2.
  assert (∀ walk cs, Forall no_call walk → calls (walk ++ cs) = calls cs)
    as Hcalls.
  { intros walk cs Hw. pose proof (calls_quiet _ Hw) as E.
    unfold calls in *. by rewrite omap_app, E. }
  destruct (last (children (root_ impl) ≫= clicks ui)) as [x|].
  - eexists _, _, REDRAW, _, _. split; [exact Hd1 | split; [exact Hd2 |]].
    split; [by rewrite !Hcalls | done].
  - eexists _, _, NONE, _, _. split; [exact Hd1 | split; [exact Hd2 |]].
    split; [by rewrite !calls_quiet | done].
Qed.

Lemma Draw_whatever_selected_witness :
  ∃ impl,
    view_after [CNew; CAddItem 0 0 "A"; CSetOnValueChanged 0 (Some 4%nat)] 0
      = Some impl ∧
    ∃ impl1 impl2 r evs1 evs2,
      Draw (mkFrame (λ _, true) (λ _, true)) impl = Some (impl1, r, evs1) ∧
      Draw (mkFrame (λ _, true) (λ _, true)) (SetSelectedItemId impl 1)
        = Some (impl2, r, evs2) ∧
      calls evs1 = calls evs2.
Proof.
  eexists. split; [vm_compute; reflexivity |].
  eassert (reachable false _) as Hr.
  { eapply (run_reachable 16 [CNew; CAddItem 0 0 "A";
                              CSetOnValueChanged 0 (Some 4%nat)]);
      [apply reachable_start | vm_compute; reflexivity]. }
  destruct (Draw_whatever_selected _ 0%nat _ (mkFrame (λ _, true) (λ _, true)) 1
              Hr eq_refl) as (impl1 & impl2 & r & evs1 & evs2 & H1 & H2 & Hc & _).
  exists impl1, impl2, r, evs1, evs2. split; [exact H1 | split; [exact H2 | exact Hc]].
Defined.

(** ** The listener of a pass *)


